(** * The tsickle type translator (type_translator.ts), embedded in Rocq

    The TypeScript class [TypeTranslator] turns a [ts.Type] of the TypeScript
    checker into the text of a Closure Compiler type.  The embedding keeps the
    shape of the source:

    - types and symbols are objects with identity: they are named by
      numbers ([tid], [sid]) and read through a [World], the view of the
      program that the TypeScript checker gives to the translator;
    - flags are integers combined with [Z.land], as in the source;
    - the mutable fields of the translator ([seenAnonymousTypes],
      [symbolsToAliasedNames]) and the warnings handed to [warn] are an
      explicit state, threaded through a small state-and-error monad;
    - a thrown error is a result of its own, and the recursion of
      [translate] is bounded by a fuel that the theorems quantify over. *)

From Stdlib Require Import ZArith Ascii String List Bool Lia.
From stdpp Require Import base decidable option list gmap strings.

Set Warnings "-register-all,-clear-no-such-hyp".

Local Open Scope string_scope.
Local Open Scope Z_scope.

(** ** Flags of the TypeScript compiler API (typescript.d.ts, 3.x) *)

Module TypeFlags.
Definition Any : Z := 1.
Definition Unknown : Z := 2.
Definition String : Z := 4.
Definition Number : Z := 8.
Definition Boolean : Z := 16.
Definition Enum : Z := 32.
Definition BigInt : Z := 64.
Definition StringLiteral : Z := 128.
Definition NumberLiteral : Z := 256.
Definition BooleanLiteral : Z := 512.
Definition EnumLiteral : Z := 1024.
Definition BigIntLiteral : Z := 2048.
Definition ESSymbol : Z := 4096.
Definition UniqueESSymbol : Z := 8192.
Definition Void : Z := 16384.
Definition Undefined : Z := 32768.
Definition Null : Z := 65536.
Definition Never : Z := 131072.
Definition TypeParameter : Z := 262144.
Definition Object : Z := 524288.
Definition Union : Z := 1048576.
Definition Intersection : Z := 2097152.
Definition Index : Z := 4194304.
Definition IndexedAccess : Z := 8388608.
Definition Conditional : Z := 16777216.
Definition Substitution : Z := 33554432.
Definition NonPrimitive : Z := 67108864.
End TypeFlags.

Module ObjectFlags.
Definition Class : Z := 1.
Definition Interface : Z := 2.
Definition Reference : Z := 4.
Definition Tuple : Z := 8.
Definition Anonymous : Z := 16.
Definition Mapped : Z := 32.
Definition Instantiated : Z := 64.
Definition ObjectLiteral : Z := 128.
End ObjectFlags.

Module SymbolFlags.
Definition Function : Z := 16.
Definition Method : Z := 8192.
Definition TypeParameter : Z := 262144.
Definition Alias : Z := 2097152.
(* Variable | Property | EnumMember | ObjectLiteral | Function | Class |
   Enum | ValueModule | Method | GetAccessor | SetAccessor | Assignment *)
Definition Value : Z := 67220415.
End SymbolFlags.

Module ModifierFlags.
Definition Export : Z := 1.
Definition Ambient : Z := 2.
End ModifierFlags.

(** [x & flag] used as a condition. *)
Definition hasFlag (x flag : Z) : bool := negb (Z.land x flag =? 0).

(** ** The data the translator reads *)

Definition tid := nat.   (* identity of a ts.Type *)
Definition sid := nat.   (* identity of a ts.Symbol *)

Inductive SyntaxKind :=
| SourceFileKind
| ModuleDeclarationKind
| JSDocSignatureKind
| OtherKind (k : nat).

#[global] Instance SyntaxKind_eq_dec : EqDecision SyntaxKind.
Proof. solve_decision. Defined.

Record SourceFile := {
  fileName : string;
  isDeclarationFile : bool;
  isExternalModule : bool;     (* ts.isExternalModule(sf) *)
}.

#[global] Instance SourceFile_eq_dec : EqDecision SourceFile.
Proof. solve_decision. Defined.

(** The name of a module declaration: [declare module 'x'] has a string
    literal, [namespace x] an identifier. *)
Inductive ModuleName :=
| StringLiteralName (text : string)
| IdentifierName (text : string).

(** A declaration (or any node above it): what the translator reads of a
    [ts.Node], and its parent chain. *)
Inductive Node := mkNode {
  kind : SyntaxKind;
  combinedModifierFlags : Z;        (* ts.getCombinedModifierFlags(node) *)
  moduleName : option ModuleName;   (* node.name, for a module declaration *)
  sourceFile : SourceFile;          (* node.getSourceFile() *)
  originalSourceFile : SourceFile;  (* ts.getOriginalNode(node).getSourceFile() *)
  parent : option Node;
}.

Record IdentifierWithSymbol := {
  idText : string;    (* what getIdentifierText reads *)
  idSymbol : sid;     (* the internal [symbol] field *)
}.

Inductive EntityName :=
| Identifier (i : IdentifierWithSymbol)
| QualifiedName (nameLeft : EntityName) (nameRight : IdentifierWithSymbol).

Record ParameterDeclaration := {
  paramNameText : string;       (* name.getText() *)
  paramTypeNode : option tid;   (* typeChecker.getTypeAtLocation(decl.type) *)
  questionToken : bool;
  dotDotDotToken : bool;
}.

Record TypeParameterDeclaration := {
  tpSymbol : option sid;        (* typeChecker.getSymbolAtLocation(tpd.name) *)
}.

Record SignatureDeclaration := {
  declKind : SyntaxKind;
  typeParameters : option (list TypeParameterDeclaration);
  declParameters : option (list ParameterDeclaration);
}.

Record Signature := {
  declaration : option SignatureDeclaration;
  parameters : list sid;
  returnType : tid;             (* getReturnType / getReturnTypeOfSignature *)
}.

Record Symbol := {
  symFlags : Z;
  symName : string;
  declarations : option (list Node);
  members : option (list (string * sid));   (* an ES6 map, in key order *)
  symParent : option sid;
}.

Record TsType := {
  flags : Z;
  objectFlags : Z;
  symbol : option sid;
  target : tid;                               (* of a TypeReference *)
  typeArguments : option (list tid);          (* of a TypeReference *)
  types : list tid;                           (* of a UnionType *)
  constructSignatures : list Signature;       (* getConstructSignatures() *)
}.

Inductive IndexKind := IndexString | IndexNumber.

(** The program as the translator sees it: the objects behind the
    identities, the queries of the type checker, and the functions that the
    translator imports from modules outside this file. *)
Record World := {
  typeOf : tid -> TsType;
  symbolOf : sid -> Symbol;
  (* ts.TypeChecker *)
  symbolToEntityName : sid -> option EntityName;
  getAliasedSymbol : sid -> sid;
  getBaseTypeOfLiteralType : tid -> tid;
  getSignaturesOfType : tid -> list Signature;       (* SignatureKind.Call *)
  getTypeOfSymbolAtLocation : sid -> tid;
  getIndexTypeOfType : tid -> IndexKind -> option tid;
  (* constructor arguments *)
  contextFile : SourceFile;    (* ts.getOriginalNode(this.node).getSourceFile() *)
  ensureSymbolDeclared : sid -> gmap sid string -> gmap sid string;
  (* path.normalize *)
  normalize : string -> string;
  (* annotator_host.moduleNameAsIdentifier(host, fileName) *)
  moduleNameAsIdentifier : string -> string;
  (* transformer_util *)
  getIdentifierText : IdentifierWithSymbol -> string;
  isAmbient : Node -> bool;
  hasExportModifier : Node -> bool;     (* hasModifierFlag(d, Export) *)
}.

(** ** Strings *)

(** [a === b] on strings, and [s.length === 0]. *)
Definition isEmptyString (s : string) : bool := String.eqb s "".

(** A string used as a condition, and [x || d] on a string or undefined. *)
Definition truthy (o : option string) : option string :=
  match o with
  | Some s => if isEmptyString s then None else Some s
  | None => None
  end.

Fixpoint dropString (n : nat) (s : string) : string :=
  match n, s with
  | O, _ => s
  | S n', String _ r => dropString n' r
  | S _, EmptyString => EmptyString
  end.

Definition isLetterOrUnderscore (c : ascii) : bool :=
  let n := nat_of_ascii c in
  ((65 <=? n) && (n <=? 90) || (97 <=? n) && (n <=? 122) || (n =? 95))%nat.

Definition isWordChar (c : ascii) : bool :=
  let n := nat_of_ascii c in
  (isLetterOrUnderscore c || (48 <=? n) && (n <=? 57))%nat.

Fixpoint allChars (p : ascii -> bool) (s : string) : bool :=
  match s with
  | EmptyString => true
  | String c r => p c && allChars p r
  end.

(** [/^[a-zA-Z_][a-zA-Z0-9_]*$/.test(name)] *)
Definition isValidClosurePropertyName (name : string) : bool :=
  match name with
  | EmptyString => false
  | String c r => isLetterOrUnderscore c && allChars isWordChar r
  end.

(** What may follow [lib.] in [/\blib\.(?:[^/]+\.)?d\.ts$/]: [d.ts], or
    a non-empty run without [/] and then [.d.ts]. *)
Definition libTail (r : string) : bool :=
  String.eqb r "d.ts" ||
  (let n := String.length r in
   (5 <? n)%nat &&
   String.eqb (substring (n - 5) 5 r) ".d.ts" &&
   allChars (fun c => negb (Ascii.eqb c "/"%char)) (substring 0 (n - 5) r)).

Fixpoint scanLib (afterWordChar : bool) (s : string) : bool :=
  (negb afterWordChar && String.prefix "lib." s && libTail (dropString 4 s)) ||
  match s with
  | EmptyString => false
  | String c r => scanLib (isWordChar c) r
  end.

Definition isBuiltinLibDTS (fileName : string) : bool := scanLib false fileName.

(** The namespace prefix of Clutz: U+0CA0 [_] U+0CA0 [.clutz.] in UTF-8. *)
Definition lookOfDisapproval : string :=
  String "224"%char (String "178"%char (String "160"%char EmptyString)).
Definition clutzNamespace : string :=
  lookOfDisapproval +:+ "_" +:+ lookOfDisapproval +:+ ".clutz.".

Definition stripClutzNamespace (name : string) : string :=
  if String.prefix clutzNamespace name
  then dropString (String.length clutzNamespace) name
  else name.

(** [parts.join(sep)] *)
Definition join (sep : string) (parts : list string) : string :=
  String.concat sep parts.

(** [parts.indexOf(el)]: the first index that holds [el]. *)
Fixpoint indexOf (el : string) (parts : list string) : option nat :=
  match parts with
  | [] => None
  | x :: rest => if String.eqb x el then Some O else S <$> indexOf el rest
  end.

Fixpoint filterWithIndex (p : string -> nat -> bool) (idx : nat)
  (parts : list string) : list string :=
  match parts with
  | [] => []
  | el :: rest =>
      if p el idx then el :: filterWithIndex p (S idx) rest
      else filterWithIndex p (S idx) rest
  end.

(** [parts.filter((el, idx) => parts.indexOf(el) === idx)] *)
Definition removeDuplicates (parts : list string) : list string :=
  filterWithIndex (fun el idx => bool_decide (indexOf el parts = Some idx))
    O parts.

(** ** Declarations *)

(** A test on a node and on every node above it. *)
Fixpoint anyUp (p : Node -> bool) (n : Node) : bool :=
  p n ||
  match n with
  | mkNode _ _ _ _ _ (Some q) => anyUp p q
  | mkNode _ _ _ _ _ None => false
  end.

Definition isAmbientModuleDeclaration (n : Node) : option string :=
  match kind n, moduleName n with
  | ModuleDeclarationKind, Some (StringLiteralName text) => Some text
  | _, _ => None
  end.

(** The [while (parent)] loop of getContainingAmbientModuleDeclaration,
    from [n] upwards; the result is the declaration's [name.text]. *)
Fixpoint firstAmbientModuleFrom (n : Node) : option string :=
  match isAmbientModuleDeclaration n with
  | Some text => Some text
  | None =>
      match n with
      | mkNode _ _ _ _ _ (Some q) => firstAmbientModuleFrom q
      | mkNode _ _ _ _ _ None => None
      end
  end.

Fixpoint getContainingAmbientModuleDeclaration (declarations : list Node)
  : option string :=
  match declarations with
  | [] => None
  | declaration :: rest =>
      match from_option firstAmbientModuleFrom None (parent declaration) with
      | Some text => Some text
      | None => getContainingAmbientModuleDeclaration rest
      end
  end.

Definition isTopLevelExternal (declarations : list Node) : bool :=
  existsb (fun declaration =>
    match parent declaration with
    | None => false
    | Some p =>
        bool_decide (kind p = SourceFileKind) && isExternalModule (sourceFile p)
    end) declarations.

Definition isClosureProvidedType (s : Symbol) : bool :=
  match declarations s with
  | None => false
  | Some ds => existsb (fun n => isBuiltinLibDTS (fileName (sourceFile n))) ds
  end.

(** ** The state of a translator, and its results *)

(** The messages handed to [warn], one constructor per call site's text. *)
Inductive Warning :=
| WEnumTypeWithoutSymbol
| WNeverType
| WTypeParameterWithoutSymbol
| WConditionalOrSubstitution
| WUnhandledTypeFlags (t : tid)
| WEnumLiteralTypeWithoutSymbol
| WClassHasNoSymbol
| WInterfaceHasNoSymbol
| WTypeSymbolConflict (name : string)
| WAnonymousTypeHasNoSymbol
| WMultipleCallSignatures
| WUnhandledType (t : tid)
| WConstructorWithoutDeclaration
| WJSDocConstructorSignature
| WInexpressiblePropertyName (field : string)
| WUnknownIndexKeyType
| WUnhandledAnonymousType
| WSignatureWithoutDeclaration
| WSignatureWithJSDocDeclaration
| WThisTypeWithoutType
| WVarArgsNotAnObjectType
| WVarArgsNotAnArrayReference
| WTypeParameterWithNoSymbol.

(** What a call can throw: the two [throw new Error] of the source, and the
    TypeError of JavaScript when a property of [undefined] is read. *)
Inductive Error :=
| ReferenceLoop (t : tid)                  (* reference loop in ... *)
| UnknownTypeFlags (t : tid)               (* unknown type flags ... *)
| MissingParameterDeclaration (i : nat)    (* paramDecls[i] is undefined *)
| MissingTypeArgument.                     (* typeArguments[0] is undefined *)

Inductive Res (A : Type) :=
| Ok (a : A)
| Throw (e : Error)
| OutOfFuel.
Arguments Ok {A} a.
Arguments Throw {A} e.
Arguments OutOfFuel {A}.

Record State := mkState {
  seenAnonymousTypes : gset tid;
  symbolsToAliasedNames : gmap sid string;
  warnings : list Warning;
}.

Definition M (A : Type) : Type := State -> Res A * State.

Definition ret {A} (a : A) : M A := fun st => (Ok a, st).
Definition throw {A} (e : Error) : M A := fun st => (Throw e, st).
Definition bind {A B} (m : M A) (k : A -> M B) : M B := fun st =>
  match m st with
  | (Ok a, st') => k a st'
  | (Throw e, st') => (Throw e, st')
  | (OutOfFuel, st') => (OutOfFuel, st')
  end.

Declare Scope tr_scope.
Delimit Scope tr_scope with tr.
Notation "'let!' x ':=' m 'in' k" := (bind m (fun x => k))
  (at level 10, x name, m at level 100, k at level 200) : tr_scope.
Local Open Scope tr_scope.

Definition warn (w : Warning) : M unit := fun st =>
  (Ok tt, mkState (seenAnonymousTypes st) (symbolsToAliasedNames st)
                  (warnings st ++ [w])).

Definition addSeenAnonymousType (t : tid) : M unit := fun st =>
  (Ok tt, mkState ({[t]} ∪ seenAnonymousTypes st) (symbolsToAliasedNames st)
                  (warnings st)).

Definition setAlias (s : sid) (a : string) : M unit := fun st =>
  (Ok tt, mkState (seenAnonymousTypes st) (<[s := a]> (symbolsToAliasedNames st))
                  (warnings st)).

Definition updateAliases (f : gmap sid string -> gmap sid string) : M unit :=
  fun st =>
  (Ok tt, mkState (seenAnonymousTypes st) (f (symbolsToAliasedNames st))
                  (warnings st)).

Definition getAliases : M (gmap sid string) := fun st =>
  (Ok (symbolsToAliasedNames st), st).

Definition hasSeen (t : tid) : M bool := fun st =>
  (Ok (bool_decide (t ∈ seenAnonymousTypes st)), st).

(** [xs.map(x => f(x))] for an [f] with effects. *)
Fixpoint mapM {A B} (f : A -> M B) (xs : list A) : M (list B) :=
  match xs with
  | [] => ret []
  | x :: rest => let! y := f x in let! ys := mapM f rest in ret (y :: ys)
  end.

(** ** isBlacklisted *)

Definition isBlacklisted (W : World) (pathBlackList : option (gset string))
  (s : sid) : bool :=
  match pathBlackList with
  | None => false
  | Some blackList =>
      match declarations (symbolOf W s) with
      | None => false
      | Some ds =>
          forallb (fun n =>
            let fileName := normalize W (fileName (sourceFile n)) in
            bool_decide (fileName ∈ blackList)) ds
      end
  end.

(** ** The class TypeTranslator *)

Section TypeTranslator.

(** The program, and the fields of the instance that never change. *)
Variable W : World.
Variable isForExterns : bool.
(** The constructor argument; the field holds its paths normalized. *)
Variable pathBlackListArg : option (gset string).

Definition pathBlackList : option (gset string) :=
  set_map (normalize W) <$> pathBlackListArg.

Definition isBlackListed (s : sid) : bool := isBlacklisted W pathBlackList s.

Definition isDeclaredInSameFile (d : Node) : bool :=
  bool_decide (contextFile W = originalSourceFile d).

Definition maybeGetMangledNamePrefix (s : sid) : string :=
  match declarations (symbolOf W s) with
  | None => ""
  | Some ds =>
      let ambientModuleDeclaration :=
        if isTopLevelExternal ds then None
        else getContainingAmbientModuleDeclaration ds in
      if negb (isTopLevelExternal ds) &&
         negb (bool_decide (is_Some ambientModuleDeclaration)) then ""
      else if negb isForExterns &&
              negb (forallb (fun d => isDeclaredInSameFile d && isAmbient W d &&
                                      hasExportModifier W d) ds) then ""
      else
        let fileName :=
          match ambientModuleDeclaration with
          | Some text => text
          | None =>
              match ds with
              | d :: _ => fileName (originalSourceFile d)
              | [] => ""    (* not reached: see declarations_0_defined *)
              end
          end in
        moduleNameAsIdentifier W fileName +:+ "."
  end.

(** [identifier.symbol], replaced by the symbol it aliases when it is an
    import alias. *)
Definition identifierSymbol (identifier : IdentifierWithSymbol) : sid :=
  let symbol := idSymbol identifier in
  if hasFlag (symFlags (symbolOf W symbol)) SymbolFlags.Alias
  then getAliasedSymbol W symbol else symbol.

(** The body of writeEntityWithSymbols below the choice of [identifier]:
    [str] is the text written so far, the result the text afterwards. *)
Definition writeIdentifier (aliases : gmap sid string)
  (identifier : IdentifierWithSymbol) (str : string) : string :=
  let symbol := identifierSymbol identifier in
  match truthy (aliases !! symbol) with
  | Some alias => alias
  | None =>
      let text := getIdentifierText W identifier in
      let text :=
        if (String.length str =? 0)%nat
        then maybeGetMangledNamePrefix symbol +:+ text else text in
      str +:+ text
  end.

Fixpoint writeEntityWithSymbols (aliases : gmap sid string)
  (name : EntityName) (str : string) : string :=
  match name with
  | QualifiedName nameLeft nameRight =>
      let str := writeEntityWithSymbols aliases nameLeft str in
      let str := str +:+ "." in
      writeIdentifier aliases nameRight str
  | Identifier identifier => writeIdentifier aliases identifier str
  end.

Definition symbolToString (sym : sid) : M (option string) :=
  let! _ :=
    if negb isForExterns &&
       (Z.land (symFlags (symbolOf W sym)) SymbolFlags.TypeParameter =? 0)
    then updateAliases (ensureSymbolDeclared W sym) else ret tt in
  match symbolToEntityName W sym with
  | None => ret None
  | Some name =>
      let! aliases := getAliases in
      ret (Some (stripClutzNamespace (writeEntityWithSymbols aliases name "")))
  end.

Fixpoint blacklistTypeParameterDecls (decls : list TypeParameterDeclaration)
  : M unit :=
  match decls with
  | [] => ret tt
  | tpd :: rest =>
      let! _ :=
        match tpSymbol tpd with
        | None => warn WTypeParameterWithNoSymbol
        | Some sym => setAlias sym "?"
        end in
      blacklistTypeParameterDecls rest
  end.

Definition blacklistTypeParameters
  (decls : option (list TypeParameterDeclaration)) : M unit :=
  match decls with
  | None => ret tt
  | Some ds => blacklistTypeParameterDecls ds
  end.

(** The three booleans that translate computes from the declarations of
    the type's symbol. *)
Definition symbolDeclarations (ty : TsType) : list Node :=
  match symbol ty with
  | None => []
  | Some s => default [] (declarations (symbolOf W s))
  end.

Definition declIsAmbient (ty : TsType) : bool :=
  existsb (fun decl =>
    isDeclarationFile (sourceFile decl) ||
    anyUp (fun current =>
      hasFlag (combinedModifierFlags current) ModifierFlags.Ambient) decl)
    (symbolDeclarations ty).

Definition declIsInNamespace (ty : TsType) : bool :=
  existsb (anyUp (fun current =>
    bool_decide (kind current = ModuleDeclarationKind)))
    (symbolDeclarations ty).

Definition declIsModule (ty : TsType) : bool :=
  existsb (fun decl => isExternalModule (sourceFile decl))
    (symbolDeclarations ty).

Definition translateEnumLiteral (t : tid) : M string :=
  let enumLiteralBaseType := getBaseTypeOfLiteralType W t in
  match symbol (typeOf W enumLiteralBaseType) with
  | None => let! _ := warn WEnumLiteralTypeWithoutSymbol in ret "?"
  | Some s =>
      let continue (s : sid) : M string :=
        let! name := symbolToString s in
        match truthy name with
        | None => ret "?"
        | Some name => ret ("!" +:+ name)
        end in
      if bool_decide (enumLiteralBaseType = t) then
        match symParent (symbolOf W s) with
        | None => ret "?"
        | Some parent => continue parent
        end
      else continue s
  end.

(** *** The functions that call translate

    They take the recursive call as [rec]; translate ties the knot. *)
Section Recursive.
Variable rec : tid -> M string.

Definition translateUnion (t : tid) : M string :=
  let! parts := mapM rec (types (typeOf W t)) in
  let parts := removeDuplicates parts in
  match parts with
  | [part] => ret part
  | _ => ret ("(" +:+ join "|" parts +:+ ")")
  end.

(** One turn of the loop of convertParams: what is pushed, if anything. *)
Definition convertParam (param : sid) (paramDecl : ParameterDeclaration)
  : M (option string) :=
  let optional := questionToken paramDecl in
  let varArgs := dotDotDotToken paramDecl in
  let paramType := getTypeOfSymbolAtLocation W param in
  let finish (r : M string) : M (option string) :=
    let! typeStr := r in
    let typeStr := if varArgs then "..." +:+ typeStr else typeStr in
    let typeStr := if optional then typeStr +:+ "=" else typeStr in
    ret (Some typeStr) in
  if varArgs then
    if Z.land (flags (typeOf W paramType)) TypeFlags.Object =? 0 then
      let! _ := warn WVarArgsNotAnObjectType in ret (Some "!Array<?>")
    else if Z.land (objectFlags (typeOf W paramType)) ObjectFlags.Reference =? 0
    then
      let! _ := warn WVarArgsNotAnArrayReference in ret (Some "!Array<?>")
    else
      match typeArguments (typeOf W paramType) with
      | None => ret None
      | Some args =>
          match args with
          | arg :: _ => finish (rec arg)
          | [] => throw MissingTypeArgument   (* translate(undefined) *)
          end
      end
  else finish (rec paramType).

Fixpoint convertParamsFrom (paramDecls : list ParameterDeclaration)
  (i : nat) (params : list sid) (paramTypes : list string)
  : M (list string) :=
  match params with
  | [] => ret paramTypes
  | param :: rest =>
      match paramDecls !! i with
      | None => throw (MissingParameterDeclaration i)
      | Some paramDecl =>
          let! pushed := convertParam param paramDecl in
          convertParamsFrom paramDecls (S i) rest
            (paramTypes ++ from_option (fun s => [s]) [] pushed)
      end
  end.

Definition convertParams (sig : Signature)
  (paramDecls : list ParameterDeclaration) : M (list string) :=
  convertParamsFrom paramDecls 0 (parameters sig) [].

Definition signatureToClosure (sig : Signature) : M string :=
  match declaration sig with
  | None => let! _ := warn WSignatureWithoutDeclaration in ret "Function"
  | Some decl =>
      if bool_decide (declKind decl = JSDocSignatureKind) then
        let! _ := warn WSignatureWithJSDocDeclaration in ret "Function"
      else
        let! _ := blacklistTypeParameters (typeParameters decl) in
        let typeStr := "function(" in
        let paramDecls := default [] (declParameters decl) in
        let! afterThis :=
          match paramDecls with
          | maybeThisParam :: others =>
              if String.eqb (paramNameText maybeThisParam) "this" then
                let! typeStr :=
                  match paramTypeNode maybeThisParam with
                  | Some thisType =>
                      let! s := rec thisType in
                      let typeStr := typeStr +:+ "this: (" +:+ s +:+ ")" in
                      ret (if (1 <? length paramDecls)%nat
                           then typeStr +:+ ", " else typeStr)
                  | None =>
                      let! _ := warn WThisTypeWithoutType in ret typeStr
                  end in
                ret (typeStr, others)
              else ret (typeStr, paramDecls)
          | [] => ret (typeStr, paramDecls)
          end in
        let typeStr := fst afterThis in
        let paramDecls := snd afterThis in
        let! params := convertParams sig paramDecls in
        let typeStr := typeStr +:+ join ", " params +:+ ")" in
        let! retType := rec (returnType sig) in
        ret (if isEmptyString retType then typeStr
             else typeStr +:+ ": " +:+ retType)
  end.

(** The [for (const field of members.keys())] loop of
    translateAnonymousType, over the entries of the map. *)
Fixpoint gatherFields (entries : list (string * sid))
  (callable indexable : bool) (fields : list string)
  : M (bool * bool * list string) :=
  match entries with
  | [] => ret (callable, indexable, fields)
  | (field, member) :: rest =>
      if String.eqb field "__call" then
        gatherFields rest true indexable fields
      else if String.eqb field "__index" then
        gatherFields rest callable true fields
      else if negb (isValidClosurePropertyName field) then
        let! _ := warn (WInexpressiblePropertyName field) in
        gatherFields rest callable indexable fields
      else
        let! memberType := rec (getTypeOfSymbolAtLocation W member) in
        gatherFields rest callable indexable
          (fields ++ [field +:+ ": " +:+ memberType])
  end.

Definition translateAnonymousType (t : tid) : M string :=
  let! _ := addSeenAnonymousType t in
  let ty := typeOf W t in
  match symbol ty ≫= (fun s => members (symbolOf W s)) with
  | None => let! _ := warn WAnonymousTypeHasNoSymbol in ret "?"
  | Some entries =>
      match constructSignatures ty with
      | ctor :: _ =>
          match declaration ctor with
          | None =>
              let! _ := warn WConstructorWithoutDeclaration in ret "?"
          | Some decl =>
              if bool_decide (declKind decl = JSDocSignatureKind) then
                let! _ := warn WJSDocConstructorSignature in ret "?"
              else
                let! _ := blacklistTypeParameters (typeParameters decl) in
                let! params :=
                  convertParams ctor (default [] (declParameters decl)) in
                let paramsStr :=
                  match params with
                  | [] => ""
                  | _ => ", " +:+ join ", " params
                  end in
                let! constructedType := rec (returnType ctor) in
                ret ("function(new: (" +:+ constructedType +:+ ")" +:+
                     paramsStr +:+ "): ?")
          end
      | [] =>
          let! gathered := gatherFields entries false false [] in
          let callable := fst (fst gathered) in
          let indexable := snd (fst gathered) in
          let fields := snd gathered in
          let rest : M string :=
            if negb callable && negb indexable then
              ret ("{" +:+ join ", " fields +:+ "}")
            else
              let! _ := warn WUnhandledAnonymousType in ret "?" in
          match fields with
          | [] =>
              if callable && negb indexable then
                match getSignaturesOfType W t with
                | [sig] => signatureToClosure sig
                | _ => rest
                end
              else if indexable && negb callable then
                let byString := getIndexTypeOfType W t IndexString in
                let keyType :=
                  if bool_decide (is_Some byString) then "string"
                  else "number" in
                let valType :=
                  match byString with
                  | Some v => Some v
                  | None => getIndexTypeOfType W t IndexNumber
                  end in
                match valType with
                | None =>
                    let! _ := warn WUnknownIndexKeyType in
                    ret "!Object<?,?>"
                | Some v =>
                    let! s := rec v in
                    ret ("!Object<" +:+ keyType +:+ "," +:+ s +:+ ">")
                end
              else if negb callable && negb indexable then ret "*"
              else rest
          | _ :: _ => rest
          end
      end
  end.

Definition translateObject (t : tid) : M string :=
  let ty := typeOf W t in
  if from_option isBlackListed false (symbol ty) then ret "?"
  else if hasFlag (objectFlags ty) ObjectFlags.Class then
    match symbol ty with
    | None => let! _ := warn WClassHasNoSymbol in ret "?"
    | Some s =>
        let! name := symbolToString s in
        match truthy name with
        | None => ret "?"
        | Some name => ret ("!" +:+ name)
        end
    end
  else if hasFlag (objectFlags ty) ObjectFlags.Interface then
    match symbol ty with
    | None => let! _ := warn WInterfaceHasNoSymbol in ret "?"
    | Some s =>
        if hasFlag (symFlags (symbolOf W s)) SymbolFlags.Value &&
           negb (isClosureProvidedType (symbolOf W s)) then
          let! _ := warn (WTypeSymbolConflict (symName (symbolOf W s))) in
          ret "?"
        else
          let! name := symbolToString s in
          ret ("!" +:+ default "undefined" name)
    end
  else if hasFlag (objectFlags ty) ObjectFlags.Reference then
    if hasFlag (objectFlags (typeOf W (target ty))) ObjectFlags.Tuple then
      ret "!Array<?>"
    else if bool_decide (target ty = t) then throw (ReferenceLoop t)
    else
      let! typeStr := rec (target ty) in
      if String.eqb typeStr "?" then ret "?"
      else
        match typeArguments ty with
        | Some args =>
            let! params := mapM rec args in
            ret (typeStr +:+ "<" +:+ join ", " params +:+ ">")
        | None => ret typeStr
        end
  else if hasFlag (objectFlags ty) ObjectFlags.Anonymous then
    match symbol ty with
    | None => let! _ := warn WAnonymousTypeHasNoSymbol in ret "?"
    | Some s =>
        if hasFlag (symFlags (symbolOf W s)) SymbolFlags.Function ||
           hasFlag (symFlags (symbolOf W s)) SymbolFlags.Method then
          match getSignaturesOfType W t with
          | [sig] => signatureToClosure sig
          | _ => let! _ := warn WMultipleCallSignatures in ret "?"
          end
        else translateAnonymousType t
    end
  else
    let! _ := warn (WUnhandledType t) in ret "?".

Definition lastFlag : Z := TypeFlags.Substitution.
Definition mask : Z := Z.shiftl lastFlag 1 - 1.

(** The body of translate. *)
Definition translateWith (t : tid) : M string :=
  let ty := typeOf W t in
  if flags ty =? TypeFlags.NonPrimitive then ret "!Object"
  else
  let! seen := hasSeen t in
  if seen then ret "?"
  else if declIsInNamespace ty && negb (declIsAmbient ty) then ret "?"
  else if isForExterns && declIsModule ty && negb (declIsAmbient ty)
  then ret "?"
  else
  let k := Z.land (flags ty) mask in
  if k =? TypeFlags.Any then ret "?"
  else if k =? TypeFlags.Unknown then ret "*"
  else if (k =? TypeFlags.String) || (k =? TypeFlags.StringLiteral)
  then ret "string"
  else if (k =? TypeFlags.Number) || (k =? TypeFlags.NumberLiteral)
  then ret "number"
  else if (k =? TypeFlags.Boolean) || (k =? TypeFlags.BooleanLiteral)
  then ret "boolean"
  else if k =? TypeFlags.Enum then
    match symbol ty with
    | None => let! _ := warn WEnumTypeWithoutSymbol in ret "?"
    | Some s =>
        let! name := symbolToString s in
        ret (default "?" (truthy name))
    end
  else if (k =? TypeFlags.ESSymbol) || (k =? TypeFlags.UniqueESSymbol)
  then ret "symbol"
  else if k =? TypeFlags.Void then ret "void"
  else if k =? TypeFlags.Undefined then ret "undefined"
  else if k =? TypeFlags.BigInt then ret "bigintPlaceholder"
  else if k =? TypeFlags.Null then ret "null"
  else if k =? TypeFlags.Never then
    let! _ := warn WNeverType in ret "?"
  else if k =? TypeFlags.TypeParameter then
    match symbol ty with
    | None => let! _ := warn WTypeParameterWithoutSymbol in ret "?"
    | Some s =>
        let prefix :=
          if Z.land (symFlags (symbolOf W s)) SymbolFlags.TypeParameter =? 0
          then "!" else "" in
        let! name := symbolToString s in
        match truthy name with
        | None => ret "?"
        | Some name => ret (prefix +:+ name)
        end
    end
  else if k =? TypeFlags.Object then translateObject t
  else if k =? TypeFlags.Union then translateUnion t
  else if (k =? TypeFlags.Conditional) || (k =? TypeFlags.Substitution)
  then let! _ := warn WConditionalOrSubstitution in ret "?"
  else if (k =? TypeFlags.Intersection) || (k =? TypeFlags.Index) ||
          (k =? TypeFlags.IndexedAccess)
  then let! _ := warn (WUnhandledTypeFlags t) in ret "?"
  else if hasFlag (flags ty) TypeFlags.Union then translateUnion t
  else if hasFlag (flags ty) TypeFlags.EnumLiteral
  then translateEnumLiteral t
  else throw (UnknownTypeFlags t).
End Recursive.

(** translate: the recursion runs [fuel] calls deep. *)
Fixpoint translate (fuel : nat) (t : tid) : M string :=
  match fuel with
  | O => fun st => (OutOfFuel, st)
  | S fuel' => translateWith (translate fuel') t
  end.
End TypeTranslator.

(** ** Notions used to state the properties *)

(** The kind bits that the switch of translate looks at. *)
Definition maskedKind (W : World) (t : tid) : Z :=
  Z.land (flags (typeOf W t)) mask.

(** A node and the nodes above it, innermost first. *)
Fixpoint ancestorsOrSelf (n : Node) : list Node :=
  n :: match n with
       | mkNode _ _ _ _ _ (Some q) => ancestorsOrSelf q
       | mkNode _ _ _ _ _ None => []
       end.

(** The declarations of a symbol, none when the list is absent. *)
Definition declarationsOf (W : World) (s : sid) : list Node :=
  default [] (declarations (symbolOf W s)).

(** The segments of an entity name: the leftmost identifier, and the
    identifiers to its right in order. *)
Fixpoint leftmostIdentifier (name : EntityName) : IdentifierWithSymbol :=
  match name with
  | Identifier i => i
  | QualifiedName l _ => leftmostIdentifier l
  end.

Fixpoint laterIdentifiers (name : EntityName) : list IdentifierWithSymbol :=
  match name with
  | Identifier _ => []
  | QualifiedName l r => laterIdentifiers l ++ [r]
  end.

Definition lastIdentifier (name : EntityName) : IdentifierWithSymbol :=
  match name with
  | Identifier i => i
  | QualifiedName _ r => r
  end.

(** Writing a segment with no mangled prefix at all: the alias of its
    symbol if it has one, else its text after what is written so far. *)
Definition writeUnprefixed (W : World) (aliases : gmap sid string)
  (identifier : IdentifierWithSymbol) (str : string) : string :=
  match truthy (aliases !! identifierSymbol W identifier) with
  | Some alias => alias
  | None => str +:+ getIdentifierText W identifier
  end.

(** Writing the leftmost segment: its alias, or its text behind the
    mangled prefix of its symbol. *)
Definition writeLeftmost (W : World) (isForExterns : bool)
  (aliases : gmap sid string) (identifier : IdentifierWithSymbol) : string :=
  match truthy (aliases !! identifierSymbol W identifier) with
  | Some alias => alias
  | None =>
      maybeGetMangledNamePrefix W isForExterns (identifierSymbol W identifier)
      +:+ getIdentifierText W identifier
  end.

(** The Alias Scope as symbolToString reads it: after the call of
    ensureSymbolDeclared, when that call is made. *)
Definition aliasesAtLookup (W : World) (isForExterns : bool) (sym : sid)
  (st : State) : gmap sid string :=
  if negb isForExterns &&
     (Z.land (symFlags (symbolOf W sym)) SymbolFlags.TypeParameter =? 0)
  then ensureSymbolDeclared W sym (symbolsToAliasedNames st)
  else symbolsToAliasedNames st.

(** Deduplication as the specification words it: the first occurrence of
    every string stays, in order, and later equal strings go. *)
Fixpoint firstOccurrences (parts : list string) : list string :=
  match parts with
  | [] => []
  | el :: rest =>
      el :: filter (fun x => x ≠ el) (firstOccurrences rest)
  end.

(** The text of a union from its deduplicated member texts. *)
Definition unionText (parts : list string) : string :=
  match parts with
  | [part] => part
  | _ => "(" +:+ join "|" parts +:+ ")"
  end.

(** Every declaration of a symbol has its normalized source-file path in
    the blacklist. *)
Definition everyDeclarationBlacklisted (W : World)
  (pathBlackList : option (gset string)) (s : sid) : Prop :=
  ∀ d, d ∈ declarationsOf W s →
    ∃ blackList, pathBlackList = Some blackList ∧
      normalize W (fileName (sourceFile d)) ∈ blackList.

(** An entity name written with the mangled prefix on its leftmost segment
    only: every later segment goes through [writeUnprefixed]. *)
Definition writeSegments (W : World) (isForExterns : bool)
  (aliases : gmap sid string) (name : EntityName) : string :=
  fold_left (fun str identifier =>
               writeUnprefixed W aliases identifier (str +:+ "."))
    (laterIdentifiers name)
    (writeLeftmost W isForExterns aliases (leftmostIdentifier name)).

(** The exits of translate that answer [?] before the switch on the kind:
    the type is in the Recursion Set, or its symbol is declared in a
    namespace that is not ambient, or, for externs, in a module without
    being ambient. *)
Definition exitsEarly (W : World) (isForExterns : bool) (t : tid) (st : State)
  : bool :=
  bool_decide (t ∈ seenAnonymousTypes st) ||
  declIsInNamespace W (typeOf W t) && negb (declIsAmbient W (typeOf W t)) ||
  isForExterns && declIsModule W (typeOf W t) &&
    negb (declIsAmbient W (typeOf W t)).

(** Of the types that the checker makes, the one whose flags are exactly
    NonPrimitive is the intrinsic [object] type, and it has no symbol. *)
Definition objectTypeWithoutSymbol (W : World) : Prop :=
  ∀ t, flags (typeOf W t) = TypeFlags.NonPrimitive →
       symbol (typeOf W t) = None.

(** A declaration that is not ambient: not in a declaration file, and no
    Ambient modifier on it or on any node above it. *)
Definition notAmbient (d : Node) : Prop :=
  isDeclarationFile (sourceFile d) = false ∧
  ∀ a, a ∈ ancestorsOrSelf d →
    Z.land (combinedModifierFlags a) ModifierFlags.Ambient = 0.

(** *** Which calls of translate a call makes

    [handledAsAnonymous] is the test under which translateObject passes a
    type on to translateAnonymousType, the function that records the type
    in the Recursion Set.  For every other type, [unguardedCalls] lists the
    types on which its translation may call translate again. *)

Definition isFunctionOrMethod (W : World) (s : sid) : bool :=
  hasFlag (symFlags (symbolOf W s)) SymbolFlags.Function ||
  hasFlag (symFlags (symbolOf W s)) SymbolFlags.Method.

Definition handledAsAnonymous (W : World) (t : tid) : bool :=
  let ty := typeOf W t in
  (maskedKind W t =? TypeFlags.Object) &&
  negb (hasFlag (objectFlags ty) ObjectFlags.Class) &&
  negb (hasFlag (objectFlags ty) ObjectFlags.Interface) &&
  negb (hasFlag (objectFlags ty) ObjectFlags.Reference) &&
  hasFlag (objectFlags ty) ObjectFlags.Anonymous &&
  from_option (fun s => negb (isFunctionOrMethod W s)) false (symbol ty).

Definition parameterCalls (W : World) (param : sid) : list tid :=
  let paramType := getTypeOfSymbolAtLocation W param in
  paramType ::
  match typeArguments (typeOf W paramType) with
  | Some (arg :: _) => [arg]
  | _ => []
  end.

Definition signatureCalls (W : World) (sig : Signature) : list tid :=
  match declaration sig with
  | None => []
  | Some decl =>
      match default [] (declParameters decl) with
      | maybeThisParam :: _ =>
          from_option (fun thisType => [thisType]) [] (paramTypeNode maybeThisParam)
      | [] => []
      end ++
      flat_map (parameterCalls W) (parameters sig) ++ [returnType sig]
  end.

Definition unguardedCalls (W : World) (t : tid) : list tid :=
  let ty := typeOf W t in
  if hasFlag (flags ty) TypeFlags.Union then types ty
  else if maskedKind W t =? TypeFlags.Object then
    if hasFlag (objectFlags ty) ObjectFlags.Class ||
       hasFlag (objectFlags ty) ObjectFlags.Interface then []
    else if hasFlag (objectFlags ty) ObjectFlags.Reference then
      target ty :: default [] (typeArguments ty)
    else if hasFlag (objectFlags ty) ObjectFlags.Anonymous then
      match symbol ty with
      | Some s =>
          if isFunctionOrMethod W s then
            match getSignaturesOfType W t with
            | [sig] => signatureCalls W sig
            | _ => []
            end
          else []
      | None => []
      end
    else []
  else [].

(** The keys of a members table that name a field: neither of the two
    special keys, and a name that Closure accepts unquoted. *)
Definition isFieldKey (field : string) : bool :=
  negb (String.eqb field "__call") && negb (String.eqb field "__index") &&
  isValidClosurePropertyName field.

(** The types on which translateAnonymousType calls translate for a type:
    the parameter and return types of its first construct signature, or
    else the types of its fields, those of its only call signature, and
    its index type. *)
Definition anonymousCalls (W : World) (t : tid) : list tid :=
  let ty := typeOf W t in
  match symbol ty ≫= (fun s => members (symbolOf W s)) with
  | None => []
  | Some entries =>
      match constructSignatures ty with
      | ctor :: _ =>
          match declaration ctor with
          | None => []
          | Some decl =>
              if bool_decide (declKind decl = JSDocSignatureKind) then []
              else flat_map (parameterCalls W) (parameters ctor) ++
                   [returnType ctor]
          end
      | [] =>
          map (fun e => getTypeOfSymbolAtLocation W (snd e))
            (List.filter (fun e => isFieldKey (fst e)) entries) ++
          match getSignaturesOfType W t with
          | [sig] => signatureCalls W sig
          | _ => []
          end ++
          from_option (fun v => [v]) []
            match getIndexTypeOfType W t IndexString with
            | Some v => Some v
            | None => getIndexTypeOfType W t IndexNumber
            end
      end
  end.

(** The types on which one call of translate may call translate again,
    and the types that a translation reaches through such calls. *)
Definition callsOf (W : World) (t : tid) : list tid :=
  (unguardedCalls W t ++
   if handledAsAnonymous W t then anonymousCalls W t else [])%list.

Definition reaches (W : World) : tid → tid → Prop :=
  rtc (fun t u => u ∈ callsOf W t).

(** *** The two situations in which the source throws an Error *)

(** A reference-flagged object type whose target is the type itself. *)
Definition isReferenceLoop (W : World) (t : tid) : Prop :=
  maskedKind W t = TypeFlags.Object ∧
  hasFlag (objectFlags (typeOf W t)) ObjectFlags.Reference = true ∧
  target (typeOf W t) = t.

(** The kinds that have a case in the switch of translate. *)
Definition switchCases : list Z :=
  [ TypeFlags.Any; TypeFlags.Unknown; TypeFlags.String;
    TypeFlags.StringLiteral; TypeFlags.Number; TypeFlags.NumberLiteral;
    TypeFlags.Boolean; TypeFlags.BooleanLiteral; TypeFlags.Enum;
    TypeFlags.ESSymbol; TypeFlags.UniqueESSymbol; TypeFlags.Void;
    TypeFlags.Undefined; TypeFlags.BigInt; TypeFlags.Null; TypeFlags.Never;
    TypeFlags.TypeParameter; TypeFlags.Object; TypeFlags.Union;
    TypeFlags.Conditional; TypeFlags.Substitution; TypeFlags.Intersection;
    TypeFlags.Index; TypeFlags.IndexedAccess ].

(** Masked kind bits that no case matches, with neither the union bit nor
    the enum-literal bit set. *)
Definition hasUnmatchedFlags (W : World) (t : tid) : Prop :=
  (maskedKind W t ∉ switchCases) ∧
  hasFlag (flags (typeOf W t)) TypeFlags.Union = false ∧
  hasFlag (flags (typeOf W t)) TypeFlags.EnumLiteral = false.

(** *** A judgement on runs

    [sat E F I m]: from a state whose Recursion Set satisfies [I], the run
    of [m] ends in such a state again, throws only errors in [E], and runs
    out of fuel only if [F]. *)
Definition okResult (E : Error → Prop) (F : Prop) (I : gset tid → Prop)
  {A} (x : Res A * State) : Prop :=
  I (seenAnonymousTypes (snd x)) ∧
  match fst x with
  | Ok _ => True
  | Throw e => E e
  | OutOfFuel => F
  end.

Definition sat (E : Error → Prop) (F : Prop) (I : gset tid → Prop)
  {A} (m : M A) : Prop :=
  ∀ st, I (seenAnonymousTypes st) → okResult E F I (m st).

(** The Recursion Set holds object types only: what translateAnonymousType
    is called on. *)
Definition seenObjectsOnly (W : World) (seen : gset tid) : Prop :=
  ∀ t, t ∈ seen → maskedKind W t = TypeFlags.Object.

(** Every cycle of calls passes through translateAnonymousType: the calls
    of every other type go to types of smaller rank; the ranks are bounded
    by [R], and [A] holds the types that translateAnonymousType handles. *)
Record Guarded (W : World) (rank : tid → nat) (R : nat) (A : gset tid)
  : Prop := {
  guarded_calls : ∀ t u, u ∈ unguardedCalls W t → (rank u < rank t)%nat;
  guarded_bound : ∀ t, (rank t ≤ R)%nat;
  guarded_anonymous : ∀ t, handledAsAnonymous W t = true → t ∈ A;
}.

(** The state with one more type in the Recursion Set. *)
Definition withSeen (t : tid) (st : State) : State :=
  mkState ({[t]} ∪ seenAnonymousTypes st) (symbolsToAliasedNames st)
          (warnings st).

(** [sub] occurs in [s]. *)
Fixpoint containsString (sub s : string) : bool :=
  String.prefix sub s ||
  match s with
  | EmptyString => false
  | String _ r => containsString sub r
  end.

(** *** Texts without a parameterized unknown

    The first and the last character of a text; a text is plain when it
    holds neither a question mark nor an opening angle bracket, as the text
    of an identifier, a mangled module name, or a forward-declared alias. *)
Definition firstIs (c : ascii) (s : string) : bool :=
  match s with
  | EmptyString => false
  | String x _ => Ascii.eqb x c
  end.

Fixpoint lastIs (c : ascii) (s : string) : bool :=
  match s with
  | EmptyString => false
  | String x r =>
      match r with
      | EmptyString => Ascii.eqb x c
      | String _ _ => lastIs c r
      end
  end.

Definition plainText (s : string) : bool :=
  allChars (fun c => negb (Ascii.eqb c "?"%char) &&
                     negb (Ascii.eqb c "<"%char)) s.

Definition isTypeParameterSymbol (W : World) (sym : sid) : bool :=
  negb (Z.land (symFlags (symbolOf W sym)) SymbolFlags.TypeParameter =? 0).

(** The Alias Scope as the callers of the translator and the translator
    itself fill it: an alias is a plain name, or it is [?], put there by
    blacklistTypeParameters for the symbol of a type parameter. *)
Definition aliasesPlain (W : World) (aliases : gmap sid string) : Prop :=
  ∀ sym a, aliases !! sym = Some a →
    plainText a = true ∨ (a = "?" ∧ isTypeParameterSymbol W sym = true).

Definition identifiersOf (name : EntityName) : list IdentifierWithSymbol :=
  leftmostIdentifier name :: laterIdentifiers name.

(** A class or interface type. *)
Definition classOrInterface (W : World) (t : tid) : Prop :=
  maskedKind W t = TypeFlags.Object ∧
  hasFlag (objectFlags (typeOf W t)) ObjectFlags.Class ||
  hasFlag (objectFlags (typeOf W t)) ObjectFlags.Interface = true.

(** The type parameters that a signature declares have symbols with the
    TypeParameter flag. *)
Definition typeParametersFlagged (W : World) (sig : Signature) : Prop :=
  ∀ decl tpd sym,
    declaration sig = Some decl →
    tpd ∈ default [] (typeParameters decl) →
    tpSymbol tpd = Some sym →
    isTypeParameterSymbol W sym = true.

(** What the translator gets from the type checker and from its host:
    identifiers and mangled module names are plain; ensureSymbolDeclared
    adds plain aliases only; the entity name of a symbol that is no type
    parameter names no type parameter; the declared type parameters of the
    signatures of a type are type-parameter symbols; the target of a type
    reference is a generic class or interface, or a tuple target; and the
    symbol of a class or interface type is no type parameter. *)
Record CheckerWorld (W : World) (isForExterns : bool) : Prop := {
  names_plain : ∀ sym name i,
    symbolToEntityName W sym = Some name → i ∈ identifiersOf name →
    plainText (getIdentifierText W i) = true;
  prefix_plain : ∀ sym,
    plainText (maybeGetMangledNamePrefix W isForExterns sym) = true;
  declared_plain : ∀ sym aliases,
    aliasesPlain W aliases → aliasesPlain W (ensureSymbolDeclared W sym aliases);
  names_of_types : ∀ sym name i,
    isTypeParameterSymbol W sym = false →
    symbolToEntityName W sym = Some name → i ∈ identifiersOf name →
    isTypeParameterSymbol W (identifierSymbol W i) = false;
  type_parameters_flagged : ∀ t sig,
    sig ∈ getSignaturesOfType W t ∨ sig ∈ constructSignatures (typeOf W t) →
    typeParametersFlagged W sig;
  reference_targets : ∀ t,
    hasFlag (objectFlags (typeOf W t)) ObjectFlags.Reference = true →
    hasFlag (objectFlags (typeOf W (target (typeOf W t)))) ObjectFlags.Tuple
      = true ∨
    classOrInterface W (target (typeOf W t));
  class_symbols : ∀ t s,
    classOrInterface W t → symbol (typeOf W t) = Some s →
    isTypeParameterSymbol W s = false;
}.

(** A translation that holds no [?<] and does not start with [<], so that
    texts of this kind can be put one behind the other. *)
Definition unparameterized (s : string) : Prop :=
  containsString "?<" s = false ∧ firstIs "<" s = false.

(** A name as symbolToString writes it: plain, or a [?] and plain text. *)
Definition writtenName (n : string) : Prop :=
  plainText n = true ∨ ∃ r, n = "?" +:+ r ∧ plainText r = true.

(** [runs J Q m]: from a state in [J], [m] ends in a state in [J], and what
    it returns satisfies [Q]. *)
Definition runs (J : State → Prop) {A} (Q : A → Prop) (m : M A) : Prop :=
  ∀ st, J st → J (snd (m st)) ∧ ∀ a, fst (m st) = Ok a → Q a.

Definition aliasesOk (W : World) (st : State) : Prop :=
  aliasesPlain W (symbolsToAliasedNames st).

(** The type is translated by the Reference branch of translateObject: it
    passes the early exits and the blacklist, is an object type with the
    Reference flag and neither the Class nor the Interface flag, and its
    target is not a tuple and not the type itself. *)
Definition translatedAsReference (W : World) (isForExterns : bool)
  (B : option (gset string)) (t : tid) (st : State) : Prop :=
  maskedKind W t = TypeFlags.Object ∧
  exitsEarly W isForExterns t st = false ∧
  from_option (isBlackListed W B) false (symbol (typeOf W t)) = false ∧
  hasFlag (objectFlags (typeOf W t)) ObjectFlags.Class = false ∧
  hasFlag (objectFlags (typeOf W t)) ObjectFlags.Interface = false ∧
  hasFlag (objectFlags (typeOf W t)) ObjectFlags.Reference = true ∧
  hasFlag (objectFlags (typeOf W (target (typeOf W t)))) ObjectFlags.Tuple
    = false ∧
  target (typeOf W t) ≠ t.

(** A rest parameter whose type is a reference without type arguments is
    skipped by convertParams: nothing is pushed for it. *)
Definition isSkipped (W : World) (param : sid)
  (paramDecl : ParameterDeclaration) : bool :=
  let paramType := typeOf W (getTypeOfSymbolAtLocation W param) in
  dotDotDotToken paramDecl &&
  negb (Z.land (flags paramType) TypeFlags.Object =? 0) &&
  negb (Z.land (objectFlags paramType) ObjectFlags.Reference =? 0) &&
  bool_decide (typeArguments paramType = None).

(** convertParams over the parameters paired with their declarations:
    every pair is converted in order, and what is pushed is collected. *)
Definition convertParamsPaired (W : World) (rec : tid → M string)
  (pairs : list (sid * ParameterDeclaration)) : M (list string) :=
  let! pushed := mapM (fun pd => convertParam W rec (fst pd) (snd pd)) pairs in
  ret (omap id pushed).

(** *** When the reads of convertParams are in range *)

(** A rest parameter whose type is a reference with an empty list of type
    arguments: convertParams takes [typeArguments[0]] of it. *)
Definition emptyRest (W : World) (param : sid)
  (paramDecl : ParameterDeclaration) : Prop :=
  let paramType := typeOf W (getTypeOfSymbolAtLocation W param) in
  dotDotDotToken paramDecl = true ∧
  Z.land (flags paramType) TypeFlags.Object ≠ 0 ∧
  Z.land (objectFlags paramType) ObjectFlags.Reference ≠ 0 ∧
  typeArguments paramType = Some [].

(** Every parameter has its declaration, and no rest parameter an empty
    list of type arguments. *)
Definition paramsInRange (W : World) (params : list sid)
  (paramDecls : list ParameterDeclaration) : Prop :=
  (length params ≤ length paramDecls)%nat ∧
  ∀ param paramDecl,
    (param, paramDecl) ∈ zip params paramDecls → ¬ emptyRest W param paramDecl.

(** The declarations that signatureToClosure hands to convertParams: those
    of the signature's declaration, without a leading [this]. *)
Definition declsAfterThis (decl : SignatureDeclaration)
  : list ParameterDeclaration :=
  match default [] (declParameters decl) with
  | maybeThisParam :: others =>
      if String.eqb (paramNameText maybeThisParam) "this" then others
      else maybeThisParam :: others
  | [] => []
  end.

Definition signatureInRange (W : World)
  (decls : SignatureDeclaration → list ParameterDeclaration) (sig : Signature)
  : Prop :=
  match declaration sig with
  | Some decl =>
      declKind decl ≠ JSDocSignatureKind →
      paramsInRange W (parameters sig) (decls decl)
  | None => True
  end.

(** The signatures that the translation of a type passes to convertParams
    are in range: its only call signature, and its first construct
    signature. *)
Definition typeInRange (W : World) (t : tid) : Prop :=
  (∀ sig, getSignaturesOfType W t = [sig] →
     signatureInRange W declsAfterThis sig) ∧
  (∀ ctor others, constructSignatures (typeOf W t) = ctor :: others →
     signatureInRange W (fun decl => default [] (declParameters decl)) ctor).

(** [E] allows the TypeError of a missing element. *)
Definition missingAllowed (E : Error → Prop) : Prop :=
  (∀ i, E (MissingParameterDeclaration i)) ∧ E MissingTypeArgument.

(** The situation in which the translation of the type [u] itself throws
    [e]: the two Errors of the source, each in its situation at [u], and the
    TypeError of a missing element, for which a read of convertParams must
    be out of range for a signature of [u]. *)
Definition thrownAt (W : World) (u : tid) (e : Error) : Prop :=
  match e with
  | ReferenceLoop v => v = u ∧ isReferenceLoop W u
  | UnknownTypeFlags v => v = u ∧ hasUnmatchedFlags W u
  | MissingParameterDeclaration _ => ¬ typeInRange W u
  | MissingTypeArgument => ¬ typeInRange W u
  end.

(** [e] is thrown at a type that the translation of [t] reaches. *)
Definition thrownBelow (W : World) (t : tid) (e : Error) : Prop :=
  ∃ u, reaches W t u ∧ thrownAt W u e.

(** No type that the translation of [t] reaches is in a situation that
    throws. *)
Definition noThrowBelow (W : World) (t : tid) : Prop :=
  ∀ u, reaches W t u →
    ¬ isReferenceLoop W u ∧ ¬ hasUnmatchedFlags W u ∧ typeInRange W u.

(** ** Small programs used as concrete inputs *)

Module Examples.
Local Open Scope nat_scope.

Definition moduleFile : SourceFile :=
  {| fileName := "/src/a.ts"; isDeclarationFile := false;
     isExternalModule := true |}.

Definition plainType (f : Z) : TsType :=
  {| flags := f; objectFlags := 0%Z; symbol := None; target := O;
     typeArguments := None; types := []; constructSignatures := [] |}.

Definition plainSymbol (f : Z) (name : string) : Symbol :=
  {| symFlags := f; symName := name; declarations := None;
     members := None; symParent := None |}.

(** A top-level declaration in a file. *)
Definition declaredIn (sf : SourceFile) : Node :=
  mkNode (OtherKind 0) 0%Z None sf sf
    (Some (mkNode SourceFileKind 0%Z None sf sf None)).

Definition named (i : sid) (text : string) : EntityName :=
  Identifier {| idText := text; idSymbol := i |}.

(** A program given by its types, its symbols and the answers of the
    checker; paths are taken as written and nothing is ambient. *)
Definition program (types : tid -> TsType) (symbols : sid -> Symbol)
  (names : sid -> option EntityName) (signatures : tid -> list Signature)
  (typeOfSymbol : sid -> tid) : World :=
  {| typeOf := types; symbolOf := symbols;
     symbolToEntityName := names;
     getAliasedSymbol := fun s => s;
     getBaseTypeOfLiteralType := fun t => t;
     getSignaturesOfType := signatures;
     getTypeOfSymbolAtLocation := typeOfSymbol;
     getIndexTypeOfType := fun _ _ => None;
     contextFile := moduleFile;
     ensureSymbolDeclared := fun _ aliases => aliases;
     normalize := fun p => p;
     moduleNameAsIdentifier := fun p => p;
     getIdentifierText := idText;
     isAmbient := fun _ => false;
     hasExportModifier := fun _ => false |}.

Definition freshState : State := mkState ∅ ∅ [].

(** Every symbol is named [Foo] and has no declarations. *)
Definition fooWorld : World :=
  program (fun _ => plainType TypeFlags.Any)
    (fun _ => plainSymbol 0%Z "Foo")
    (fun s => Some (named s "Foo")) (fun _ => []) (fun _ => O).

(** An alias in the namespace of Clutz. *)
Definition clutzAlias : string := clutzNamespace +:+ "goog.Foo".
Definition clutzAliased : State := mkState ∅ {[ O := clutzAlias ]} [].

(** An alias as a forward declaration makes it. *)
Definition forwardDeclared : State :=
  mkState ∅ {[ O := "tsickle_forward_declare_1.Foo" ]} [].

(** The name [a.b.Foo], every segment with its own symbol. *)
Definition abFoo (s : sid) : EntityName :=
  QualifiedName
    (QualifiedName (named 2 "a") {| idText := "b"; idSymbol := 1 |})
    {| idText := "Foo"; idSymbol := s |}.

Definition qualifiedWorld : World :=
  program (fun _ => plainType TypeFlags.Any)
    (fun _ => plainSymbol 0%Z "Foo")
    (fun s => Some (abFoo s)) (fun _ => []) (fun _ => O).

Definition symbolDeclaredIn (f : Z) (name : string) (sf : SourceFile)
  : Symbol :=
  {| symFlags := f; symName := name; declarations := Some [declaredIn sf];
     members := None; symParent := None |}.

Definition typeWithSymbol (f : Z) (s : sid) : TsType :=
  {| flags := f; objectFlags := 0%Z; symbol := Some s; target := O;
     typeArguments := None; types := []; constructSignatures := [] |}.

(** Type 0 is the [object] type, type 1 an enum with computed members,
    both with the symbol [E] of a module file; types 2 and 3 are [string]
    and [number], and type 4 their union, with the symbol [E] too. *)
Definition moduleWorld : World :=
  program
    (fun t => match t with
              | 0 => typeWithSymbol TypeFlags.NonPrimitive 0
              | 1 => typeWithSymbol TypeFlags.Enum 0
              | 2 => plainType TypeFlags.String
              | 3 => plainType TypeFlags.Number
              | _ => {| flags := TypeFlags.Union; objectFlags := 0%Z;
                        symbol := Some 0; target := O; typeArguments := None;
                        types := [2; 3]; constructSignatures := [] |}
              end)
    (fun _ => symbolDeclaredIn 0%Z "E" moduleFile)
    (fun s => Some (named s "E")) (fun _ => []) (fun _ => O).

(** The same program with the [object] type as the checker makes it:
    type 0 has no symbol. *)
Definition checkedModuleWorld : World :=
  program
    (fun t => match t with
              | 0 => plainType TypeFlags.NonPrimitive
              | 1 => typeWithSymbol TypeFlags.Enum 0
              | 2 => plainType TypeFlags.String
              | 3 => plainType TypeFlags.Number
              | _ => {| flags := TypeFlags.Union; objectFlags := 0%Z;
                        symbol := Some 0; target := O; typeArguments := None;
                        types := [2; 3]; constructSignatures := [] |}
              end)
    (fun _ => symbolDeclaredIn 0%Z "E" moduleFile)
    (fun s => Some (named s "E")) (fun _ => []) (fun _ => O).

Definition moduleFileBlackList : option (gset string) :=
  Some {[ "/src/a.ts" ]}.

(** An anonymous object type with a symbol. *)
Definition anonymousType (s : sid) : TsType :=
  {| flags := TypeFlags.Object; objectFlags := ObjectFlags.Anonymous;
     symbol := Some s; target := O; typeArguments := None; types := [];
     constructSignatures := [] |}.

(** The symbol of a type literal with the given members. *)
Definition typeLiteral (entries : list (string * sid)) : Symbol :=
  {| symFlags := 2048%Z; symName := "__type"; declarations := None;
     members := Some entries; symParent := None |}.

Definition parameter (name : string) : ParameterDeclaration :=
  {| paramNameText := name; paramTypeNode := None; questionToken := false;
     dotDotDotToken := false |}.

(** The signature of a function declaration with the given parameter
    declarations, parameter symbols and return type. *)
Definition signatureOf (decls : list ParameterDeclaration) (params : list sid)
  (ret : tid) : Signature :=
  {| declaration := Some {| declKind := OtherKind 0; typeParameters := None;
                            declParameters := Some decls |};
     parameters := params; returnType := ret |}.

(** [type T = {self: T}]: type 0 is the literal, symbol 1 its member. *)
Definition recursiveWorld : World :=
  program
    (fun t => match t with
              | 0 => anonymousType 0
              | _ => plainType TypeFlags.String
              end)
    (fun s => match s with
              | 0 => typeLiteral [("self", 1)]
              | _ => plainSymbol 4%Z "self"
              end)
    (fun _ => None) (fun _ => []) (fun _ => 0).

Definition seenRecursive : State := mkState {[ 0 ]} ∅ [].

(** [function f(x: typeof f): void] and [let o: {f: typeof f}]: type 0 is
    the literal with the member [f] (symbol 1), type 1 the type of the
    function [f] (symbol 2), whose parameter [x] (symbol 3) has type 1
    again; type 2 is [void]. *)
Definition functionWorld : World :=
  program
    (fun t => match t with
              | 0 => anonymousType 0
              | 1 => anonymousType 2
              | _ => plainType TypeFlags.Void
              end)
    (fun s => match s with
              | 0 => typeLiteral [("f", 1)]
              | 2 => plainSymbol SymbolFlags.Function "f"
              | _ => plainSymbol 1%Z "x"
              end)
    (fun _ => None)
    (fun t => match t with
              | 1 => [signatureOf [parameter "x"] [3] 2]
              | _ => []
              end)
    (fun _ => 1).

(** A function type whose signature has a parameter (symbol 1, of type
    [void]) that its declaration lacks. *)
Definition undeclaredParameterWorld : World :=
  program
    (fun t => match t with
              | 0 => anonymousType 0
              | _ => plainType TypeFlags.Void
              end)
    (fun s => match s with
              | 0 => plainSymbol SymbolFlags.Function "f"
              | _ => plainSymbol 1%Z "args"
              end)
    (fun _ => None)
    (fun t => match t with
              | 0 => [signatureOf [] [1] 1]
              | _ => []
              end)
    (fun _ => 1).

(** Type 0 is a type reference that is its own target. *)
Definition referenceLoopWorld : World :=
  program
    (fun t => match t with
              | 0 => {| flags := TypeFlags.Object;
                        objectFlags := ObjectFlags.Reference; symbol := None;
                        target := 0; typeArguments := None; types := [];
                        constructSignatures := [] |}
              | _ => plainType TypeFlags.Void
              end)
    (fun _ => plainSymbol 0%Z "x")
    (fun _ => None) (fun _ => []) (fun _ => 1).

(** [Foo<number>]: type 0 is the reference, type 1 the class [Foo]
    (symbol 0), type 2 [number]. *)
Definition referenceWorld (names : sid -> option EntityName) : World :=
  program
    (fun t => match t with
              | 0 => {| flags := TypeFlags.Object;
                        objectFlags := ObjectFlags.Reference; symbol := None;
                        target := 1; typeArguments := Some [2]; types := [];
                        constructSignatures := [] |}
              | 1 => {| flags := TypeFlags.Object;
                        objectFlags := ObjectFlags.Class; symbol := Some 0;
                        target := 1; typeArguments := None; types := [];
                        constructSignatures := [] |}
              | _ => plainType TypeFlags.Number
              end)
    (fun _ => plainSymbol 32%Z "Foo")
    names (fun _ => []) (fun _ => 2).

(** The symbol of [Foo] blacklisted in the Alias Scope. *)
Definition fooBlacklisted : State := mkState ∅ {[ 0 := "?" ]} [].

(** A function with the parameters [a] and [b] (symbols 1 and 2, of type
    [number]); type 0 is its type. *)
Definition twoParameters : Signature :=
  signatureOf [parameter "a"; parameter "b"] [1; 2] 1.

End Examples.

(** ** Notions for the further properties *)

(** [s] ends with the text [suffix]. *)
Definition endsWith (suffix s : string) : Prop := ∃ pre, s = pre +:+ suffix.

(** The symbols that blacklistTypeParameters finds for declarations. *)
Definition typeParameterSymbols (decls : option (list TypeParameterDeclaration))
  : list sid :=
  omap tpSymbol (default [] decls).

(** An ambient external module declaration strictly above a node. *)
Definition hasAmbientModuleAbove (n : Node) : Prop :=
  ∃ p a, parent n = Some p ∧ a ∈ ancestorsOrSelf p ∧
         is_Some (isAmbientModuleDeclaration a).

(** [keeps R m]: every run of [m] leads to a state related to its start. *)
Definition keeps (R : State → State → Prop) {A} (m : M A) : Prop :=
  ∀ st, R st (snd (m st)).

(** Every alias of [st'] is the alias of [st], or else [?]. *)
Definition aliasesOnlyBlacklisted (st st' : State) : Prop :=
  ∀ s, symbolsToAliasedNames st' !! s = symbolsToAliasedNames st !! s ∨
       symbolsToAliasedNames st' !! s = Some "?".

(** What the names of the library files have between [lib.] and [d.ts]:
    nothing, or a non-empty text without [/] and a dot. *)
Definition isLibInfix (infix : string) : Prop :=
  infix = "" ∨
  ∃ x, x ≠ "" ∧ allChars (fun c => negb (Ascii.eqb c "/"%char)) x = true ∧
       infix = x +:+ ".".

(** ** Further small programs *)

Module MoreExamples.
Import Examples.
Local Open Scope nat_scope.

Definition scriptFile : SourceFile :=
  {| fileName := "/src/global.d.ts"; isDeclarationFile := true;
     isExternalModule := false |}.

(** A declaration inside [declare module 'net' { ... }] in a script. *)
Definition declaredInAmbientModule : Node :=
  mkNode (OtherKind 0) 0%Z None scriptFile scriptFile
    (Some (mkNode ModuleDeclarationKind 0%Z (Some (StringLiteralName "net"))
             scriptFile scriptFile
             (Some (mkNode SourceFileKind 0%Z None scriptFile scriptFile None)))).

(** Symbol 0 is declared in a script and, merged, in a module file;
    symbol 1 inside an ambient module; every other symbol at the top of the
    module file.  Declarations count as ambient and exported, and mangled
    module names start with [module$]. *)
Definition declarationsWorld : World :=
  {| typeOf := fun _ => plainType TypeFlags.Any;
     symbolOf := fun s =>
       {| symFlags := 0%Z; symName := "x";
          declarations :=
            Some match s with
                 | 0 => [declaredIn scriptFile; declaredIn moduleFile]
                 | 1 => [declaredInAmbientModule]
                 | _ => [declaredIn moduleFile]
                 end;
          members := None; symParent := None |};
     symbolToEntityName := fun s => Some (named s "x");
     getAliasedSymbol := fun s => s;
     getBaseTypeOfLiteralType := fun t => t;
     getSignaturesOfType := fun _ => [];
     getTypeOfSymbolAtLocation := fun _ => 0;
     getIndexTypeOfType := fun _ _ => None;
     contextFile := moduleFile;
     ensureSymbolDeclared := fun _ aliases => aliases;
     normalize := fun p => p;
     moduleNameAsIdentifier := fun p => "module$" +:+ p;
     getIdentifierText := idText;
     isAmbient := fun _ => true;
     hasExportModifier := fun _ => true |}.

(** [function f<T>(x: T)]: every type is the type parameter [T], whose
    symbol, symbol 0, has the TypeParameter flag. *)
Definition genericWorld : World :=
  program (fun _ => typeWithSymbol TypeFlags.TypeParameter 0)
    (fun _ => plainSymbol SymbolFlags.TypeParameter "T")
    (fun s => Some (named s "T")) (fun _ => []) (fun _ => 0).

Definition typeParameterT : option (list TypeParameterDeclaration) :=
  Some [ {| tpSymbol := Some 0 |} ].

(** [string | 'a']: type 0 is the union of type 1, [string], and type 2,
    a string literal type. *)
Definition stringUnionWorld : World :=
  program
    (fun t => match t with
              | 0 => {| flags := TypeFlags.Union; objectFlags := 0%Z;
                        symbol := None; target := 0; typeArguments := None;
                        types := [1; 2]; constructSignatures := [] |}
              | 1 => plainType TypeFlags.String
              | _ => plainType TypeFlags.StringLiteral
              end)
    (fun _ => plainSymbol 0%Z "x")
    (fun _ => None) (fun _ => []) (fun _ => 1).

(** [{}]: type 0 is a type literal without members; its symbol is
    symbol 0.  Type 1 is an interface whose symbol, symbol 1, the checker
    gives no entity name.  Type 2 is a tuple type [[string]]: a reference
    to the tuple target, type 3, that is its own target.  Every other type
    is [string]; the parameters have that type. *)
Definition objectsWorld : World :=
  program
    (fun t => match t with
              | 0 => anonymousType 0
              | 1 => {| flags := TypeFlags.Object;
                        objectFlags := ObjectFlags.Interface;
                        symbol := Some 1; target := 0; typeArguments := None;
                        types := []; constructSignatures := [] |}
              | 2 => {| flags := TypeFlags.Object;
                        objectFlags := ObjectFlags.Reference;
                        symbol := None; target := 3;
                        typeArguments := Some [4]; types := [];
                        constructSignatures := [] |}
              | 3 => {| flags := TypeFlags.Object;
                        objectFlags := Z.lor ObjectFlags.Reference
                                         ObjectFlags.Tuple;
                        symbol := None; target := 3;
                        typeArguments := None; types := [];
                        constructSignatures := [] |}
              | _ => plainType TypeFlags.String
              end)
    (fun s => match s with
              | 0 => typeLiteral []
              | _ => plainSymbol 64%Z "I"
              end)
    (fun _ => None) (fun _ => []) (fun _ => 4).

(** Type 0 is a class and type 1 an interface; the checker gives their
    symbol, symbol 1, no entity name. *)
Definition unnamedWorld : World :=
  program
    (fun t => match t with
              | 0 => {| flags := TypeFlags.Object;
                        objectFlags := ObjectFlags.Class;
                        symbol := Some 1; target := 0; typeArguments := None;
                        types := []; constructSignatures := [] |}
              | _ => {| flags := TypeFlags.Object;
                        objectFlags := ObjectFlags.Interface;
                        symbol := Some 1; target := 0; typeArguments := None;
                        types := []; constructSignatures := [] |}
              end)
    (fun _ => plainSymbol 64%Z "I")
    (fun _ => None) (fun _ => []) (fun _ => 0).

(** A rest parameter that is optional as well. *)
Definition restParameter : ParameterDeclaration :=
  {| paramNameText := "args"; paramTypeNode := None; questionToken := true;
     dotDotDotToken := true |}.

(** The symbol of [b] in [a.b.Foo] has an alias. *)
Definition innerAliased : State := mkState ∅ {[ 1 := "ns" ]} [].

(** Every type has no flag at all. *)
Definition unflaggedWorld : World :=
  program (fun _ => plainType 0%Z) (fun _ => plainSymbol 0%Z "x")
    (fun _ => None) (fun _ => []) (fun _ => 0).

(** Every type is the class [C], declared in the module file. *)
Definition classWorld : World :=
  program
    (fun _ => {| flags := TypeFlags.Object; objectFlags := ObjectFlags.Class;
                 symbol := Some 0; target := 0; typeArguments := None;
                 types := []; constructSignatures := [] |})
    (fun _ => symbolDeclaredIn 32%Z "C" moduleFile)
    (fun s => Some (named s "C")) (fun _ => []) (fun _ => 0).

Definition libFile : SourceFile :=
  {| fileName := "/ts" +:+ "/lib." +:+ "es5." +:+ "d.ts";
     isDeclarationFile := true; isExternalModule := false |}.

(** Every type is the interface [Date] of the library, whose symbol is
    the symbol of the variable [Date] as well. *)
Definition libraryWorld : World :=
  program
    (fun _ => {| flags := TypeFlags.Object;
                 objectFlags := ObjectFlags.Interface;
                 symbol := Some 0; target := 0; typeArguments := None;
                 types := []; constructSignatures := [] |})
    (fun _ => symbolDeclaredIn 65%Z "Date" libFile)
    (fun s => Some (named s "Date")) (fun _ => []) (fun _ => 0).

End MoreExamples.

(** [returns Q m]: whatever [m] returns satisfies [Q]. *)
Definition returns {A} (Q : A → Prop) (m : M A) : Prop :=
  ∀ st a st', m st = (Ok a, st') → Q a.

Definition nonEmpty (s : string) : Prop := s ≠ "".

(** * Properties *)

(** ** isBlacklisted *)

(** C8, as stated, fails: a symbol without a declarations list has every
    declaration (there is none) in the blacklist, and isBlacklisted
    answers false. *)
Lemma C8_counterexample :
  isBlacklisted Examples.fooWorld (Some ∅) O = false ∧
  everyDeclarationBlacklisted Examples.fooWorld (Some ∅) O.
Proof.
  split; [reflexivity|].
  intros d Hd. unfold declarationsOf in Hd. simpl in Hd.
  by apply elem_of_nil in Hd.
Qed.

(** C8, amended: isBlacklisted answers true exactly when the blacklist is
    present, the declarations list of the symbol is present, and every
    declaration's normalized source-file path is in the blacklist. *)
Theorem C8_isBlacklisted_iff (W : World) (pathBlackList : option (gset string))
  (s : sid) :
  isBlacklisted W pathBlackList s = true ↔
  ∃ blackList ds,
    pathBlackList = Some blackList ∧
    declarations (symbolOf W s) = Some ds ∧
    ∀ d, d ∈ ds → normalize W (fileName (sourceFile d)) ∈ blackList.
Proof.
  unfold isBlacklisted. split.
  - destruct pathBlackList as [blackList|]; [|done].
    destruct (declarations (symbolOf W s)) as [ds|]; [|done].
    intros H. exists blackList, ds. split_and!; [done..|].
    intros d Hd. rewrite forallb_forall in H.
    apply list_elem_of_In in Hd. apply H in Hd. by apply bool_decide_eq_true in Hd.
  - intros (blackList & ds & -> & -> & H).
    apply forallb_forall. intros d Hd. apply bool_decide_eq_true.
    apply H. by apply list_elem_of_In.
Qed.

(** ** symbolToString *)

Lemma length_append_dot (s : string) : String.length (s +:+ ".") ≠ O.
Proof. destruct s; simpl; lia. Qed.

Lemma writeIdentifier_empty W ext aliases i :
  writeIdentifier W ext aliases i "" = writeLeftmost W ext aliases i.
Proof. reflexivity. Qed.

Lemma writeIdentifier_after_dot W ext aliases i str :
  writeIdentifier W ext aliases i (str +:+ ".") =
  writeUnprefixed W aliases i (str +:+ ".").
Proof.
  unfold writeIdentifier, writeUnprefixed.
  destruct (truthy _); [done|].
  destruct (Nat.eqb_spec (String.length (str +:+ ".")) 0) as [E|_]; [|done].
  by apply length_append_dot in E.
Qed.

Lemma writeEntityWithSymbols_segments W ext aliases name :
  writeEntityWithSymbols W ext aliases name "" =
  writeSegments W ext aliases name.
Proof.
  unfold writeSegments.
  induction name as [i|l IH r]; simpl.
  - apply writeIdentifier_empty.
  - rewrite fold_left_app. simpl. rewrite <- IH.
    apply writeIdentifier_after_dot.
Qed.

Lemma symbolToString_eq W ext sym st :
  fst (symbolToString W ext sym st) =
  Ok ((fun name =>
         stripClutzNamespace
           (writeEntityWithSymbols W ext (aliasesAtLookup W ext sym st) name ""))
      <$> symbolToEntityName W sym).
Proof.
  unfold symbolToString, aliasesAtLookup, bind.
  destruct (negb ext && _); simpl;
    destruct (symbolToEntityName W sym); reflexivity.
Qed.

Lemma writeEntityWithSymbols_alias W ext aliases name str A :
  aliases !! identifierSymbol W (lastIdentifier name) = Some A →
  A ≠ "" →
  writeEntityWithSymbols W ext aliases name str = A.
Proof.
  intros HA Hne.
  assert (∀ s, writeIdentifier W ext aliases (lastIdentifier name) s = A) as H.
  { intros s. unfold writeIdentifier. rewrite HA. simpl.
    unfold isEmptyString. destruct (String.eqb_spec A ""); done. }
  destruct name; simpl; apply H.
Qed.

(** C6: in the name that symbolToString produces, the mangled prefix of
    maybeGetMangledNamePrefix is applied at most once and only to the
    leftmost identifier: the name is the leftmost segment, written with its
    prefix (or replaced by its alias), followed by the later segments, each
    written without any prefix. *)
Theorem C6_mangled_prefix_leftmost_only (W : World) (isForExterns : bool)
  (sym : sid) (st : State) :
  fst (symbolToString W isForExterns sym st) =
  Ok ((fun name =>
         stripClutzNamespace
           (writeSegments W isForExterns
              (aliasesAtLookup W isForExterns sym st) name))
      <$> symbolToEntityName W sym).
Proof.
  rewrite symbolToString_eq.
  destruct (symbolToEntityName W sym) as [name|]; simpl; [|done].
  by rewrite writeEntityWithSymbols_segments.
Qed.

(** C3, as stated, fails: an alias that starts with the namespace of Clutz
    is not returned as it is. *)
Lemma C3_counterexample :
  symbolsToAliasedNames Examples.clutzAliased !! O = Some Examples.clutzAlias ∧
  fst (symbolToString Examples.fooWorld false O Examples.clutzAliased)
    = Ok (Some "goog.Foo") ∧
  Examples.clutzAlias ≠ "goog.Foo".
Proof. split_and!; [vm_compute; reflexivity..|discriminate]. Qed.

(** C3, amended: when the checker gives the symbol an entity name, and the
    Alias Scope, as it is when the name is written, maps the symbol of the
    last identifier of that name to a non-empty string A, symbolToString
    returns A without the namespace prefix of Clutz; so exactly A when A
    does not start with that prefix.  No qualifier text of earlier segments
    and no mangled prefix is kept, wherever the symbol is declared. *)
Theorem C3_alias_verbatim (W : World) (isForExterns : bool) (sym : sid)
  (st : State) (name : EntityName) (A : string) :
  symbolToEntityName W sym = Some name →
  aliasesAtLookup W isForExterns sym st
    !! identifierSymbol W (lastIdentifier name) = Some A →
  A ≠ "" →
  fst (symbolToString W isForExterns sym st) = Ok (Some (stripClutzNamespace A))
  ∧ (String.prefix clutzNamespace A = false →
     fst (symbolToString W isForExterns sym st) = Ok (Some A)).
Proof.
  intros Hname HA Hne.
  assert (fst (symbolToString W isForExterns sym st)
          = Ok (Some (stripClutzNamespace A))) as H.
  { rewrite symbolToString_eq, Hname. simpl.
    by rewrite (writeEntityWithSymbols_alias _ _ _ _ _ A). }
  split; [done|].
  intros Hp. rewrite H. unfold stripClutzNamespace. by rewrite Hp.
Qed.

Lemma C3_alias_verbatim_witness :
  fst (symbolToString Examples.qualifiedWorld false O Examples.forwardDeclared)
  = Ok (Some "tsickle_forward_declare_1.Foo").
Proof.
  apply (C3_alias_verbatim Examples.qualifiedWorld false O
           Examples.forwardDeclared
           (Examples.abFoo O)
           "tsickle_forward_declare_1.Foo").
  - reflexivity.
  - vm_compute. reflexivity.
  - discriminate.
  - reflexivity.
Defined.

(** ** Declarations *)

Lemma Node_parent_ind (P : Node → Prop) :
  (∀ k f m sf osf, P (mkNode k f m sf osf None)) →
  (∀ k f m sf osf q, P q → P (mkNode k f m sf osf (Some q))) →
  ∀ n, P n.
Proof.
  intros H0 HS. fix IH 1. intros [k f m sf osf [q|]].
  - apply HS, IH.
  - apply H0.
Qed.

Lemma anyUp_existsb (p : Node → bool) (n : Node) :
  anyUp p n = existsb p (ancestorsOrSelf n).
Proof.
  induction n using Node_parent_ind; simpl; [|by rewrite IHn].
  by rewrite orb_false_r.
Qed.

Lemma existsb_false {A} (p : A → bool) (l : list A) :
  (∀ x, x ∈ l → p x = false) → existsb p l = false.
Proof.
  induction l as [|x l IH]; intros H; simpl; [done|].
  rewrite H by left. simpl. apply IH. intros y Hy. apply H. by right.
Qed.

Lemma existsb_true {A} (p : A → bool) (l : list A) (x : A) :
  x ∈ l → p x = true → existsb p l = true.
Proof.
  intros Hx Hp. apply existsb_exists. exists x. split; [|done].
  by apply list_elem_of_In.
Qed.

Lemma declIsAmbient_false W t s :
  symbol (typeOf W t) = Some s →
  (∀ d, d ∈ declarationsOf W s → notAmbient d) →
  declIsAmbient W (typeOf W t) = false.
Proof.
  intros Hs H. unfold declIsAmbient, symbolDeclarations. rewrite Hs.
  apply existsb_false. intros d Hd. destruct (H d Hd) as [Hf Hup].
  rewrite Hf. simpl. rewrite anyUp_existsb. apply existsb_false.
  intros a Ha. unfold hasFlag. by rewrite (Hup a Ha).
Qed.

Lemma declIsModule_true W t s d :
  symbol (typeOf W t) = Some s →
  d ∈ declarationsOf W s →
  isExternalModule (sourceFile d) = true →
  declIsModule W (typeOf W t) = true.
Proof.
  intros Hs Hd Hm. unfold declIsModule, symbolDeclarations. rewrite Hs.
  by apply (existsb_true _ _ d).
Qed.

(** Where maybeGetMangledNamePrefix reads [declarations[0]], the list has
    an element. *)
Lemma declarations_0_defined (ds : list Node) :
  isTopLevelExternal ds = true ∨
  is_Some (getContainingAmbientModuleDeclaration ds) →
  ds ≠ [].
Proof.
  intros [H|[x H]] ->; simpl in *; discriminate.
Qed.

(** ** The early exits of translate *)

Lemma translate_S W ext B fuel t :
  translate W ext B (S fuel) t = translateWith W ext B (translate W ext B fuel) t.
Proof. reflexivity. Qed.

Lemma translateWith_exitsEarly W ext B rec t st :
  flags (typeOf W t) ≠ TypeFlags.NonPrimitive →
  exitsEarly W ext t st = true →
  translateWith W ext B rec t st = (Ok "?", st).
Proof.
  intros Hnp He. unfold translateWith, exitsEarly in *.
  destruct (Z.eqb_spec (flags (typeOf W t)) TypeFlags.NonPrimitive); [done|].
  unfold bind, hasSeen. simpl.
  destruct (bool_decide (t ∈ seenAnonymousTypes st)); [done|].
  destruct (declIsInNamespace W (typeOf W t) && negb (declIsAmbient W (typeOf W t)));
    [done|].
  simpl in He. by rewrite He.
Qed.

(** C2: in externs mode, for every type that has a symbol of which some
    declaration is in an external-module file and no declaration is
    ambient, translate returns [?], and leaves the state as it is.  The
    types are those of the checker: the type whose flags are exactly
    NonPrimitive, which translate answers before it looks at the symbol,
    has no symbol. *)
Theorem C2_externs_module_type (W : World) (B : option (gset string))
  (t : tid) (s : sid) (d : Node) (st : State) (fuel : nat) :
  objectTypeWithoutSymbol W →
  symbol (typeOf W t) = Some s →
  d ∈ declarationsOf W s →
  isExternalModule (sourceFile d) = true →
  (∀ d', d' ∈ declarationsOf W s → notAmbient d') →
  translate W true B (S fuel) t st = (Ok "?", st).
Proof.
  intros Hobj Hs Hd Hm Hna. rewrite translate_S.
  apply translateWith_exitsEarly.
  { intros E. apply Hobj in E. congruence. }
  unfold exitsEarly.
  rewrite (declIsAmbient_false W t s Hs Hna), (declIsModule_true W t s d Hs Hd Hm).
  simpl. by rewrite orb_true_r.
Qed.

Lemma C2_externs_module_type_witness :
  translate Examples.checkedModuleWorld true None 1 1%nat Examples.freshState
  = (Ok "?", Examples.freshState).
Proof.
  apply (C2_externs_module_type Examples.checkedModuleWorld None 1%nat O
           (Examples.declaredIn Examples.moduleFile)).
  - intros [|[|[|[|t]]]] E; vm_compute in E; try discriminate E. reflexivity.
  - reflexivity.
  - unfold declarationsOf. simpl. by left.
  - reflexivity.
  - intros d Hd. unfold declarationsOf in Hd. simpl in Hd.
    apply list_elem_of_singleton in Hd as ->.
    split; [done|]. intros a Ha. simpl in Ha.
    repeat (apply elem_of_cons in Ha as [->|Ha]; [done|]).
    by apply elem_of_nil in Ha.
Defined.

Lemma translateWith_object W ext B rec t st :
  maskedKind W t = TypeFlags.Object →
  exitsEarly W ext t st = false →
  translateWith W ext B rec t st = translateObject W ext B rec t st.
Proof.
  intros Hk He. unfold exitsEarly in He.
  apply orb_false_elim in He as [He He3]. apply orb_false_elim in He as [He1 He2].
  unfold translateWith. cbv zeta.
  destruct (Z.eqb_spec (flags (typeOf W t)) TypeFlags.NonPrimitive) as [E|_].
  { unfold maskedKind in Hk. rewrite E in Hk. discriminate. }
  unfold bind at 1, hasSeen. rewrite He1, He2, He3.
  fold (maskedKind W t). rewrite Hk. reflexivity.
Qed.

(** ** The path blacklist *)

(** For an object type the blacklist works as C9 says: a blacklisted symbol
    gives [?], and neither a warning nor any other change of the state. *)
Lemma translateObject_blacklisted W ext B rec t s st :
  symbol (typeOf W t) = Some s →
  isBlackListed W B s = true →
  translateObject W ext B rec t st = (Ok "?", st).
Proof.
  intros Hs Hb. unfold translateObject. rewrite Hs. simpl. by rewrite Hb.
Qed.

(** C9 fails on the code for the kinds that do not go through
    translateObject: an enum type whose only declaration is in a
    blacklisted file is translated to its name. *)
Theorem C9_blacklisted_enum_is_named :
  isBlackListed Examples.moduleWorld Examples.moduleFileBlackList O = true ∧
  translate Examples.moduleWorld false Examples.moduleFileBlackList 2 1%nat
    Examples.freshState = (Ok "E", Examples.freshState).
Proof. split; vm_compute; reflexivity. Qed.

(** ** Unions *)

Lemma indexOf_app el pre rest :
  indexOf el (pre ++ el :: rest)%list = Some (length pre) ↔ el ∉ pre.
Proof.
  induction pre as [|x pre IH]; simpl.
  - rewrite String.eqb_refl. split; [intros _; apply not_elem_of_nil|done].
  - destruct (String.eqb_spec x el) as [->|Hne].
    + split; [done|]. intros H. destruct H. by left.
    + rewrite not_elem_of_cons, <- IH.
      destruct (indexOf el (pre ++ el :: rest)%list) as [i|]; simpl.
      * split; [intros [= ->]; split; [congruence|done]|].
        by intros [_ [= ->]].
      * split; [done|]. by intros [_ ?].
Qed.

Lemma filterWithIndex_firstOccurrences (pre l : list string) :
  filterWithIndex
    (fun el idx => bool_decide (indexOf el (pre ++ l)%list = Some idx))
    (length pre) l
  = filter (fun x => x ∉ pre) (firstOccurrences l).
Proof.
  revert pre. induction l as [|el rest IH]; intros pre; simpl; [done|].
  specialize (IH (pre ++ [el])%list).
  rewrite <- app_assoc in IH. simpl in IH.
  rewrite length_app in IH. simpl in IH. rewrite Nat.add_1_r in IH.
  rewrite IH, filter_cons, list_filter_filter.
  assert (filter (λ x, x ∉ (pre ++ [el])%list) (firstOccurrences rest)
          = filter (λ x, (x ∉ pre) ∧ (x ≠ el)) (firstOccurrences rest)) as ->.
  { apply list_filter_iff. intros x.
    rewrite elem_of_app, list_elem_of_singleton. tauto. }
  destruct (decide (el ∉ pre)) as [Hin|Hin].
  - rewrite bool_decide_eq_true_2; [done|]. by apply indexOf_app.
  - rewrite bool_decide_eq_false_2; [done|]. by rewrite indexOf_app.
Qed.

(** The filter of the source keeps the first occurrences. *)
Lemma removeDuplicates_firstOccurrences (parts : list string) :
  removeDuplicates parts = firstOccurrences parts.
Proof.
  unfold removeDuplicates.
  pose proof (filterWithIndex_firstOccurrences [] parts) as H.
  simpl in H. rewrite H. clear H.
  induction (firstOccurrences parts) as [|x l IH]; [done|].
  rewrite filter_cons_True by apply not_elem_of_nil. by f_equal.
Qed.

Lemma firstOccurrences_elem (x : string) (l : list string) :
  x ∈ firstOccurrences l ↔ x ∈ l.
Proof.
  induction l as [|el rest IH]; simpl; [done|].
  rewrite !elem_of_cons, list_elem_of_filter, IH.
  destruct (decide (x = el)); tauto.
Qed.

Lemma translateUnion_eq W rec t st :
  translateUnion W rec t st =
  (let! parts := mapM rec (types (typeOf W t)) in
   ret (unionText (firstOccurrences parts))) st.
Proof.
  unfold translateUnion, bind.
  destruct (mapM rec (types (typeOf W t)) st) as [[parts| |] st']; [|done..].
  rewrite removeDuplicates_firstOccurrences. unfold unionText.
  by destruct (firstOccurrences parts) as [|? [|? ?]].
Qed.

Lemma land_mask_flag (f c : Z) :
  Z.land mask c = c → Z.land (Z.land f mask) c = Z.land f c.
Proof. intros H. by rewrite <- Z.land_assoc, H. Qed.

Lemma kind_with_union (f c : Z) :
  hasFlag f TypeFlags.Union = true →
  Z.land c TypeFlags.Union = 0 →
  (Z.land f mask =? c) = false.
Proof.
  unfold hasFlag. intros Hu Hc.
  destruct (Z.eqb_spec (Z.land f mask) c) as [E|]; [|done].
  rewrite <- (land_mask_flag f TypeFlags.Union), E, Hc in Hu by reflexivity.
  done.
Qed.

Lemma translateWith_union W ext B rec t st :
  hasFlag (flags (typeOf W t)) TypeFlags.Union = true →
  exitsEarly W ext t st = false →
  translateWith W ext B rec t st = translateUnion W rec t st.
Proof.
  intros Hu He. unfold exitsEarly in He.
  apply orb_false_elim in He as [He He3]. apply orb_false_elim in He as [He1 He2].
  unfold translateWith. cbv zeta.
  destruct (Z.eqb_spec (flags (typeOf W t)) TypeFlags.NonPrimitive) as [E|_].
  { rewrite E in Hu. discriminate. }
  unfold bind at 1, hasSeen. rewrite He1, He2, He3.
  repeat rewrite (kind_with_union _ _ Hu) by reflexivity.
  destruct (Z.land (flags (typeOf W t)) mask =? TypeFlags.Union); simpl; [done|].
  repeat rewrite (kind_with_union _ _ Hu) by reflexivity.
  simpl. by rewrite Hu.
Qed.

(** C4, as stated, fails: a union type whose symbol makes translate leave
    before the switch is translated to [?], whatever its members are. *)
Lemma C4_counterexample :
  hasFlag (flags (typeOf Examples.moduleWorld 4%nat)) TypeFlags.Union = true ∧
  fst (translate Examples.moduleWorld true None 3 4%nat Examples.freshState)
    = Ok "?" ∧
  fst ((let! parts := mapM (translate Examples.moduleWorld true None 2)
                        (types (typeOf Examples.moduleWorld 4%nat)) in
        ret (unionText (firstOccurrences parts))) Examples.freshState)
    = Ok "(string|number)".
Proof. split_and!; vm_compute; reflexivity. Qed.

(** C4, amended: for every union type, translate returns [?] when one of
    its early exits applies (the type is in the Recursion Set, or its symbol
    is declared in a non-ambient namespace or, in externs mode, in a module
    without being ambient); otherwise it translates the members in order,
    keeps the first occurrence of every resulting string, and returns the
    string that remains if it is the only one, else the strings joined by
    [|] inside one pair of parentheses. *)
Theorem C4_union_translation (W : World) (isForExterns : bool)
  (B : option (gset string)) (t : tid) (st : State) (fuel : nat) :
  hasFlag (flags (typeOf W t)) TypeFlags.Union = true →
  translate W isForExterns B (S fuel) t st =
  if exitsEarly W isForExterns t st then (Ok "?", st)
  else (let! parts := mapM (translate W isForExterns B fuel)
                        (types (typeOf W t)) in
        ret (unionText (firstOccurrences parts))) st.
Proof.
  intros Hu. rewrite translate_S.
  destruct (exitsEarly W isForExterns t st) eqn:He.
  - apply translateWith_exitsEarly; [|done].
    intros E. rewrite E in Hu. discriminate.
  - rewrite translateWith_union by done. apply translateUnion_eq.
Qed.

Lemma C4_union_translation_witness :
  translate Examples.moduleWorld false None 2 4%nat Examples.freshState
  = (Ok "(string|number)", Examples.freshState).
Proof.
  rewrite (C4_union_translation Examples.moduleWorld false None 4%nat
             Examples.freshState 1 eq_refl).
  vm_compute. reflexivity.
Defined.

(** ** Runs of the translator: what is thrown, what the Recursion Set
    becomes, and when the fuel suffices *)

Section Runs.
Context (W : World) (ext : bool) (B : option (gset string)).
Context (E : Error → Prop) (F : Prop).



Section Monad.
Context (I : gset tid → Prop).

Lemma sat_run {A} (m : M A) st :
  sat E F I m → I (seenAnonymousTypes st) → okResult E F I (m st).
Proof. intros H. apply H. Qed.

Lemma sat_ret {A} (a : A) : sat E F I (ret a).
Proof. by intros st HI. Qed.

Lemma sat_throw {A} e : E e → sat E F I (@throw A e).
Proof. by intros He st HI. Qed.

Lemma sat_bind {A C} (m : M A) (k : A → M C) :
  sat E F I m → (∀ a, sat E F I (k a)) → sat E F I (bind m k).
Proof.
  intros Hm Hk st HI. unfold bind. specialize (Hm st HI).
  destruct (m st) as [[a|e|] st']; [|done..].
  destruct Hm as [HI' _]. by apply Hk.
Qed.

Lemma sat_bind_post {A C} (Q : A → Prop) (m : M A) (k : A → M C) :
  (∀ st a st', m st = (Ok a, st') → Q a) →
  sat E F I m → (∀ a, Q a → sat E F I (k a)) → sat E F I (bind m k).
Proof.
  intros HQ Hm Hk st HI. unfold bind. specialize (Hm st HI).
  specialize (HQ st).
  destruct (m st) as [[a|e|] st']; [|done..].
  destruct Hm as [HI' _]. apply Hk; [|done]. by apply (HQ a st').
Qed.

Lemma sat_warn w : sat E F I (warn w).
Proof. by intros st HI. Qed.

Lemma sat_setAlias s a : sat E F I (setAlias s a).
Proof. by intros st HI. Qed.

Lemma sat_updateAliases f : sat E F I (updateAliases f).
Proof. by intros st HI. Qed.

Lemma sat_getAliases : sat E F I getAliases.
Proof. by intros st HI. Qed.

Lemma sat_mapM {A C} (f : A → M C) (xs : list A) :
  (∀ x, x ∈ xs → sat E F I (f x)) → sat E F I (mapM f xs).
Proof.
  induction xs as [|x xs IH]; intros H; simpl; [apply sat_ret|].
  apply sat_bind; [apply H; by left|]. intros y.
  apply sat_bind; [|intros ys; apply sat_ret].
  apply IH. intros z Hz. apply H. by right.
Qed.

Lemma symbolToString_sat s : sat E F I (symbolToString W ext s).
Proof.
  unfold symbolToString. apply sat_bind.
  - destruct (negb ext && _); [apply sat_updateAliases|apply sat_ret].
  - intros _. destruct (symbolToEntityName W s); [|apply sat_ret].
    apply sat_bind; [apply sat_getAliases|intros a; apply sat_ret].
Qed.

Lemma blacklistTypeParameters_sat decls :
  sat E F I (blacklistTypeParameters decls).
Proof.
  destruct decls as [ds|]; [|apply sat_ret]. simpl.
  induction ds as [|tpd ds IH]; simpl; [apply sat_ret|].
  apply sat_bind; [|by intros _].
  destruct (tpSymbol tpd); [apply sat_setAlias|apply sat_warn].
Qed.
End Monad.

Ltac sat_step :=
  lazymatch goal with
  | |- sat _ _ _ (ret _) => apply sat_ret
  | |- sat _ _ _ (warn _) => apply sat_warn
  | |- sat _ _ _ (symbolToString _ _ _) => apply symbolToString_sat
  | |- sat _ _ _ (blacklistTypeParameters _) =>
      apply blacklistTypeParameters_sat
  | |- sat _ _ _ (bind _ _) => apply sat_bind; [|intros ?]
  | |- sat _ _ _ (match ?x with _ => _ end) => destruct x eqn:?
  end.

Lemma translateEnumLiteral_sat I t : sat E F I (translateEnumLiteral W ext t).
Proof. unfold translateEnumLiteral. cbv zeta. repeat sat_step. Qed.

Lemma translateUnion_sat I rec t :
  (∀ u, u ∈ types (typeOf W t) → sat E F I (rec u)) →
  sat E F I (translateUnion W rec t).
Proof.
  intros H. unfold translateUnion. apply sat_bind; [by apply sat_mapM|].
  intros parts. repeat sat_step.
Qed.

Lemma convertParam_sat I rec param paramDecl :
  (∀ u, u ∈ parameterCalls W param → sat E F I (rec u)) →
  (emptyRest W param paramDecl → E MissingTypeArgument) →
  sat E F I (convertParam W rec param paramDecl).
Proof.
  intros H Hempty. unfold convertParam, parameterCalls, emptyRest in *.
  cbv zeta in *.
  destruct (dotDotDotToken paramDecl); repeat sat_step.
  - apply sat_throw, Hempty. split_and!; [done| | |done].
    + by apply Z.eqb_neq.
    + by apply Z.eqb_neq.
  - apply H. right. by left.
  - apply H. by left.
Qed.

Lemma paramsInRange_tail param rest paramDecl paramDecls :
  paramsInRange W (param :: rest) (paramDecl :: paramDecls) →
  paramsInRange W rest paramDecls.
Proof.
  intros [Hlen Hrest]. split; [simpl in Hlen; lia|].
  intros p d Hin. apply Hrest. simpl. by right.
Qed.

Lemma convertParamsFrom_sat I rec paramDecls i params paramTypes :
  (∀ u, u ∈ flat_map (parameterCalls W) params → sat E F I (rec u)) →
  (¬ paramsInRange W params (drop i paramDecls) → missingAllowed E) →
  sat E F I (convertParamsFrom W rec paramDecls i params paramTypes).
Proof.
  revert i paramTypes.
  induction params as [|param rest IH]; intros i paramTypes H Hrange; simpl.
  - apply sat_ret.
  - destruct (paramDecls !! i) as [paramDecl|] eqn:Hi.
    2:{ apply sat_throw, Hrange. intros [Hlen _].
        apply lookup_ge_None in Hi. rewrite length_drop in Hlen.
        simpl in Hlen. lia. }
    rewrite (drop_S _ _ _ Hi) in Hrange.
    apply sat_bind.
    + apply convertParam_sat.
      * intros u Hu. apply H.
        change (u ∈ (parameterCalls W param ++
                     flat_map (parameterCalls W) rest)%list).
        apply elem_of_app. by left.
      * intros Hempty. apply Hrange. intros [_ Hrest].
        apply (Hrest param paramDecl); [|done]. simpl. by left.
    + intros pushed. apply IH.
      * intros u Hu. apply H.
        change (u ∈ (parameterCalls W param ++
                     flat_map (parameterCalls W) rest)%list).
        apply elem_of_app. by right.
      * intros Hn. apply Hrange. intros Hr. apply Hn.
        by apply (paramsInRange_tail param rest paramDecl).
Qed.

Lemma convertParams_sat I rec sig paramDecls :
  (∀ u, u ∈ flat_map (parameterCalls W) (parameters sig) → sat E F I (rec u)) →
  (¬ paramsInRange W (parameters sig) paramDecls → missingAllowed E) →
  sat E F I (convertParams W rec sig paramDecls).
Proof. intros H Hrange. by apply convertParamsFrom_sat. Qed.

Lemma signatureToClosure_sat I rec sig :
  (∀ u, u ∈ signatureCalls W sig → sat E F I (rec u)) →
  (¬ signatureInRange W declsAfterThis sig → missingAllowed E) →
  sat E F I (signatureToClosure W rec sig).
Proof.
  intros H Hrange.
  unfold signatureToClosure, signatureCalls, signatureInRange, declsAfterThis in *.
  cbv zeta.
  destruct (declaration sig) as [decl|]; [|repeat sat_step].
  sat_step; [repeat sat_step|].
  apply bool_decide_eq_false in Heqb.
  sat_step; [sat_step|].
  assert (∀ u, u ∈ flat_map (parameterCalls W) (parameters sig) →
               sat E F I (rec u)) as Hparams.
  { intros u Hu. apply H. apply elem_of_app. right. apply elem_of_app. by left. }
  assert (sat E F I (rec (returnType sig))) as Hret.
  { apply H. apply elem_of_app. right. apply elem_of_app. right. by left. }
  apply (sat_bind_post _ (fun afterThis => snd afterThis = declsAfterThis decl)).
  - intros st afterThis st'. unfold declsAfterThis.
    destruct (default [] (declParameters decl)) as [|maybeThisParam others];
      [by intros [= <- _]|].
    destruct (String.eqb (paramNameText maybeThisParam) "this");
      [|by intros [= <- _]].
    unfold bind at 1.
    destruct (match paramTypeNode maybeThisParam with _ => _ end st)
      as [[typeStr| |] st1]; [|done..].
    by intros [= <- _].
  - destruct (default [] (declParameters decl)) as [|maybeThisParam others];
      [sat_step|].
    destruct (String.eqb (paramNameText maybeThisParam) "this"); [|sat_step].
    sat_step; [|sat_step].
    destruct (paramTypeNode maybeThisParam) as [thisType|]; repeat sat_step.
    apply H. simpl. by left.
  - intros afterThis ->. repeat sat_step; [|done].
    apply convertParams_sat; [done|]. intros Hn. apply Hrange.
    intros Hp. exact (Hn (Hp Heqb)).
Qed.

Lemma gatherFields_sat I rec entries callable indexable fields :
  (∀ u, sat E F I (rec u)) →
  sat E F I (gatherFields W rec entries callable indexable fields).
Proof.
  intros H. revert callable indexable fields.
  induction entries as [|[field member] rest IH]; intros; simpl;
    [apply sat_ret|].
  repeat sat_step; auto.
Qed.

Lemma okResult_weaken (I I' : gset tid → Prop) {A} (x : Res A * State) :
  (∀ s, I' s → I s) → okResult E F I' x → okResult E F I x.
Proof. intros H [H1 H2]. split; [by apply H|done]. Qed.

Lemma gatherFields_calls I rec entries callable indexable fields :
  (∀ e, e ∈ entries → isFieldKey (fst e) = true →
        sat E F I (rec (getTypeOfSymbolAtLocation W (snd e)))) →
  sat E F I (gatherFields W rec entries callable indexable fields).
Proof.
  revert callable indexable fields.
  induction entries as [|[field member] rest IH];
    intros callable indexable fields H; simpl; [apply sat_ret|].
  assert (∀ c i fs, sat E F I (gatherFields W rec rest c i fs)) as Hrest.
  { intros c i fs. apply IH. intros e He. apply H. by right. }
  destruct (String.eqb field "__call") eqn:Hc; [apply Hrest|].
  destruct (String.eqb field "__index") eqn:Hi; [apply Hrest|].
  destruct (isValidClosurePropertyName field) eqn:Hv; simpl.
  - apply sat_bind; [|intros memberType; apply Hrest].
    apply (H (field, member)); [by left|].
    unfold isFieldKey. simpl. by rewrite Hc, Hi, Hv.
  - apply sat_bind; [apply sat_warn|intros _; apply Hrest].
Qed.

(** translateAnonymousType puts the type into the Recursion Set and then
    descends: the calls it makes, on the types of [anonymousCalls], run
    under [I'], which knows of the type. *)
Lemma translateAnonymousType_calls (I I' : gset tid → Prop) rec t st :
  I' ({[t]} ∪ seenAnonymousTypes st) →
  (∀ s, I' s → I s) →
  (¬ typeInRange W t → missingAllowed E) →
  (∀ u, u ∈ anonymousCalls W t → sat E F I' (rec u)) →
  okResult E F I (translateAnonymousType W rec t st).
Proof.
  intros HI' Hw Hrange H. apply (okResult_weaken I I'); [done|].
  unfold translateAnonymousType. unfold bind at 1. simpl.
  apply sat_run; [|done]. cbv zeta.
  unfold typeInRange in Hrange. unfold anonymousCalls in H. cbv zeta in H.
  destruct (symbol (typeOf W t) ≫= _) as [entries|]; [|repeat sat_step].
  destruct (constructSignatures (typeOf W t)) as [|ctor others] eqn:Hctors.
  - assert (∀ sig, getSignaturesOfType W t = [sig] →
                   sat E F I' (signatureToClosure W rec sig)) as Hsig.
    { intros sig Hsigs. rewrite Hsigs in H.
      apply signatureToClosure_sat.
      - intros u Hu. apply H. apply elem_of_app. right.
        apply elem_of_app. by left.
      - intros Hn. apply Hrange. intros [Hcall _]. by apply Hn, Hcall. }
    assert (∀ v, match getIndexTypeOfType W t IndexString with
                 | Some v => Some v
                 | None => getIndexTypeOfType W t IndexNumber
                 end = Some v → sat E F I' (rec v)) as Hindex.
    { intros v Hv. apply H. apply elem_of_app. right. apply elem_of_app.
      right. rewrite Hv. by left. }
    sat_step.
    { apply gatherFields_calls. intros e He Hk. apply H.
      apply elem_of_app. left. apply list_elem_of_fmap. exists e.
      split; [done|]. apply list_elem_of_In, filter_In.
      split; [by apply list_elem_of_In|done]. }
    repeat sat_step; auto.
  - destruct (declaration ctor) as [decl|] eqn:Hdecl; [|repeat sat_step].
    sat_step; [repeat sat_step|].
    assert (∀ u, u ∈ flat_map (parameterCalls W) (parameters ctor) →
                 sat E F I' (rec u)) as Hparams.
    { intros u Hu. apply H. apply elem_of_app. by left. }
    assert (sat E F I' (rec (returnType ctor))) as Hret.
    { apply H. apply elem_of_app. right. by left. }
    apply bool_decide_eq_false in Heqb.
    repeat sat_step; auto.
    apply convertParams_sat; [done|].
    intros Hn. apply Hrange. intros [_ Hctor].
    specialize (Hctor ctor others eq_refl). unfold signatureInRange in Hctor.
    rewrite Hdecl in Hctor. by apply Hn, Hctor.
Qed.

Lemma kind_object_no_union t :
  maskedKind W t = TypeFlags.Object →
  hasFlag (flags (typeOf W t)) TypeFlags.Union = false.
Proof.
  unfold maskedKind, hasFlag. intros Hk.
  rewrite <- (land_mask_flag _ TypeFlags.Union) by reflexivity.
  by rewrite Hk.
Qed.

Lemma kind_union_has_union t :
  maskedKind W t = TypeFlags.Union →
  hasFlag (flags (typeOf W t)) TypeFlags.Union = true.
Proof.
  unfold maskedKind, hasFlag. intros Hk.
  rewrite <- (land_mask_flag _ TypeFlags.Union) by reflexivity.
  by rewrite Hk.
Qed.

Lemma translateObject_calls (I : gset tid → Prop) rec t st :
  I (seenAnonymousTypes st) →
  maskedKind W t = TypeFlags.Object →
  (¬ typeInRange W t → missingAllowed E) →
  (isReferenceLoop W t → E (ReferenceLoop t)) →
  (∀ u, u ∈ unguardedCalls W t → sat E F I (rec u)) →
  (handledAsAnonymous W t = true →
   ∃ I' : gset tid → Prop,
     I' ({[t]} ∪ seenAnonymousTypes st) ∧ (∀ s, I' s → I s) ∧
     ∀ u, u ∈ anonymousCalls W t → sat E F I' (rec u)) →
  okResult E F I (translateObject W ext B rec t st).
Proof.
  intros HI Hk Hmissing Hloop Hcalls Hanon.
  unfold unguardedCalls in Hcalls.
  rewrite (kind_object_no_union t Hk), Hk, Z.eqb_refl in Hcalls.
  unfold handledAsAnonymous in Hanon. rewrite Hk, Z.eqb_refl in Hanon.
  unfold translateObject. cbv zeta.
  destruct (from_option (isBlackListed W B) false (symbol (typeOf W t)));
    [by apply sat_run; [sat_step|]|].
  destruct (hasFlag (objectFlags (typeOf W t)) ObjectFlags.Class) eqn:Hc;
    [by apply sat_run; [repeat sat_step|]|].
  destruct (hasFlag (objectFlags (typeOf W t)) ObjectFlags.Interface) eqn:Hi;
    [by apply sat_run; [repeat sat_step|]|].
  simpl in Hcalls, Hanon.
  destruct (hasFlag (objectFlags (typeOf W t)) ObjectFlags.Reference) eqn:Hr.
  { apply sat_run; [|done].
    sat_step; [sat_step|].
    sat_step; [apply sat_throw, Hloop; split_and!; [done..|]|].
    - by apply bool_decide_eq_true in Heqb0.
    - sat_step; [apply Hcalls; by left|].
      repeat sat_step. apply sat_mapM. intros u Hu. apply Hcalls.
      by right. }
  simpl in Hanon.
  destruct (hasFlag (objectFlags (typeOf W t)) ObjectFlags.Anonymous) eqn:Ha;
    [|by apply sat_run; [repeat sat_step|]].
  destruct (symbol (typeOf W t)) as [s|]; [|by apply sat_run; [repeat sat_step|]].
  simpl in Hanon. unfold isFunctionOrMethod in *.
  destruct (hasFlag (symFlags (symbolOf W s)) SymbolFlags.Function ||
            hasFlag (symFlags (symbolOf W s)) SymbolFlags.Method).
  - apply sat_run; [|done].
    destruct (getSignaturesOfType W t) as [|sig [|? ?]] eqn:Hsigs;
      [repeat sat_step| |repeat sat_step].
    apply signatureToClosure_sat; [done|].
    intros Hn. apply Hmissing. intros [Hcall _]. by apply Hn, Hcall.
  - destruct (Hanon eq_refl) as (I' & HI' & Hw & Hrec).
    by apply (translateAnonymousType_calls I I').
Qed.

(** One call of translate: the calls listed by [unguardedCalls] run under
    the same [I]; a type that goes to translateAnonymousType was not in the
    Recursion Set, and the calls below it, on the types of
    [anonymousCalls], run with the type in the set.  What the call itself
    throws is the error of its own type, which [E] must allow. *)
Lemma translateWith_calls (I : gset tid → Prop) rec t st :
  I (seenAnonymousTypes st) →
  (¬ typeInRange W t → missingAllowed E) →
  (isReferenceLoop W t → E (ReferenceLoop t)) →
  (hasUnmatchedFlags W t → E (UnknownTypeFlags t)) →
  (∀ u, u ∈ unguardedCalls W t → sat E F I (rec u)) →
  (handledAsAnonymous W t = true → t ∉ seenAnonymousTypes st →
   ∃ I' : gset tid → Prop,
     I' ({[t]} ∪ seenAnonymousTypes st) ∧ (∀ s, I' s → I s) ∧
     ∀ u, u ∈ anonymousCalls W t → sat E F I' (rec u)) →
  okResult E F I (translateWith W ext B rec t st).
Proof.
  intros HI Hmissing Hloop Hflags Hcalls Hanon.
  unfold translateWith. cbv zeta.
  destruct (flags (typeOf W t) =? TypeFlags.NonPrimitive);
    [by apply sat_run; [sat_step|]|].
  unfold bind at 1, hasSeen.
  destruct (bool_decide (t ∈ seenAnonymousTypes st)) eqn:Hseen; [done|].
  apply bool_decide_eq_false in Hseen.
  destruct (declIsInNamespace W (typeOf W t) && negb (declIsAmbient W (typeOf W t)));
    [done|].
  destruct (ext && declIsModule W (typeOf W t) && negb (declIsAmbient W (typeOf W t)));
    [done|].
  fold (maskedKind W t).
  repeat match goal with
  | |- context [maskedKind W t =? ?c] =>
      destruct (Z.eqb_spec (maskedKind W t) c);
      rewrite ?orb_true_l, ?orb_true_r, ?orb_false_l;
      [first [ by apply sat_run; [repeat sat_step|]
             | apply translateObject_calls; auto
             | apply sat_run; [|done]; apply translateUnion_sat;
               intros u Hu; apply Hcalls; unfold unguardedCalls;
               by rewrite kind_union_has_union ]|]
  end.
  apply sat_run; [|done].
  destruct (hasFlag (flags (typeOf W t)) TypeFlags.Union) eqn:Hu.
  { apply translateUnion_sat. intros u Hin. apply Hcalls.
    unfold unguardedCalls. by rewrite Hu. }
  destruct (hasFlag (flags (typeOf W t)) TypeFlags.EnumLiteral) eqn:Hl;
    [apply translateEnumLiteral_sat|].
  apply sat_throw, Hflags. split_and!; [|done..].
  unfold switchCases. rewrite !not_elem_of_cons. split_and!; try done.
  apply not_elem_of_nil.
Qed.

Lemma sat_errors (E' : Error → Prop) (I : gset tid → Prop) {A} (m : M A) :
  (∀ e, E' e → E e) → sat E' F I m → sat E F I m.
Proof.
  intros HE Hm st HI. destruct (Hm st HI) as [H1 H2]. split; [done|].
  destruct (fst (m st)); [done|by apply HE|done].
Qed.

(** The errors that the functions throw are allowed by [E]. *)
Hypothesis E_missing : ∀ t, ¬ typeInRange W t → missingAllowed E.
Hypothesis E_loop : ∀ t, isReferenceLoop W t → E (ReferenceLoop t).
Hypothesis E_flags : ∀ t, hasUnmatchedFlags W t → E (UnknownTypeFlags t).

Lemma translateWith_ok (I : gset tid → Prop) rec t st :
  I (seenAnonymousTypes st) →
  (∀ u, u ∈ unguardedCalls W t → sat E F I (rec u)) →
  (handledAsAnonymous W t = true → t ∉ seenAnonymousTypes st →
   ∃ I' : gset tid → Prop,
     I' ({[t]} ∪ seenAnonymousTypes st) ∧ (∀ s, I' s → I s) ∧
     ∀ u, sat E F I' (rec u)) →
  okResult E F I (translateWith W ext B rec t st).
Proof.
  intros HI Hcalls Hanon.
  apply translateWith_calls; [done|apply E_missing|apply E_loop|apply E_flags
                             |done|].
  intros Ha Hseen. destruct (Hanon Ha Hseen) as (I' & HI' & Hw & Hrec).
  exists I'. split_and!; [done..|]. intros u _. apply Hrec.
Qed.
End Runs.

(** ** What translate throws *)

(** What a call of translate throws is thrown at a type that the
    translation reaches, in the situation of that type. *)
Lemma translate_thrown_below W ext B fuel t :
  sat (thrownBelow W t) True (fun _ => True) (translate W ext B fuel t).
Proof.
  revert t. induction fuel as [|fuel IH]; intros t st HI; [done|].
  assert (∀ u, u ∈ callsOf W t →
            sat (thrownBelow W t) True (fun _ => True)
              (translate W ext B fuel u)) as Hcalls.
  { intros u Hu. apply (sat_errors _ _ (thrownBelow W u)); [|apply IH].
    intros e (v & Hv & He). exists v. split; [|done].
    by apply (rtc_l _ _ u). }
  rewrite translate_S. apply translateWith_calls; [done|..].
  - intros Hn. split; [intros i|]; exists t; by split.
  - intros Hl. exists t. by split.
  - intros Hf. exists t. by split.
  - intros u Hu. apply Hcalls. apply elem_of_app. by left.
  - intros Ha _. exists (fun _ => True). split_and!; [done..|].
    intros u Hu. apply Hcalls. apply elem_of_app. right. by rewrite Ha.
Qed.

(** ** The Recursion Set *)

Lemma seenObjectsOnly_add W t seen :
  handledAsAnonymous W t = true →
  seenObjectsOnly W seen → seenObjectsOnly W ({[t]} ∪ seen).
Proof.
  intros Ha Hs u Hu. apply elem_of_union in Hu as [Hu|Hu]; [|by apply Hs].
  apply elem_of_singleton in Hu as ->.
  unfold handledAsAnonymous in Ha.
  repeat (apply andb_prop in Ha as [Ha _]).
  by apply Z.eqb_eq in Ha.
Qed.

(** The Recursion Set only grows, and keeps holding object types only. *)
Lemma translate_seen W ext B fuel t (S0 : gset tid) :
  sat (fun _ => True) True (fun s => seenObjectsOnly W s ∧ S0 ⊆ s)
    (translate W ext B fuel t).
Proof.
  revert t. induction fuel as [|fuel IH]; intros t st HI; [done|].
  rewrite translate_S.
  apply translateWith_ok; [done..|intros u _; apply IH|].
  intros Ha _. exists (fun s => seenObjectsOnly W s ∧ S0 ⊆ s).
  split_and!; [| |done|apply IH].
  - apply seenObjectsOnly_add; [done|]. apply HI.
  - destruct HI as [_ HI]. set_solver.
Qed.

Lemma seen_has_flags W st t :
  seenObjectsOnly W (seenAnonymousTypes st) →
  t ∈ seenAnonymousTypes st →
  flags (typeOf W t) ≠ TypeFlags.NonPrimitive.
Proof.
  intros Hs Ht E. specialize (Hs t Ht). unfold maskedKind in Hs.
  rewrite E in Hs. discriminate.
Qed.

(** With the guard of the Recursion Set on every cycle, translate needs no
    more fuel than the types still outside the set allow. *)
Lemma translate_terminates W ext B rank R A :
  Guarded W rank R A →
  ∀ fuel t (S0 : gset tid),
    (size (A ∖ S0) * S R + rank t < fuel)%nat →
    sat (fun _ => True) False (fun s => S0 ⊆ s) (translate W ext B fuel t).
Proof.
  intros [Hcalls Hbound Hanon].
  induction fuel as [|fuel IH]; intros t S0 Hfuel st HI; [lia|].
  rewrite translate_S.
  apply translateWith_ok; [done..| |].
  - intros u Hu. apply IH. specialize (Hcalls t u Hu). lia.
  - intros Ha Hseen. exists (fun s => {[t]} ∪ S0 ⊆ s).
    split_and!; [set_solver|set_solver|].
    intros u. apply IH.
    assert (size (A ∖ ({[t]} ∪ S0)) < size (A ∖ S0))%nat as Hlt.
    { apply subset_size. specialize (Hanon t Ha). set_solver. }
    specialize (Hbound u). nia.
Qed.

Lemma withSeen_twice t st : withSeen t (withSeen t st) = withSeen t st.
Proof.
  unfold withSeen. simpl. f_equal.
  apply set_eq. intros x. rewrite !elem_of_union. tauto.
Qed.

Lemma bind_add_first {A} t (k : unit → M A) st :
  bind (addSeenAnonymousType t) k st =
  bind (addSeenAnonymousType t) k (withSeen t st).
Proof.
  unfold bind, addSeenAnonymousType. simpl.
  change (k tt (withSeen t st) = k tt (withSeen t (withSeen t st))).
  by rewrite withSeen_twice.
Qed.

(** translateAnonymousType starts by putting its type into the set: it
    runs as it does from the state that holds the type already. *)
Lemma translateAnonymousType_adds_first W rec t st :
  translateAnonymousType W rec t st =
  translateAnonymousType W rec t (withSeen t st).
Proof. unfold translateAnonymousType. apply bind_add_first. Qed.

Lemma translate_seen_hit W ext B st t fuel :
  seenObjectsOnly W (seenAnonymousTypes st) →
  t ∈ seenAnonymousTypes st →
  translate W ext B (S fuel) t st = (Ok "?", st).
Proof.
  intros Hs Ht. rewrite translate_S.
  apply translateWith_exitsEarly; [by apply (seen_has_flags W st)|].
  unfold exitsEarly. by rewrite bool_decide_eq_true_2.
Qed.

(** translate hands an anonymous object type whose symbol is no function
    or method to translateAnonymousType, unless an early exit or the
    blacklist applies. *)
Lemma translate_anonymous W ext B fuel t st :
  handledAsAnonymous W t = true →
  exitsEarly W ext t st = false →
  from_option (isBlackListed W B) false (symbol (typeOf W t)) = false →
  translate W ext B (S fuel) t st =
  translateAnonymousType W (translate W ext B fuel) t st.
Proof.
  unfold handledAsAnonymous. cbv zeta. intros Ha He Hb.
  apply andb_prop in Ha as [Ha Hs]. apply andb_prop in Ha as [Ha Hanon].
  apply andb_prop in Ha as [Ha Hr]. apply andb_prop in Ha as [Ha Hi].
  apply andb_prop in Ha as [Hk Hc]. apply Z.eqb_eq in Hk.
  apply negb_true_iff in Hc, Hi, Hr.
  rewrite translate_S, translateWith_object by done.
  unfold translateObject. cbv zeta. rewrite Hb, Hc, Hi, Hr, Hanon.
  destruct (symbol (typeOf W t)) as [s|]; [|done]. simpl in Hs.
  apply negb_true_iff in Hs. unfold isFunctionOrMethod in Hs. by rewrite Hs.
Qed.

(** The recursion point of [type T = {self: T}] is written as [?]. *)
Example recursiveWorld_translation :
  fst (translate Examples.recursiveWorld false None 2 O Examples.freshState)
  = Ok "{self: ?}".
Proof. vm_compute. reflexivity. Qed.

(** The type of the function [f] in [function f(x: typeof f)] is an
    anonymous object type that translateObject hands to signatureToClosure
    without an entry in the Recursion Set, and the type of its parameter is
    that type again: no fuel suffices. *)
Lemma functionWorld_loops fuel st :
  (1%nat ∉ seenAnonymousTypes st) →
  translate Examples.functionWorld false None fuel 1%nat st = (OutOfFuel, st).
Proof.
  revert st. induction fuel as [|fuel IH]; intros st Hseen; [done|].
  rewrite translate_S. unfold translateWith. simpl.
  unfold bind at 1, hasSeen. rewrite bool_decide_eq_false_2 by done.
  unfold translateObject. simpl.
  unfold signatureToClosure. simpl.
  unfold convertParams, bind. simpl.
  unfold convertParam, bind. simpl.
  by rewrite (IH st Hseen).
Qed.

Lemma functionWorld_literal (rec : tid → M string) :
  (∀ st, 1%nat ∉ seenAnonymousTypes st → rec 1%nat st = (OutOfFuel, st)) →
  fst (translateWith Examples.functionWorld false None rec O Examples.freshState)
  = OutOfFuel.
Proof.
  intros Hrec. unfold translateWith. simpl.
  unfold bind at 1, hasSeen. simpl.
  rewrite bool_decide_eq_false_2 by apply not_elem_of_empty.
  unfold translateObject. simpl.
  unfold translateAnonymousType, bind at 1. simpl.
  unfold bind at 1. simpl. unfold bind at 1.
  rewrite Hrec; [done|].
  simpl. set_solver.
Qed.

(** C1 fails on the code for a recursive anonymous member that is the
    type of a function.  The literal [{f: typeof f}], with
    [function f(x: typeof f): void], has the member [f], whose type is an
    anonymous object type that calls translate on itself; the type is never
    put into the Recursion Set, and translate of the literal does not
    terminate, whatever the fuel. *)
Theorem C1_function_member_never_returns :
  members (symbolOf Examples.functionWorld O) = Some [("f", 1%nat)] ∧
  getTypeOfSymbolAtLocation Examples.functionWorld 1%nat = 1%nat ∧
  hasFlag (objectFlags (typeOf Examples.functionWorld 1%nat))
    ObjectFlags.Anonymous = true ∧
  1%nat ∈ unguardedCalls Examples.functionWorld 1%nat ∧
  ∀ fuel,
    fst (translate Examples.functionWorld false None fuel O Examples.freshState)
    = OutOfFuel.
Proof.
  split_and!; [reflexivity..| |].
  - vm_compute. by left.
  - intros [|fuel]; [reflexivity|].
    rewrite translate_S. apply functionWorld_literal.
    intros st Hst. by apply functionWorld_loops.
Qed.


Lemma recursiveWorld_guarded :
  Guarded Examples.recursiveWorld (fun _ => O) O {[ O ]}.
Proof.
  split.
  - intros [|t] u Hu; vm_compute in Hu; by apply elem_of_nil in Hu.
  - done.
  - intros [|t] Ht; [by apply elem_of_singleton|discriminate].
Qed.


(** ** Errors *)

(** The two situations do throw, where translate gets to them. *)
Lemma translate_reference_loop W ext B fuel t st :
  maskedKind W t = TypeFlags.Object →
  exitsEarly W ext t st = false →
  from_option (isBlackListed W B) false (symbol (typeOf W t)) = false →
  hasFlag (objectFlags (typeOf W t)) ObjectFlags.Class = false →
  hasFlag (objectFlags (typeOf W t)) ObjectFlags.Interface = false →
  hasFlag (objectFlags (typeOf W t)) ObjectFlags.Reference = true →
  hasFlag (objectFlags (typeOf W t)) ObjectFlags.Tuple = false →
  target (typeOf W t) = t →
  translate W ext B (S fuel) t st = (Throw (ReferenceLoop t), st).
Proof.
  intros Hk He Hb Hc Hi Hr Ht Hl.
  rewrite translate_S, translateWith_object by done.
  unfold translateObject. cbv zeta.
  rewrite Hb, Hc, Hi, Hr, Hl, Ht.
  by rewrite bool_decide_eq_true_2.
Qed.

(** A type whose kind bits match no case of the switch, and that has
    neither the union nor the enum-literal bit, makes translate throw,
    unless an early exit applies; the state stays as it is. *)
Lemma translate_unmatched_flags W ext B fuel t st :
  hasUnmatchedFlags W t →
  flags (typeOf W t) ≠ TypeFlags.NonPrimitive →
  exitsEarly W ext t st = false →
  translate W ext B (S fuel) t st = (Throw (UnknownTypeFlags t), st).
Proof.
  intros (Hk & Hu & Hl) Hnp He. unfold exitsEarly in He.
  apply orb_false_elim in He as [He He3]. apply orb_false_elim in He as [He1 He2].
  rewrite translate_S. unfold translateWith. cbv zeta.
  destruct (Z.eqb_spec (flags (typeOf W t)) TypeFlags.NonPrimitive); [done|].
  unfold bind at 1, hasSeen. rewrite He1, He2, He3.
  fold (maskedKind W t).
  unfold switchCases in Hk. rewrite !not_elem_of_cons in Hk.
  repeat match goal with
  | |- context [maskedKind W t =? ?c] =>
      destruct (Z.eqb_spec (maskedKind W t) c); [tauto|]
  end.
  simpl. by rewrite Hu, Hl.
Qed.




(** ** Type references *)

(** An object type whose symbol is blacklisted is translated to [?], and
    the state, warnings included, stays as it is. *)
Lemma translate_blacklisted_object W ext B fuel t s st :
  maskedKind W t = TypeFlags.Object →
  symbol (typeOf W t) = Some s →
  isBlackListed W B s = true →
  translate W ext B (S fuel) t st = (Ok "?", st).
Proof.
  intros Hk Hs Hb. rewrite translate_S.
  destruct (exitsEarly W ext t st) eqn:He.
  - apply translateWith_exitsEarly; [|done].
    intros E. unfold maskedKind in Hk. rewrite E in Hk. discriminate.
  - rewrite translateWith_object by done.
    by apply (translateObject_blacklisted _ _ _ _ _ s).
Qed.

(** ** convertParams *)

Lemma convertParamsFrom_short W rec paramDecls params :
  ∀ i paramTypes st l,
    (length (drop i paramDecls) < length params)%nat →
    fst (convertParamsFrom W rec paramDecls i params paramTypes st) ≠ Ok l.
Proof.
  induction params as [|param rest IH]; intros i paramTypes st l Hlen;
    simpl in *; [lia|].
  destruct (paramDecls !! i) as [paramDecl|] eqn:Hi; [|done].
  unfold bind.
  destruct (convertParam W rec param paramDecl st) as [[pushed| |] st1];
    [|done..].
  apply IH. rewrite (drop_S _ _ _ Hi) in Hlen. simpl in Hlen. lia.
Qed.

Lemma convertParamsFrom_paired W rec paramDecls params :
  ∀ i paramTypes st,
    (length params ≤ length (drop i paramDecls))%nat →
    convertParamsFrom W rec paramDecls i params paramTypes st =
    (let! pushed :=
       mapM (fun pd => convertParam W rec (fst pd) (snd pd))
         (zip params (drop i paramDecls)) in
     ret (paramTypes ++ omap id pushed)%list) st.
Proof.
  induction params as [|param rest IH]; intros i paramTypes st Hlen; simpl.
  - unfold bind, ret. simpl. by rewrite app_nil_r.
  - destruct (paramDecls !! i) as [paramDecl|] eqn:Hi.
    2:{ apply lookup_ge_None in Hi. rewrite length_drop in Hlen.
        simpl in Hlen. lia. }
    rewrite (drop_S _ _ _ Hi) in *. simpl in *.
    unfold bind at 1 2 3.
    destruct (convertParam W rec param paramDecl st) as [[pushed| |] st1];
      [|done..].
    rewrite IH by lia. unfold bind.
    destruct (mapM _ _ st1) as [[rest'| |] st2]; [|done..].
    unfold ret. f_equal. f_equal.
    destruct pushed; simpl; by rewrite <- app_assoc.
Qed.

Lemma convertParam_pushes W rec param paramDecl st pushed st1 :
  convertParam W rec param paramDecl st = (Ok pushed, st1) →
  (pushed = None ↔ isSkipped W param paramDecl = true).
Proof.
  unfold convertParam, isSkipped. cbv zeta.
  destruct (dotDotDotToken paramDecl); simpl.
  - destruct (Z.land (flags _) TypeFlags.Object =? 0); simpl.
    { unfold bind, warn, ret. intros [= <- _]. done. }
    destruct (Z.land (objectFlags _) ObjectFlags.Reference =? 0); simpl.
    { unfold bind, warn, ret. intros [= <- _]. done. }
    destruct (typeArguments _) as [[|arg args]|]; simpl.
    + done.
    + unfold bind. destruct (rec arg st) as [[s| |] st2]; [|done..].
      intros [= <- _]. done.
    + intros [= <- _]. done.
  - unfold bind. destruct (rec _ st) as [[s| |] st2]; [|done..].
    intros [= <- _]. done.
Qed.

Lemma mapM_convertParam_length W rec pairs :
  ∀ st pushed st1,
    mapM (fun pd => convertParam W rec (fst pd) (snd pd)) pairs st
      = (Ok pushed, st1) →
    length (omap id pushed) =
    length (filter (fun pd => isSkipped W (fst pd) (snd pd) = false) pairs).
Proof.
  induction pairs as [|[param paramDecl] rest IH]; intros st pushed st1; simpl.
  - by intros [= <- _].
  - unfold bind at 1.
    destruct (convertParam W rec param paramDecl st) as [[p| |] st2] eqn:Hp;
      [|done..].
    unfold bind at 1.
    destruct (mapM _ rest st2) as [[ps| |] st3] eqn:Hps; [|done..].
    intros [= <- _]. specialize (IH _ _ _ Hps).
    apply convertParam_pushes in Hp. rewrite filter_cons. cbn [fst snd].
    destruct p as [s|].
    + change (omap id (Some s :: ps)) with (s :: omap id ps).
      destruct (decide (isSkipped W param paramDecl = false)) as [_|Hn].
      * simpl length. by rewrite IH.
      * destruct Hp as [_ Hp].
        destruct (isSkipped W param paramDecl); [by specialize (Hp eq_refl)|done].
    + change (omap id (None :: ps)) with (omap id ps).
      destruct Hp as [Hp _]. specialize (Hp eq_refl).
      destruct (decide (isSkipped W param paramDecl = false)) as [Hn|_];
        [congruence|exact IH].
Qed.

Lemma convertParamsFrom_missing W rec paramDecls params :
  (∀ param paramDecl st, ∃ pushed st1,
     convertParam W rec param paramDecl st = (Ok pushed, st1)) →
  ∀ i paramTypes st,
    (i ≤ length paramDecls)%nat →
    (length paramDecls - i < length params)%nat →
    fst (convertParamsFrom W rec paramDecls i params paramTypes st)
    = Throw (MissingParameterDeclaration (length paramDecls)).
Proof.
  intros Hconv.
  induction params as [|param rest IH]; intros i paramTypes st Hi Hlen;
    simpl in *; [lia|].
  destruct (paramDecls !! i) as [paramDecl|] eqn:Hd.
  - apply lookup_lt_Some in Hd. unfold bind.
    destruct (Hconv param paramDecl st) as (pushed & st1 & ->).
    apply IH; lia.
  - apply lookup_ge_None in Hd. simpl. do 2 f_equal. lia.
Qed.

Lemma convertParamsFrom_returns W rec paramDecls params :
  (∀ u st, ∃ s st1, rec u st = (Ok s, st1)) →
  ∀ i paramTypes st,
    paramsInRange W params (drop i paramDecls) →
    ∃ l st1,
      convertParamsFrom W rec paramDecls i params paramTypes st = (Ok l, st1).
Proof.
  intros Hrec.
  induction params as [|param rest IH]; intros i paramTypes st Hrange; simpl.
  - by eexists _, _.
  - destruct (paramDecls !! i) as [paramDecl|] eqn:Hi.
    2:{ destruct Hrange as [Hlen _]. apply lookup_ge_None in Hi.
        rewrite length_drop in Hlen. simpl in Hlen. lia. }
    rewrite (drop_S _ _ _ Hi) in Hrange.
    assert (∃ pushed st1,
              convertParam W rec param paramDecl st = (Ok pushed, st1))
      as (pushed & st1 & Hp).
    { destruct Hrange as [_ Hrest].
      specialize (Hrest param paramDecl (list_elem_of_here _ _)).
      unfold convertParam, emptyRest in *. cbv zeta in *.
      destruct (dotDotDotToken paramDecl).
      - destruct (Z.eqb_spec (Z.land (flags (typeOf W
                    (getTypeOfSymbolAtLocation W param))) TypeFlags.Object) 0);
          [by eexists _, _|].
        destruct (Z.eqb_spec (Z.land (objectFlags (typeOf W
                    (getTypeOfSymbolAtLocation W param)))
                    ObjectFlags.Reference) 0);
          [by eexists _, _|].
        destruct (typeArguments _) as [[|arg args]|]; [tauto| |by eexists _, _].
        unfold bind. destruct (Hrec arg st) as (s & st1 & ->). by eexists _, _.
      - unfold bind.
        destruct (Hrec (getTypeOfSymbolAtLocation W param) st) as (s & st1 & ->).
        by eexists _, _. }
    unfold bind. rewrite Hp. apply IH.
    by apply (paramsInRange_tail W param rest paramDecl).
Qed.

(** C10: convertParams reads paramDecls[i] for every parameter of the
    signature without a test of the length.  With fewer declarations than
    parameters it never returns: it ends in the TypeError of the missing
    declaration, at the index that is the length of paramDecls, once the
    parameters before it are converted.  With at least as many declarations
    as parameters no declaration is missing: the parameters are converted
    each with its own declaration, in index order, the result has one
    entry for every parameter that is not skipped, and there is a result
    when the calls of translate return and no rest parameter has an empty
    list of type arguments. *)
Theorem C10_convertParams (W : World) (rec : tid → M string) (sig : Signature)
  (paramDecls : list ParameterDeclaration) (st : State) :
  ((length paramDecls < length (parameters sig))%nat →
   (∀ l, fst (convertParams W rec sig paramDecls st) ≠ Ok l) ∧
   ((∀ param paramDecl st0, ∃ pushed st1,
       convertParam W rec param paramDecl st0 = (Ok pushed, st1)) →
    fst (convertParams W rec sig paramDecls st)
    = Throw (MissingParameterDeclaration (length paramDecls)))) ∧
  ((length (parameters sig) ≤ length paramDecls)%nat →
   convertParams W rec sig paramDecls st =
     convertParamsPaired W rec (zip (parameters sig) paramDecls) st ∧
   (∀ l, fst (convertParams W rec sig paramDecls st) = Ok l →
      length l =
      length (filter (fun pd => isSkipped W (fst pd) (snd pd) = false)
                (zip (parameters sig) paramDecls))) ∧
   ((∀ u st0, ∃ s st1, rec u st0 = (Ok s, st1)) →
    paramsInRange W (parameters sig) paramDecls →
    ∃ l st1, convertParams W rec sig paramDecls st = (Ok l, st1))).
Proof.
  unfold convertParams. split.
  - intros Hlen. split.
    + intros l. by apply convertParamsFrom_short.
    + intros Hconv. apply convertParamsFrom_missing; [done|lia..].
  - intros Hlen.
    assert (convertParamsFrom W rec paramDecls 0 (parameters sig) [] st =
            convertParamsPaired W rec (zip (parameters sig) paramDecls) st)
      as Heq.
    { by rewrite convertParamsFrom_paired. }
    split_and!; [done| |].
    + intros l. rewrite Heq. unfold convertParamsPaired, bind.
      destruct (mapM _ _ st) as [[pushed| |] st1] eqn:Hm; [|done..].
      simpl. intros [= <-].
      by apply (mapM_convertParam_length W rec _ st _ st1).
    + intros Hrec Hrange. by apply convertParamsFrom_returns.
Qed.

Lemma C10_convertParams_witness :
  fst (convertParams Examples.fooWorld (fun _ => ret "number")
         Examples.twoParameters [Examples.parameter "a"] Examples.freshState)
    = Throw (MissingParameterDeclaration 1) ∧
  convertParams Examples.fooWorld (fun _ => ret "number")
    Examples.twoParameters [Examples.parameter "a"; Examples.parameter "b"]
    Examples.freshState
    = (Ok ["number"; "number"], Examples.freshState).
Proof.
  split.
  - apply (C10_convertParams Examples.fooWorld (fun _ => ret "number")
             Examples.twoParameters [Examples.parameter "a"]
             Examples.freshState).
    + simpl. lia.
    + intros param paramDecl st0. unfold convertParam. simpl.
      destruct (dotDotDotToken paramDecl); simpl; eauto.
  - destruct (C10_convertParams Examples.fooWorld (fun _ => ret "number")
                Examples.twoParameters
                [Examples.parameter "a"; Examples.parameter "b"]
                Examples.freshState) as [_ H].
    destruct H as [H _]; [simpl; lia|].
    rewrite H. reflexivity.
Defined.

(** ** Texts without a parameterized unknown *)

Lemma prefix_String (a b : ascii) (s1 s2 : string) :
  String.prefix (String a s1) (String b s2) =
  if ascii_dec a b then String.prefix s1 s2 else false.
Proof. reflexivity. Qed.

Lemma prefix_unknown (c : ascii) (r : string) :
  String.prefix "?<" (String c r) = Ascii.eqb c "?" && firstIs "<" r.
Proof.
  rewrite prefix_String. destruct (ascii_dec "?" c) as [<-|Hne].
  - rewrite Ascii.eqb_refl. destruct r as [|d r]; [reflexivity|].
    rewrite prefix_String. unfold firstIs.
    destruct (ascii_dec "<" d) as [<-|Hne].
    + rewrite Ascii.eqb_refl. by destruct r.
    + assert (Ascii.eqb d "<" = false) as ->; [|done].
      apply Ascii.eqb_neq. congruence.
  - assert (Ascii.eqb c "?" = false) as ->; [|done].
    apply Ascii.eqb_neq. congruence.
Qed.

Lemma containsString_cons (c : ascii) (r : string) :
  containsString "?<" (String c r) =
  Ascii.eqb c "?" && firstIs "<" r || containsString "?<" r.
Proof.
  change (containsString "?<" (String c r))
    with (String.prefix "?<" (String c r) || containsString "?<" r).
  by rewrite prefix_unknown.
Qed.

Lemma append_String (c : ascii) (a b : string) :
  String c a +:+ b = String c (a +:+ b).
Proof. reflexivity. Qed.

Lemma append_empty (b : string) : "" +:+ b = b.
Proof. reflexivity. Qed.

Lemma containsString_app (a b : string) :
  containsString "?<" (a +:+ b) =
  containsString "?<" a || containsString "?<" b ||
  lastIs "?" a && firstIs "<" b.
Proof.
  induction a as [|c a IH].
  - rewrite append_empty. simpl. by rewrite orb_false_r.
  - rewrite append_String, !containsString_cons, IH.
    destruct a as [|d a].
    + rewrite append_empty. simpl.
      destruct (Ascii.eqb c "?"), (firstIs "<" b), (containsString "?<" b);
        reflexivity.
    + rewrite append_String.
      change (firstIs "<" (String d (a +:+ b))) with (firstIs "<" (String d a)).
      change (lastIs "?" (String c (String d a))) with (lastIs "?" (String d a)).
      destruct (Ascii.eqb c "?" && firstIs "<" (String d a)),
        (containsString "?<" (String d a)), (containsString "?<" b);
        reflexivity.
Qed.

Lemma unparameterized_app (a b : string) :
  unparameterized a → unparameterized b → unparameterized (a +:+ b).
Proof.
  intros [Ha1 Ha2] [Hb1 Hb2]. split.
  - by rewrite containsString_app, Ha1, Hb1, Hb2, andb_false_r.
  - destruct a as [|c a]; [done|]. by rewrite append_String.
Qed.

Lemma unparameterized_join (sep : string) (parts : list string) :
  unparameterized sep → Forall unparameterized parts →
  unparameterized (join sep parts).
Proof.
  intros Hsep. induction 1 as [|x parts Hx Hparts IH]; [done|].
  unfold join in *. simpl. destruct parts as [|y parts]; [done|].
  apply unparameterized_app; [done|]. by apply unparameterized_app.
Qed.

Lemma plainText_cons (c : ascii) (r : string) :
  plainText (String c r) = true →
  Ascii.eqb c "?" = false ∧ Ascii.eqb c "<" = false ∧ plainText r = true.
Proof.
  unfold plainText. simpl. intros H.
  apply andb_prop in H as [H Hr]. apply andb_prop in H as [H1 H2].
  by apply negb_true_iff in H1, H2.
Qed.

Lemma plainText_app (a b : string) :
  plainText a = true → plainText b = true → plainText (a +:+ b) = true.
Proof.
  intros Ha Hb. induction a as [|c a IH]; [done|].
  rewrite append_String. apply plainText_cons in Ha as (H1 & H2 & Ha).
  unfold plainText in *. simpl. by rewrite H1, H2, IH.
Qed.

Lemma plainText_dropString (n : nat) (s : string) :
  plainText s = true → plainText (dropString n s) = true.
Proof.
  revert s. induction n as [|n IH]; intros [|c s] H; simpl; try done.
  apply IH. by apply plainText_cons in H as (_ & _ & H).
Qed.

Lemma plainText_unparameterized (s : string) :
  plainText s = true → unparameterized s.
Proof.
  intros H. split.
  - induction s as [|c s IH]; [done|].
    apply plainText_cons in H as (H1 & _ & H).
    by rewrite containsString_cons, H1, IH.
  - destruct s as [|c s]; [done|]. by apply plainText_cons in H as (_ & H & _).
Qed.

Lemma plainText_lastIs (s : string) :
  plainText s = true → lastIs "?" s = false.
Proof.
  induction s as [|c s IH]; [done|]. intros H.
  apply plainText_cons in H as (H1 & _ & H). simpl.
  destruct s; [done|by apply IH].
Qed.

Lemma writtenName_unparameterized (n : string) :
  writtenName n → unparameterized n.
Proof.
  intros [H|(r & -> & H)]; [by apply plainText_unparameterized|].
  destruct (plainText_unparameterized r H) as [H1 H2]. split; [|done].
  change ("?" +:+ r) with (String "?" r).
  by rewrite containsString_cons, H1, H2.
Qed.

Lemma writtenName_app (n p : string) :
  writtenName n → plainText p = true → writtenName (n +:+ p).
Proof.
  intros [H|(r & -> & H)] Hp.
  - left. by apply plainText_app.
  - right. exists (r +:+ p). split; [done|]. by apply plainText_app.
Qed.

Lemma stripClutzNamespace_plain (n : string) :
  plainText n = true → plainText (stripClutzNamespace n) = true.
Proof.
  intros H. unfold stripClutzNamespace.
  destruct (String.prefix clutzNamespace n); [|done].
  by apply plainText_dropString.
Qed.

Lemma stripClutzNamespace_written (n : string) :
  writtenName n → writtenName (stripClutzNamespace n).
Proof.
  intros [H|(r & -> & H)].
  - left. by apply stripClutzNamespace_plain.
  - right. by exists r.
Qed.

Lemma truthy_Some (o : option string) (s : string) :
  truthy o = Some s → o = Some s.
Proof.
  destruct o as [x|]; [|done]. simpl.
  by destruct (isEmptyString x); [|intros [= ->]].
Qed.

Section Unparameterized.
Context (W : World) (ext : bool) (B : option (gset string)).
Hypothesis checked : CheckerWorld W ext.

Lemma identifiersOf_qualified (l : EntityName) (r i : IdentifierWithSymbol) :
  i ∈ identifiersOf (QualifiedName l r) ↔ i ∈ identifiersOf l ∨ i = r.
Proof.
  unfold identifiersOf. simpl.
  rewrite !elem_of_cons, elem_of_app, list_elem_of_singleton. tauto.
Qed.

(** *** The names that symbolToString writes *)

Lemma writeIdentifier_written aliases i str :
  aliasesPlain W aliases →
  plainText (getIdentifierText W i) = true →
  writtenName str →
  writtenName (writeIdentifier W ext aliases i str).
Proof.
  intros Ha Hi Hstr. unfold writeIdentifier. cbv zeta.
  destruct (truthy (aliases !! identifierSymbol W i)) as [alias|] eqn:E.
  - apply truthy_Some, Ha in E as [E|[-> _]]; [by left|].
    right. by exists "".
  - apply writtenName_app; [done|].
    destruct (String.length str =? 0)%nat; [|done].
    apply plainText_app; [apply (prefix_plain W ext checked)|done].
Qed.

Lemma writeIdentifier_plain aliases i str :
  aliasesPlain W aliases →
  plainText (getIdentifierText W i) = true →
  isTypeParameterSymbol W (identifierSymbol W i) = false →
  plainText str = true →
  plainText (writeIdentifier W ext aliases i str) = true.
Proof.
  intros Ha Hi Htp Hstr. unfold writeIdentifier. cbv zeta.
  destruct (truthy (aliases !! identifierSymbol W i)) as [alias|] eqn:E.
  - apply truthy_Some, Ha in E as [E|[_ E]]; [done|congruence].
  - apply plainText_app; [done|].
    destruct (String.length str =? 0)%nat; [|done].
    apply plainText_app; [apply (prefix_plain W ext checked)|done].
Qed.

Lemma writeEntityWithSymbols_written aliases name str :
  aliasesPlain W aliases →
  (∀ i, i ∈ identifiersOf name → plainText (getIdentifierText W i) = true) →
  writtenName str →
  writtenName (writeEntityWithSymbols W ext aliases name str).
Proof.
  intros Ha. revert str. induction name as [i|l IH r]; intros str Hi Hstr; simpl.
  - apply writeIdentifier_written; [done| |done]. apply Hi. by left.
  - apply writeIdentifier_written; [done| |].
    + apply Hi, identifiersOf_qualified. by right.
    + apply writtenName_app; [|done]. apply IH; [|done].
      intros i Hin. apply Hi, identifiersOf_qualified. by left.
Qed.

Lemma writeEntityWithSymbols_plain aliases name str :
  aliasesPlain W aliases →
  (∀ i, i ∈ identifiersOf name →
     plainText (getIdentifierText W i) = true ∧
     isTypeParameterSymbol W (identifierSymbol W i) = false) →
  plainText str = true →
  plainText (writeEntityWithSymbols W ext aliases name str) = true.
Proof.
  intros Ha. revert str. induction name as [i|l IH r]; intros str Hi Hstr; simpl.
  - destruct (Hi i) as [H1 H2]; [by left|]. by apply writeIdentifier_plain.
  - destruct (Hi r) as [H1 H2]; [apply identifiersOf_qualified; by right|].
    apply writeIdentifier_plain; [done..|].
    apply plainText_app; [|done]. apply IH; [|done].
    intros i Hin. apply Hi, identifiersOf_qualified. by left.
Qed.

(** *** Runs that keep the Alias Scope plain *)

Lemma runs_ret {A} (Q : A → Prop) (a : A) : Q a → runs (aliasesOk W) Q (ret a).
Proof. intros H st HJ. split; [done|]. by intros a' [= <-]. Qed.

Lemma runs_throw {A} (Q : A → Prop) e : runs (aliasesOk W) Q (@throw A e).
Proof. intros st HJ. by split. Qed.

Lemma runs_bind {A C} (P : A → Prop) (Q : C → Prop) (m : M A) (k : A → M C) :
  runs (aliasesOk W) P m → (∀ a, P a → runs (aliasesOk W) Q (k a)) →
  runs (aliasesOk W) Q (bind m k).
Proof.
  intros Hm Hk st HJ. unfold bind. destruct (Hm st HJ) as [HJ' HP].
  destruct (m st) as [[a|e|] st']; [|done..].
  apply Hk; [|done]. by apply HP.
Qed.

Lemma runs_weaken {A} (P Q : A → Prop) (m : M A) :
  (∀ a, P a → Q a) → runs (aliasesOk W) P m → runs (aliasesOk W) Q m.
Proof.
  intros H Hm st HJ. destruct (Hm st HJ) as [HJ' HP].
  split; [done|]. intros a Ha. by apply H, HP.
Qed.

Lemma runs_then {A C} (P : A → Prop) (Q : C → Prop) (m : M A) (k : A → M C) :
  runs (aliasesOk W) P m → (∀ a, runs (aliasesOk W) Q (k a)) →
  runs (aliasesOk W) Q (bind m k).
Proof. intros Hm Hk. apply (runs_bind P); [done|]. intros a _. apply Hk. Qed.

Lemma runs_warn w : runs (aliasesOk W) (fun _ => True) (warn w).
Proof. intros st HJ. by split. Qed.

Lemma runs_mapM {A C} (P : C → Prop) (f : A → M C) (xs : list A) :
  (∀ x, runs (aliasesOk W) P (f x)) →
  runs (aliasesOk W) (Forall P) (mapM f xs).
Proof.
  intros H. induction xs as [|x xs IH]; simpl; [by apply runs_ret|].
  apply (runs_bind P); [apply H|]. intros y Hy.
  apply (runs_bind (Forall P)); [apply IH|]. intros ys Hys.
  apply runs_ret. by constructor.
Qed.

Lemma symbolToString_runs sym :
  runs (aliasesOk W)
    (fun r => ∀ n, r = Some n →
       writtenName n ∧
       (isTypeParameterSymbol W sym = false → plainText n = true))
    (symbolToString W ext sym).
Proof.
  intros st HJ.
  assert (aliasesPlain W (aliasesAtLookup W ext sym st)) as Ha.
  { unfold aliasesAtLookup. destruct (negb ext && _); [|done].
    by apply (declared_plain W ext checked). }
  split.
  - unfold symbolToString, aliasesAtLookup, aliasesOk, bind in *.
    destruct (negb ext && _); simpl in *;
      by destruct (symbolToEntityName W sym).
  - intros r Hr n ->. rewrite symbolToString_eq in Hr.
    destruct (symbolToEntityName W sym) as [name|] eqn:Hname; [|done].
    injection Hr as <-. split.
    + apply stripClutzNamespace_written, writeEntityWithSymbols_written;
        [done| |by left].
      intros i Hi. by apply (names_plain W ext checked sym name).
    + intros Htp.
      apply stripClutzNamespace_plain, writeEntityWithSymbols_plain;
        [done| |done].
      intros i Hi. split.
      * by apply (names_plain W ext checked sym name).
      * by apply (names_of_types W ext checked sym name).
Qed.

Lemma blacklistTypeParameters_runs decls :
  (∀ tpd sym, tpd ∈ default [] decls → tpSymbol tpd = Some sym →
     isTypeParameterSymbol W sym = true) →
  runs (aliasesOk W) (fun _ => True) (blacklistTypeParameters decls).
Proof.
  destruct decls as [ds|]; [|intros _; by apply runs_ret]. simpl.
  induction ds as [|tpd ds IH]; intros H; simpl; [by apply runs_ret|].
  apply (runs_then (fun _ => True)).
  - destruct (tpSymbol tpd) as [sym|] eqn:Hsym; [|apply runs_warn].
    intros st HJ. split; [|done]. intros sym' a. simpl.
    destruct (decide (sym' = sym)) as [->|Hne].
    + rewrite lookup_insert_eq. intros [= <-]. right. split; [done|].
      apply (H tpd); [by left|done].
    + rewrite lookup_insert_ne by done. apply HJ.
  - intros _. apply IH. intros tpd' sym' Hin. apply H. by right.
Qed.

Ltac unparameterized_leaf :=
  solve [ split; reflexivity
        | assumption
        | apply writtenName_unparameterized; assumption
        | apply plainText_unparameterized; assumption
        | apply unparameterized_app; unparameterized_leaf
        | apply unparameterized_join; [split; reflexivity|assumption]
        | match goal with
          | |- unparameterized (match ?c with _ => _ end) =>
              destruct c eqn:?; unparameterized_leaf
          end ].

Ltac runs_step :=
  lazymatch goal with
  | |- runs _ _ (ret _) => apply runs_ret; try unparameterized_leaf
  | |- runs _ _ (throw _) => apply runs_throw
  | |- runs _ _ (bind (warn _) _) =>
      apply (runs_then (fun _ => True)); [apply runs_warn|intros _]
  | |- runs _ _ (match ?x with _ => _ end) => destruct x eqn:?
  end.

Lemma translateEnumLiteral_runs t :
  runs (aliasesOk W) unparameterized (translateEnumLiteral W ext t).
Proof.
  assert (∀ sym,
    runs (aliasesOk W) unparameterized
      (let! name := symbolToString W ext sym in
       match truthy name with
       | None => ret "?"
       | Some name => ret ("!" +:+ name)
       end)) as Hcont.
  { intros sym. eapply runs_bind; [apply symbolToString_runs|].
    intros name Hname. cbv beta in Hname.
    destruct (truthy name) as [n|] eqn:E; [|runs_step].
    apply truthy_Some in E. destruct (Hname n E) as [Hn _]. runs_step. }
  unfold translateEnumLiteral. cbv zeta.
  repeat first [apply Hcont | runs_step].
Qed.

Lemma runs_state {A} (Q : A → Prop) (m : M A) :
  (∀ st, symbolsToAliasedNames (snd (m st)) = symbolsToAliasedNames st) →
  (∀ st a, fst (m st) = Ok a → Q a) →
  runs (aliasesOk W) Q m.
Proof.
  intros Hst HQ st HJ. split; [|apply HQ].
  unfold aliasesOk. by rewrite Hst.
Qed.

Lemma runs_and {A} (P Q : A → Prop) (m : M A) :
  runs (aliasesOk W) P m → runs (aliasesOk W) Q m →
  runs (aliasesOk W) (fun a => P a ∧ Q a) m.
Proof.
  intros HP HQ st HJ. destruct (HP st HJ) as [HJ' HP'].
  destruct (HQ st HJ) as [_ HQ']. split; [done|]. intros a Ha. by split; auto.
Qed.

Lemma wordChar_plain (c : ascii) :
  isWordChar c = true →
  negb (Ascii.eqb c "?") && negb (Ascii.eqb c "<") = true.
Proof.
  intros H.
  destruct (Ascii.eqb_spec c "?") as [->|_]; [discriminate H|].
  destruct (Ascii.eqb_spec c "<") as [->|_]; [discriminate H|done].
Qed.

Lemma isValidClosurePropertyName_plain (name : string) :
  isValidClosurePropertyName name = true → plainText name = true.
Proof.
  destruct name as [|c r]; [done|]. simpl. intros H.
  apply andb_prop in H as [Hc Hr]. unfold plainText. simpl.
  rewrite wordChar_plain by (unfold isWordChar; by rewrite Hc). simpl.
  induction r as [|d r IH]; [done|]. simpl in *.
  apply andb_prop in Hr as [Hd Hr]. by rewrite (wordChar_plain d Hd), IH.
Qed.

(** The text of a class or interface type: [?], or an exclamation mark and
    a plain name. *)
Lemma classText_reference (typeStr rest : string) :
  typeStr = "?" ∨ (∃ n, typeStr = "!" +:+ n ∧ plainText n = true) →
  unparameterized typeStr →
  String.eqb typeStr "?" = false →
  unparameterized rest →
  unparameterized (typeStr +:+ "<" +:+ rest).
Proof.
  intros [->|(n & -> & Hn)] [H1 H2] Hq [Hr1 Hr2]; [done|]. split; [|done].
  assert (containsString "?<" ("<" +:+ rest) = false) as Hrest.
  { change ("<" +:+ rest) with (String "<" rest).
    by rewrite containsString_cons, Hr1. }
  assert (lastIs "?" ("!" +:+ n) = false) as Hlast.
  { apply plainText_lastIs. by apply (plainText_app "!" n). }
  by rewrite containsString_app, H1, Hrest, Hlast.
Qed.

Section Calls.
Context (rec : tid → M string).
Hypothesis rec_runs : ∀ u, runs (aliasesOk W) unparameterized (rec u).
Hypothesis rec_target : ∀ u,
  classOrInterface W u →
  runs (aliasesOk W)
    (fun s => s = "?" ∨ ∃ n, s = "!" +:+ n ∧ plainText n = true) (rec u).

Ltac name_facts :=
  match goal with
  | Hname : ∀ n, ?name = Some n → _, E : truthy ?name = Some ?n |- _ =>
      apply truthy_Some in E; destruct (Hname _ E) as [? ?]
  end.

Ltac calls_step :=
  lazymatch goal with
  | |- runs _ _ (bind (rec _) _) =>
      apply (runs_bind unparameterized); [apply rec_runs|intros ? ?]
  | |- runs _ _ (bind (mapM rec _) _) =>
      apply (runs_bind (Forall unparameterized));
      [apply runs_mapM, rec_runs|intros ? ?]
  | |- runs _ _ (bind (symbolToString _ _ _) _) =>
      eapply runs_bind; [apply symbolToString_runs|cbv beta; intros ? ?]
  | |- _ => runs_step
  end.

Lemma translateUnion_runs t :
  runs (aliasesOk W) unparameterized (translateUnion W rec t).
Proof.
  unfold translateUnion. calls_step. cbv zeta.
  assert (Forall unparameterized (removeDuplicates a)) as Hparts.
  { rewrite removeDuplicates_firstOccurrences, Forall_forall in *.
    intros x Hx. by apply H, firstOccurrences_elem. }
  revert Hparts. destruct (removeDuplicates a) as [|part [|part' parts]];
    intros Hparts; runs_step.
  by apply Forall_inv in Hparts.
Qed.

Lemma convertParam_runs param paramDecl :
  runs (aliasesOk W) (fun r => ∀ s, r = Some s → unparameterized s)
    (convertParam W rec param paramDecl).
Proof.
  unfold convertParam. cbv zeta.
  repeat calls_step.
  all: intros s Hs; try discriminate Hs; injection Hs as <-.
  all: unparameterized_leaf.
Qed.

Lemma convertParams_runs sig paramDecls :
  runs (aliasesOk W) (Forall unparameterized)
    (convertParams W rec sig paramDecls).
Proof.
  unfold convertParams.
  assert (Forall unparameterized (@nil string)) as Hnil by constructor.
  revert Hnil. generalize (@nil string) O.
  induction (parameters sig) as [|param rest IH];
    intros paramTypes i Htypes; simpl; [by apply runs_ret|].
  destruct (paramDecls !! i); [|apply runs_throw].
  eapply runs_bind; [apply convertParam_runs|].
  intros pushed Hpushed. cbv beta in Hpushed. apply IH.
  apply Forall_app. split; [done|].
  destruct pushed as [s|]; simpl; [|constructor].
  constructor; [by apply Hpushed|constructor].
Qed.

Lemma signatureToClosure_runs sig :
  typeParametersFlagged W sig →
  runs (aliasesOk W) unparameterized (signatureToClosure W rec sig).
Proof.
  intros Hflagged. unfold signatureToClosure. cbv zeta.
  destruct (declaration sig) as [decl|] eqn:Hdecl; [|repeat calls_step].
  destruct (bool_decide (declKind decl = JSDocSignatureKind));
    [repeat calls_step|].
  apply (runs_then (fun _ => True)).
  { apply blacklistTypeParameters_runs. intros tpd sym Hin Hsym.
    by apply (Hflagged decl tpd). }
  intros _.
  apply (runs_bind (fun afterThis => unparameterized (fst afterThis))).
  { destruct (default [] (declParameters decl)) as [|maybeThisParam others];
      [by apply runs_ret|].
    destruct (String.eqb (paramNameText maybeThisParam) "this");
      [|by apply runs_ret].
    apply (runs_bind unparameterized); [|intros typeStr H; by apply runs_ret].
    destruct (paramTypeNode maybeThisParam); repeat calls_step. }
  intros afterThis Hafter.
  eapply runs_bind; [apply convertParams_runs|]. intros params Hparams.
  repeat calls_step.
Qed.

Lemma gatherFields_runs entries callable indexable fields :
  Forall unparameterized fields →
  runs (aliasesOk W) (fun gathered => Forall unparameterized (snd gathered))
    (gatherFields W rec entries callable indexable fields).
Proof.
  revert callable indexable fields.
  induction entries as [|[field member] rest IH];
    intros callable indexable fields Hfields; simpl; [by apply runs_ret|].
  destruct (String.eqb field "__call"); [by apply IH|].
  destruct (String.eqb field "__index"); [by apply IH|].
  destruct (isValidClosurePropertyName field) eqn:Hvalid; simpl.
  - calls_step. apply IH. apply Forall_app. split; [done|].
    apply isValidClosurePropertyName_plain in Hvalid.
    constructor; [unparameterized_leaf|constructor].
  - calls_step. by apply IH.
Qed.

Lemma translateAnonymousType_runs t :
  runs (aliasesOk W) unparameterized (translateAnonymousType W rec t).
Proof.
  unfold translateAnonymousType. cbv zeta.
  apply (runs_then (fun _ => True)); [by apply runs_state|]. intros _.
  destruct (symbol (typeOf W t) ≫= _) as [entries|]; [|repeat calls_step].
  destruct (constructSignatures (typeOf W t)) as [|ctor others] eqn:Hctors.
  - eapply runs_bind; [by apply gatherFields_runs|].
    intros gathered Hgathered. cbv beta in Hgathered.
    repeat first
      [ apply signatureToClosure_runs;
        apply (type_parameters_flagged W ext checked t); left;
        match goal with E : getSignaturesOfType W t = _ |- _ => rewrite E end;
        by left
      | calls_step ].
  - destruct (declaration ctor) as [decl|] eqn:Hdecl; [|repeat calls_step].
    destruct (bool_decide (declKind decl = JSDocSignatureKind));
      [repeat calls_step|].
    apply (runs_then (fun _ => True)).
    { apply blacklistTypeParameters_runs. intros tpd sym Hin Hsym.
      apply (type_parameters_flagged W ext checked t ctor) with decl tpd;
        [|done..].
      right. rewrite Hctors. by left. }
    intros _.
    eapply runs_bind; [apply convertParams_runs|]. intros params Hparams.
    repeat calls_step.
Qed.

Lemma translateObject_runs t :
  runs (aliasesOk W) unparameterized (translateObject W ext B rec t).
Proof.
  unfold translateObject. cbv zeta.
  destruct (from_option (isBlackListed W B) false (symbol (typeOf W t)));
    [calls_step|].
  destruct (hasFlag (objectFlags (typeOf W t)) ObjectFlags.Class).
  { repeat calls_step. name_facts. unparameterized_leaf. }
  destruct (hasFlag (objectFlags (typeOf W t)) ObjectFlags.Interface).
  { repeat calls_step. destruct a as [n|]; simpl; [|unparameterized_leaf].
    destruct (H n eq_refl). unparameterized_leaf. }
  destruct (hasFlag (objectFlags (typeOf W t)) ObjectFlags.Reference) eqn:Hr.
  { destruct (hasFlag (objectFlags (typeOf W (target (typeOf W t))))
                ObjectFlags.Tuple) eqn:Ht; [calls_step|].
    destruct (bool_decide (target (typeOf W t) = t)); [calls_step|].
    destruct (reference_targets W ext checked t Hr) as [Htuple|Hclass];
      [congruence|].
    eapply runs_bind;
      [apply runs_and; [apply rec_runs|apply (rec_target _ Hclass)]|].
    intros typeStr [Htext Hshape].
    destruct (String.eqb typeStr "?") eqn:Hq; [calls_step|].
    destruct (typeArguments (typeOf W t)); [|calls_step].
    calls_step. apply runs_ret.
    apply classText_reference; [done..|]. unparameterized_leaf. }
  repeat first
    [ apply translateAnonymousType_runs
    | apply signatureToClosure_runs;
      apply (type_parameters_flagged W ext checked t); left;
      match goal with E : getSignaturesOfType W t = _ |- _ => rewrite E end;
      by left
    | calls_step ].
Qed.

Lemma translateWith_runs t :
  runs (aliasesOk W) unparameterized (translateWith W ext B rec t).
Proof.
  unfold translateWith. cbv zeta.
  destruct (flags (typeOf W t) =? TypeFlags.NonPrimitive); [calls_step|].
  apply (runs_then (fun _ => True)); [by apply runs_state|]. intros seen.
  repeat first
    [ apply translateObject_runs | apply translateUnion_runs
    | apply translateEnumLiteral_runs
    | calls_step ].
  all: first
    [ name_facts; unparameterized_leaf
    | match goal with
      | |- unparameterized (default _ (truthy ?name)) =>
          destruct (truthy name) eqn:E; simpl; [name_facts|];
          unparameterized_leaf
      end ].
Qed.
End Calls.

(** The branches for classes and interfaces call translate on no type:
    they answer [?], or an exclamation mark and the name of the symbol. *)
Lemma translateObject_class rec t :
  hasFlag (objectFlags (typeOf W t)) ObjectFlags.Class ||
  hasFlag (objectFlags (typeOf W t)) ObjectFlags.Interface = true →
  (∀ s, symbol (typeOf W t) = Some s → isTypeParameterSymbol W s = false) →
  runs (aliasesOk W)
    (fun s => s = "?" ∨ ∃ n, s = "!" +:+ n ∧ plainText n = true)
    (translateObject W ext B rec t).
Proof.
  intros Hci Hsym. unfold translateObject. cbv zeta.
  destruct (from_option (isBlackListed W B) false (symbol (typeOf W t)));
    [apply runs_ret; by left|].
  destruct (hasFlag (objectFlags (typeOf W t)) ObjectFlags.Class).
  { destruct (symbol (typeOf W t)) as [s|].
    - eapply runs_bind; [apply symbolToString_runs|].
      cbv beta. intros name Hname.
      destruct (truthy name) as [n|] eqn:E; apply runs_ret; [|by left].
      apply truthy_Some in E. destruct (Hname n E) as [_ Hn].
      right. exists n. split; [done|]. by apply Hn, Hsym.
    - apply (runs_then (fun _ => True)); [apply runs_warn|].
      intros _. apply runs_ret. by left. }
  destruct (hasFlag (objectFlags (typeOf W t)) ObjectFlags.Interface);
    [|done].
  destruct (symbol (typeOf W t)) as [s|].
  - destruct (hasFlag (symFlags (symbolOf W s)) SymbolFlags.Value && _).
    + apply (runs_then (fun _ => True)); [apply runs_warn|].
      intros _. apply runs_ret. by left.
    + eapply runs_bind; [apply symbolToString_runs|].
      cbv beta. intros name Hname. apply runs_ret. right.
      destruct name as [n|]; simpl; [|by exists "undefined"].
      destruct (Hname n eq_refl) as [_ Hn].
      exists n. split; [done|]. by apply Hn, Hsym.
  - apply (runs_then (fun _ => True)); [apply runs_warn|].
    intros _. apply runs_ret. by left.
Qed.

Lemma translateWith_class rec t :
  classOrInterface W t →
  runs (aliasesOk W)
    (fun s => s = "?" ∨ ∃ n, s = "!" +:+ n ∧ plainText n = true)
    (translateWith W ext B rec t).
Proof.
  intros Hclass st HJ. pose proof Hclass as [Hk Hci].
  destruct (exitsEarly W ext t st) eqn:He.
  - rewrite translateWith_exitsEarly; [| |done].
    + split; [done|]. intros a [= <-]. by left.
    + intros E. unfold maskedKind in Hk. rewrite E in Hk. discriminate.
  - rewrite translateWith_object by done.
    apply translateObject_class; [done| |done].
    intros s Hs. by apply (class_symbols W ext checked t).
Qed.

Lemma translate_runs fuel t :
  runs (aliasesOk W) unparameterized (translate W ext B fuel t) ∧
  (classOrInterface W t →
   runs (aliasesOk W)
     (fun s => s = "?" ∨ ∃ n, s = "!" +:+ n ∧ plainText n = true)
     (translate W ext B fuel t)).
Proof.
  revert t. induction fuel as [|fuel IH]; intros t.
  - split; [|intros _]; intros st HJ; by split.
  - rewrite translate_S. split.
    + apply translateWith_runs; intros u; apply IH.
    + apply translateWith_class.
Qed.

End Unparameterized.

Lemma translate_reference_of_unknown W ext B fuel t st st1 :
  translatedAsReference W ext B t st →
  translate W ext B fuel (target (typeOf W t)) st = (Ok "?", st1) →
  translate W ext B (S fuel) t st = (Ok "?", st1).
Proof.
  intros (Hk & He & Hb & Hc & Hi & Hr & Ht & Hl) Htarget.
  rewrite translate_S, translateWith_object by done.
  unfold translateObject. cbv zeta.
  rewrite Hb, Hc, Hi, Hr, Ht.
  rewrite bool_decide_eq_false_2 by done.
  unfold bind at 1. by rewrite Htarget.
Qed.

(** C5: for the types and names of the checker, and an Alias Scope that
    holds [?] for the symbols of type parameters only, the string that
    translate returns never contains [?<]; in particular, when a type is
    translated as a type reference and the translation of its target is
    [?], the type arguments are not appended and the result is exactly
    [?]. *)
Theorem C5_never_parameterized_unknown (W : World) (isForExterns : bool)
  (B : option (gset string)) (fuel : nat) (t : tid) (st : State) :
  CheckerWorld W isForExterns →
  aliasesPlain W (symbolsToAliasedNames st) →
  (∀ s st', translate W isForExterns B fuel t st = (Ok s, st') →
     containsString "?<" s = false) ∧
  (∀ st1, translatedAsReference W isForExterns B t st →
     translate W isForExterns B fuel (target (typeOf W t)) st = (Ok "?", st1) →
     translate W isForExterns B (S fuel) t st = (Ok "?", st1)).
Proof.
  intros Hchecked Haliases. split.
  - intros s st' Hrun.
    destruct (translate_runs W isForExterns B Hchecked fuel t) as [Hruns _].
    destruct (Hruns st Haliases) as [_ Hs].
    rewrite Hrun in Hs. by destruct (Hs s eq_refl).
  - intros st1. apply translate_reference_of_unknown.
Qed.

Lemma referenceWorld_checked :
  CheckerWorld
    (Examples.referenceWorld (fun s => Some (Examples.named s "Foo"))) false.
Proof.
  split.
  - intros sym name i [= <-] Hi. unfold identifiersOf in Hi. simpl in Hi.
    apply list_elem_of_singleton in Hi as ->. reflexivity.
  - intros sym. reflexivity.
  - intros sym aliases H. exact H.
  - intros sym name i _ _ _. reflexivity.
  - intros t sig [H|H].
    + by apply elem_of_nil in H.
    + destruct t as [|[|t]]; by apply elem_of_nil in H.
  - intros [|[|t]] H; try discriminate H. right. by split.
  - intros t s _ _. reflexivity.
Qed.

Lemma C5_never_parameterized_unknown_witness :
  fst (translate (Examples.referenceWorld
                    (fun s => Some (Examples.named s "Foo")))
         false None 3 O Examples.freshState) = Ok "!Foo<number>" ∧
  containsString "?<" "!Foo<number>" = false.
Proof.
  split; [vm_compute; reflexivity|].
  apply (C5_never_parameterized_unknown
           (Examples.referenceWorld (fun s => Some (Examples.named s "Foo")))
           false None 3 O Examples.freshState referenceWorld_checked)
    with (st' := Examples.freshState).
  - intros sym a H. simpl in H. by rewrite lookup_empty in H.
  - vm_compute. reflexivity.
Defined.

(** The condition on the Alias Scope is needed: with the symbol of a class
    mapped to [?] by hand, the class is written [!?] and a reference to it
    [!?<number>]. *)
Remark class_alias_unknown :
  ¬ aliasesPlain
      (Examples.referenceWorld (fun s => Some (Examples.named s "Foo")))
      (symbolsToAliasedNames Examples.fooBlacklisted) ∧
  fst (translate (Examples.referenceWorld (fun s => Some (Examples.named s "Foo")))
         false None 3 O Examples.fooBlacklisted) = Ok "!?<number>".
Proof.
  split; [|vm_compute; reflexivity].
  intros H. destruct (H O "?") as [Hp|[_ Hp]]; [|discriminate Hp..].
  vm_compute. reflexivity.
Qed.

(** * Further properties of the translator *)

(** ** Strings *)

Lemma prefix_append (p s : string) : String.prefix p (p +:+ s) = true.
Proof.
  induction p as [|c p IH]; simpl; [by destruct s|].
  destruct (ascii_dec c c); [done|congruence].
Qed.

Lemma dropString_append (p s : string) :
  dropString (String.length p) (p +:+ s) = s.
Proof. induction p as [|c p IH]; simpl; [by destruct s|done]. Qed.

(** stripClutzNamespace removes the namespace of Clutz from the front of a
    name, once: what follows the prefix comes back as it is, also when it
    starts with the prefix again. *)
Theorem stripClutzNamespace_prefixed (s : string) :
  stripClutzNamespace (clutzNamespace +:+ s) = s.
Proof.
  unfold stripClutzNamespace.
  by rewrite prefix_append, dropString_append.
Qed.

(** ** The deduplication of union members *)

Lemma firstOccurrences_NoDup (l : list string) : NoDup (firstOccurrences l).
Proof.
  induction l as [|el rest IH]; simpl; [constructor|].
  constructor; [|by apply NoDup_filter].
  rewrite list_elem_of_filter. tauto.
Qed.

Lemma firstOccurrences_sublist (l : list string) :
  firstOccurrences l `sublist_of` l.
Proof.
  induction l as [|el rest IH]; simpl; [done|].
  apply sublist_skip. etrans; [apply sublist_filter|done].
Qed.

Lemma firstOccurrences_NoDup_id (l : list string) :
  NoDup l → firstOccurrences l = l.
Proof.
  induction 1 as [|el rest Hel _ IH]; simpl; [done|].
  rewrite IH. f_equal. clear IH.
  induction rest as [|y rest IHr]; [done|].
  apply not_elem_of_cons in Hel as [Hne Hel].
  rewrite filter_cons_True by done. f_equal. by apply IHr.
Qed.

(** The filter that translateUnion applies to the member texts returns a
    list without duplicates that has the elements of its argument, in the
    order of the argument. *)
Theorem removeDuplicates_NoDup_same_elements (parts : list string) :
  NoDup (removeDuplicates parts) ∧
  (∀ x, x ∈ removeDuplicates parts ↔ x ∈ parts) ∧
  removeDuplicates parts `sublist_of` parts.
Proof.
  rewrite removeDuplicates_firstOccurrences. split_and!.
  - apply firstOccurrences_NoDup.
  - intros x. apply firstOccurrences_elem.
  - apply firstOccurrences_sublist.
Qed.

(** Filtering twice is filtering once. *)
Theorem removeDuplicates_idempotent (parts : list string) :
  removeDuplicates (removeDuplicates parts) = removeDuplicates parts.
Proof.
  rewrite !removeDuplicates_firstOccurrences.
  apply firstOccurrences_NoDup_id, firstOccurrences_NoDup.
Qed.

(** ** The library files of TypeScript *)

Lemma string_take_drop (k : nat) (r : string) :
  r = substring 0 k r +:+ dropString k r.
Proof.
  revert r. induction k as [|k IH]; intros [|c r]; simpl; try done.
  by rewrite (IH r) at 1.
Qed.

Lemma dropString_substring (k : nat) (r : string) :
  (k ≤ String.length r)%nat →
  dropString k r = substring k (String.length r - k) r.
Proof.
  revert r. induction k as [|k IH]; intros r Hk.
  - rewrite Nat.sub_0_r. simpl. clear Hk.
    induction r as [|c r IHr]; simpl; [done|]. by rewrite <- IHr.
  - destruct r as [|c r]; simpl in *; [lia|]. apply IH. lia.
Qed.

Lemma append_assoc (a b c : string) : a +:+ b +:+ c = (a +:+ b) +:+ c.
Proof.
  induction a as [|x a IH]; [done|].
  change (String x (a +:+ b +:+ c) = String x ((a +:+ b) +:+ c)).
  by rewrite IH.
Qed.

Lemma endsWith_dropString (suffix : string) (k : nat) (s : string) :
  endsWith suffix (dropString k s) → endsWith suffix s.
Proof.
  intros [pre H]. exists (substring 0 k s +:+ pre).
  rewrite (string_take_drop k s) at 1. rewrite H.
  apply append_assoc.
Qed.

Lemma libTail_endsWith (r : string) :
  libTail r = true → endsWith "d.ts" r.
Proof.
  unfold libTail. intros H. apply orb_prop in H as [H|H].
  - apply String.eqb_eq in H as ->. by exists "".
  - apply andb_prop in H as [H _]. apply andb_prop in H as [Hn H].
    apply Nat.ltb_lt in Hn. apply String.eqb_eq in H.
    apply (endsWith_dropString _ (String.length r - 5)).
    rewrite dropString_substring by lia.
    replace (String.length r - (String.length r - 5))%nat with 5%nat by lia.
    rewrite H. by exists ".".
Qed.

Lemma scanLib_endsWith (b : bool) (s : string) :
  scanLib b s = true → endsWith "d.ts" s.
Proof.
  revert b. induction s as [|c r IH]; intros b H; simpl in H.
  - rewrite orb_false_r in H. by rewrite andb_false_r in H.
  - apply orb_prop in H as [H|H].
    + apply andb_prop in H as [_ H].
      apply (endsWith_dropString _ 4), libTail_endsWith, H.
    + destruct (IH _ H) as [pre ->]. by exists (String c pre).
Qed.

(** isBuiltinLibDTS accepts only names that end in [d.ts]. *)
Theorem isBuiltinLibDTS_endsWith (fileName : string) :
  isBuiltinLibDTS fileName = true → endsWith "d.ts" fileName.
Proof. apply scanLib_endsWith. Qed.

Lemma isBuiltinLibDTS_endsWith_witness :
  isBuiltinLibDTS "/ts/lib/lib.es2015.d.ts" = true ∧
  endsWith "d.ts" "/ts/lib/lib.es2015.d.ts".
Proof.
  split; [reflexivity|].
  apply (isBuiltinLibDTS_endsWith "/ts/lib/lib.es2015.d.ts"). reflexivity.
Defined.

Lemma string_length_append (a b : string) :
  String.length (a +:+ b) = (String.length a + String.length b)%nat.
Proof.
  induction a as [|x a IH]; [done|].
  change (S (String.length (a +:+ b)) = S (String.length a + String.length b)).
  by rewrite IH.
Qed.

Lemma substring_append (a b : string) :
  substring 0 (String.length a) (a +:+ b) = a.
Proof.
  induction a as [|x a IH]; [by destruct b|].
  change (String x (substring 0 (String.length a) (a +:+ b)) = String x a).
  by rewrite IH.
Qed.

Lemma libTail_infix (infix : string) :
  isLibInfix infix → libTail (infix +:+ "d.ts") = true.
Proof.
  intros [->|(x & Hx & Hslash & ->)]; [done|].
  rewrite <- append_assoc. change ("." +:+ "d.ts") with ".d.ts".
  unfold libTail. apply orb_true_intro. right.
  rewrite string_length_append.
  replace (String.length x + String.length ".d.ts" - 5)%nat
    with (String.length x) by (simpl; lia).
  rewrite substring_append, Hslash, andb_true_r.
  apply andb_true_intro. split.
  - apply Nat.ltb_lt. destruct x; [done|]. simpl. lia.
  - rewrite <- (dropString_append x ".d.ts") at 2.
    rewrite dropString_substring by (rewrite string_length_append; lia).
    rewrite string_length_append.
    replace (String.length x + String.length ".d.ts" - String.length x)%nat
      with 5%nat by (simpl; lia).
    apply String.eqb_refl.
Qed.

Lemma scanLib_String (b : bool) (c : ascii) (r : string) :
  scanLib b (String c r) =
  (negb b && String.prefix "lib." (String c r) &&
   libTail (dropString 4 (String c r))) || scanLib (isWordChar c) r.
Proof. reflexivity. Qed.

Lemma scanLib_after_slash (dir rest : string) (b : bool) :
  libTail rest = true → scanLib b (dir +:+ "/lib." +:+ rest) = true.
Proof.
  intros Hrest. revert b. induction dir as [|c dir IH]; intros b.
  - change ("" +:+ "/lib." +:+ rest) with (String "/" ("lib." +:+ rest)).
    rewrite scanLib_String. apply orb_true_intro. right.
    change (isWordChar "/") with false.
    change ("lib." +:+ rest)
      with (String "l" (String "i" (String "b" (String "." rest)))).
    rewrite scanLib_String. apply orb_true_intro. left.
    change (dropString 4 (String "l" (String "i" (String "b" (String "." rest)))))
      with rest.
    rewrite Hrest, andb_true_r. simpl.
    repeat (destruct (ascii_dec _ _); [|done]). by destruct rest.
  - change (String c dir +:+ "/lib." +:+ rest)
      with (String c (dir +:+ "/lib." +:+ rest)).
    rewrite scanLib_String, IH. apply orb_true_r.
Qed.

(** isBuiltinLibDTS accepts every path whose last segment is [lib.d.ts] or
    [lib.], a non-empty text, [.d.ts], whatever the directory. *)
Theorem isBuiltinLibDTS_lib_file (dir infix : string) :
  isLibInfix infix →
  isBuiltinLibDTS (dir +:+ "/lib." +:+ infix +:+ "d.ts") = true.
Proof. intros H. by apply scanLib_after_slash, libTail_infix. Qed.

Lemma isBuiltinLibDTS_lib_file_witness :
  isBuiltinLibDTS ("/ts" +:+ "/lib." +:+ "es2015.promise." +:+ "d.ts") = true.
Proof.
  apply (isBuiltinLibDTS_lib_file "/ts" "es2015.promise.").
  right. exists "es2015.promise". by split_and!.
Defined.

(** ** The mangled prefix of a name *)

Lemma firstAmbientModuleFrom_is_Some (n : Node) :
  is_Some (firstAmbientModuleFrom n) ↔
  ∃ a, a ∈ ancestorsOrSelf n ∧ is_Some (isAmbientModuleDeclaration a).
Proof.
  induction n as [k f m sf osf|k f m sf osf q IH] using Node_parent_ind.
  - simpl. split.
    + intros H. exists (mkNode k f m sf osf None). split; [by left|].
      by destruct (isAmbientModuleDeclaration _).
    + intros (a & Ha & Hs). apply list_elem_of_singleton in Ha as ->.
      by destruct (isAmbientModuleDeclaration _); [|destruct Hs].
  - simpl. destruct (isAmbientModuleDeclaration (mkNode k f m sf osf (Some q)))
      as [text|] eqn:E.
    + split; [|done]. intros _. exists (mkNode k f m sf osf (Some q)).
      split; [by left|]. by rewrite E.
    + rewrite IH. split.
      * intros (a & Ha & Hs). exists a. split; [by right|done].
      * intros (a & Ha & Hs). apply elem_of_cons in Ha as [->|Ha].
        -- rewrite E in Hs. by destruct Hs.
        -- by exists a.
Qed.

(** getContainingAmbientModuleDeclaration finds a module exactly when some
    declaration has a module declaration with a string-literal name among
    the nodes strictly above it; the declaration itself does not count. *)
Theorem getContainingAmbientModuleDeclaration_is_Some (ds : list Node) :
  is_Some (getContainingAmbientModuleDeclaration ds) ↔
  ∃ d, d ∈ ds ∧ hasAmbientModuleAbove d.
Proof.
  induction ds as [|d ds IH]; simpl.
  - split; [by intros [? ?]|]. intros (d & Hd & _). by apply elem_of_nil in Hd.
  - assert (is_Some (from_option firstAmbientModuleFrom None (parent d)) ↔
            hasAmbientModuleAbove d) as Hd.
    { unfold hasAmbientModuleAbove. destruct (parent d) as [p|]; simpl.
      - rewrite firstAmbientModuleFrom_is_Some. split.
        + intros (a & Ha & Hs). by exists p, a.
        + intros (p' & a & [= <-] & Ha & Hs). by exists a.
      - split; [by intros [? ?]|]. by intros (p' & a & ? & _). }
    destruct (from_option firstAmbientModuleFrom None (parent d)) as [text|].
    + split; [|done]. intros _. exists d. split; [by left|]. by apply Hd.
    + rewrite IH. split.
      * intros (d' & Hd' & H). exists d'. split; [by right|done].
      * intros (d' & Hd' & H). apply elem_of_cons in Hd' as [->|Hd'].
        -- apply Hd in H. by destruct H.
        -- by exists d'.
Qed.

(** Outside externs mode a name gets a mangled prefix only when every
    declaration of its symbol is in the file of the translator's node, is
    ambient and is exported. *)
Theorem mangled_prefix_outside_externs (W : World) (s : sid) :
  maybeGetMangledNamePrefix W false s ≠ "" →
  ∀ d, d ∈ declarationsOf W s →
    contextFile W = originalSourceFile d ∧
    isAmbient W d = true ∧ hasExportModifier W d = true.
Proof.
  unfold maybeGetMangledNamePrefix, declarationsOf.
  destruct (declarations (symbolOf W s)) as [ds|]; [|done]. simpl.
  destruct (negb (isTopLevelExternal ds) && _); [done|].
  destruct (forallb _ ds) eqn:Hall; [|done].
  intros _ d Hd. rewrite forallb_forall in Hall.
  apply list_elem_of_In, Hall in Hd.
  apply andb_prop in Hd as [Hd He]. apply andb_prop in Hd as [Hf Ha].
  by apply bool_decide_eq_true in Hf.
Qed.

Lemma mangled_prefix_outside_externs_witness :
  contextFile MoreExamples.declarationsWorld =
    originalSourceFile (Examples.declaredIn Examples.moduleFile) ∧
  isAmbient MoreExamples.declarationsWorld
    (Examples.declaredIn Examples.moduleFile) = true ∧
  hasExportModifier MoreExamples.declarationsWorld
    (Examples.declaredIn Examples.moduleFile) = true.
Proof.
  apply (mangled_prefix_outside_externs MoreExamples.declarationsWorld 2%nat).
  - vm_compute. discriminate.
  - vm_compute. by left.
Defined.

(** In externs mode the name of a symbol with a declaration at the top of
    an external module gets the mangled name of the file of its first
    declaration, be that the declaration in the module or not. *)
Theorem mangled_prefix_top_level_external (W : World) (s : sid) (d : Node)
  (rest : list Node) :
  declarations (symbolOf W s) = Some (d :: rest) →
  isTopLevelExternal (d :: rest) = true →
  maybeGetMangledNamePrefix W true s =
  moduleNameAsIdentifier W (fileName (originalSourceFile d)) +:+ ".".
Proof.
  intros Hds Htop. unfold maybeGetMangledNamePrefix. by rewrite Hds, Htop.
Qed.

Lemma mangled_prefix_top_level_external_witness :
  maybeGetMangledNamePrefix MoreExamples.declarationsWorld true O =
  "module$/src/global.d.ts.".
Proof.
  apply (mangled_prefix_top_level_external MoreExamples.declarationsWorld O
           (Examples.declaredIn MoreExamples.scriptFile)
           [Examples.declaredIn Examples.moduleFile]); reflexivity.
Defined.

(** In externs mode the name of a symbol that is declared inside
    [declare module] with a string-literal name, and nowhere at the top of
    an external module, gets the mangled name of that module. *)
Theorem mangled_prefix_ambient_module (W : World) (s : sid) (ds : list Node)
  (text : string) :
  declarations (symbolOf W s) = Some ds →
  isTopLevelExternal ds = false →
  getContainingAmbientModuleDeclaration ds = Some text →
  maybeGetMangledNamePrefix W true s = moduleNameAsIdentifier W text +:+ ".".
Proof.
  intros Hds Htop Hamb. unfold maybeGetMangledNamePrefix.
  by rewrite Hds, Htop, Hamb.
Qed.

Lemma mangled_prefix_ambient_module_witness :
  maybeGetMangledNamePrefix MoreExamples.declarationsWorld true 1%nat =
  "module$net.".
Proof.
  apply (mangled_prefix_ambient_module MoreExamples.declarationsWorld 1%nat
           [MoreExamples.declaredInAmbientModule] "net"); reflexivity.
Defined.

(** ** The path blacklist of a translator *)

(** The constructor normalizes the paths it is given: a symbol is
    blacklisted exactly when it has a declarations list, and every
    declaration is in a file whose normalized path is the normalized form
    of a path of the list.  Without a list nothing is blacklisted. *)
Theorem isBlackListed_normalized (W : World) (paths : gset string) (s : sid) :
  (isBlackListed W (Some paths) s = true ↔
   ∃ ds, declarations (symbolOf W s) = Some ds ∧
     ∀ d, d ∈ ds →
       ∃ p, p ∈ paths ∧
            normalize W p = normalize W (fileName (sourceFile d))) ∧
  isBlackListed W None s = false.
Proof.
  split; [|done].
  unfold isBlackListed, pathBlackList, isBlacklisted. simpl.
  destruct (declarations (symbolOf W s)) as [ds|].
  - rewrite forallb_forall. split.
    + intros H. exists ds. split; [done|]. intros d Hd.
      apply list_elem_of_In, H, bool_decide_eq_true, elem_of_map in Hd.
      destruct Hd as (p & Hp & Hin). by exists p.
    + intros (ds' & [= <-] & H) d Hd. apply bool_decide_eq_true, elem_of_map.
      apply list_elem_of_In, H in Hd. destruct Hd as (p & Hin & Hp).
      by exists p.
  - split; [done|]. by intros (ds & ? & _).
Qed.

(** ** blacklistTypeParameters *)

Lemma blacklistTypeParameterDecls_run (ds : list TypeParameterDeclaration)
  (st : State) :
  ∃ st',
    blacklistTypeParameterDecls ds st = (Ok tt, st') ∧
    seenAnonymousTypes st' = seenAnonymousTypes st ∧
    (∀ s, s ∈ omap tpSymbol ds → symbolsToAliasedNames st' !! s = Some "?") ∧
    (∀ s, s ∉ omap tpSymbol ds →
       symbolsToAliasedNames st' !! s = symbolsToAliasedNames st !! s) ∧
    length (warnings st') =
      (length (warnings st) +
       length (filter (fun tpd => tpSymbol tpd = None) ds))%nat.
Proof.
  revert st. induction ds as [|tpd ds IH]; intros st.
  - exists st. split_and!; [done..| |done| simpl; lia].
    intros s Hs. by apply elem_of_nil in Hs.
  - simpl. unfold bind. destruct (tpSymbol tpd) as [sym|] eqn:Hsym.
    + unfold setAlias at 1.
      destruct (IH (mkState (seenAnonymousTypes st)
                      (<[sym:="?"]> (symbolsToAliasedNames st)) (warnings st)))
        as (st' & Hrun & Hseen & Hin & Hout & Hw). simpl in *.
      exists st'. rewrite filter_cons_False by (by rewrite Hsym).
      split_and!; [done..| | |done].
      * intros s Hs. destruct (decide (s ∈ omap tpSymbol ds)) as [Hd|Hd].
        -- by apply Hin.
        -- apply elem_of_cons in Hs as [->|Hs]; [|done].
           rewrite Hout by done. apply lookup_insert_eq.
      * intros s Hs. apply not_elem_of_cons in Hs as [Hne Hs].
        rewrite Hout by done. by apply lookup_insert_ne.
    + unfold warn at 1.
      destruct (IH (mkState (seenAnonymousTypes st) (symbolsToAliasedNames st)
                      (warnings st ++ [WTypeParameterWithNoSymbol])))
        as (st' & Hrun & Hseen & Hin & Hout & Hw). simpl in *.
      exists st'. rewrite filter_cons_True by done.
      split_and!; [done..|]. rewrite Hw, length_app. simpl. lia.
Qed.

Lemma blacklistTypeParameters_sound
  (decls : option (list TypeParameterDeclaration)) (st : State) :
  seenAnonymousTypes (snd (blacklistTypeParameters decls st))
    = seenAnonymousTypes st ∧
  ∀ s, s ∈ typeParameterSymbols decls →
    symbolsToAliasedNames (snd (blacklistTypeParameters decls st)) !! s
    = Some "?".
Proof.
  unfold typeParameterSymbols. destruct decls as [ds|]; simpl.
  - destruct (blacklistTypeParameterDecls_run ds st)
      as (st' & -> & Hseen & Hin & _). by split.
  - split; [done|]. intros s Hs. by apply elem_of_nil in Hs.
Qed.

(** blacklistTypeParameters, on the Alias Scope of the translator, always
    returns; afterwards the symbol of every declaration that has one is
    mapped to [?], every other symbol has the alias it had, the Recursion
    Set is as it was, and there is one more warning for every declaration
    without a symbol. *)
Theorem blacklistTypeParameters_effect
  (decls : option (list TypeParameterDeclaration)) (st : State) :
  fst (blacklistTypeParameters decls st) = Ok tt ∧
  seenAnonymousTypes (snd (blacklistTypeParameters decls st))
    = seenAnonymousTypes st ∧
  (∀ s, s ∈ typeParameterSymbols decls →
     symbolsToAliasedNames (snd (blacklistTypeParameters decls st)) !! s
     = Some "?") ∧
  (∀ s, s ∉ typeParameterSymbols decls →
     symbolsToAliasedNames (snd (blacklistTypeParameters decls st)) !! s
     = symbolsToAliasedNames st !! s) ∧
  length (warnings (snd (blacklistTypeParameters decls st))) =
    (length (warnings st) +
     length (filter (fun tpd => tpSymbol tpd = None) (default [] decls)))%nat.
Proof.
  unfold typeParameterSymbols. destruct decls as [ds|]; simpl.
  - destruct (blacklistTypeParameterDecls_run ds st)
      as (st' & -> & Hseen & Hin & Hout & Hw). by split_and!.
  - split_and!; [done..| |done|lia]. intros s Hs. by apply elem_of_nil in Hs.
Qed.

(** Blacklisting the same declarations again leaves the Alias Scope as the
    first call made it. *)
Theorem blacklistTypeParameters_idempotent
  (decls : option (list TypeParameterDeclaration)) (st : State) :
  symbolsToAliasedNames
    (snd (blacklistTypeParameters decls
            (snd (blacklistTypeParameters decls st))))
  = symbolsToAliasedNames (snd (blacklistTypeParameters decls st)).
Proof.
  destruct decls as [ds|]; [|done]. simpl.
  destruct (blacklistTypeParameterDecls_run ds st)
    as (st1 & -> & _ & Hin1 & _). simpl.
  destruct (blacklistTypeParameterDecls_run ds st1)
    as (st2 & -> & _ & Hin2 & Hout2 & _). simpl.
  apply map_eq. intros s.
  destruct (decide (s ∈ omap tpSymbol ds)) as [Hs|Hs].
  - by rewrite Hin1, Hin2.
  - by apply Hout2.
Qed.

Lemma translateWith_typeParameter W ext B rec t st :
  maskedKind W t = TypeFlags.TypeParameter →
  exitsEarly W ext t st = false →
  translateWith W ext B rec t st =
  match symbol (typeOf W t) with
  | None => (let! _ := warn WTypeParameterWithoutSymbol in ret "?") st
  | Some s =>
      (let! name := symbolToString W ext s in
       match truthy name with
       | None => ret "?"
       | Some name =>
           ret ((if Z.land (symFlags (symbolOf W s)) SymbolFlags.TypeParameter
                    =? 0 then "!" else "") +:+ name)
       end) st
  end.
Proof.
  intros Hk He. unfold exitsEarly in He.
  apply orb_false_elim in He as [He He3]. apply orb_false_elim in He as [He1 He2].
  unfold translateWith. cbv zeta.
  destruct (Z.eqb_spec (flags (typeOf W t)) TypeFlags.NonPrimitive) as [E|_].
  { unfold maskedKind in Hk. rewrite E in Hk. discriminate. }
  unfold bind at 1, hasSeen. rewrite He1, He2, He3.
  fold (maskedKind W t). rewrite Hk.
  by destruct (symbol (typeOf W t)).
Qed.

(** The type of a type parameter that blacklistTypeParameters has
    blacklisted is translated to [?]: its symbol has the TypeParameter
    flag, so symbolToString declares nothing and finds the alias [?]. *)
Theorem translate_blacklisted_type_parameter (W : World) (isForExterns : bool)
  (B : option (gset string)) (fuel : nat) (t : tid) (s : sid)
  (name : EntityName) (decls : option (list TypeParameterDeclaration))
  (st : State) :
  maskedKind W t = TypeFlags.TypeParameter →
  symbol (typeOf W t) = Some s →
  Z.land (symFlags (symbolOf W s)) SymbolFlags.TypeParameter ≠ 0 →
  symbolToEntityName W s = Some name →
  identifierSymbol W (lastIdentifier name) = s →
  s ∈ typeParameterSymbols decls →
  exitsEarly W isForExterns t st = false →
  translate W isForExterns B (S fuel) t
    (snd (blacklistTypeParameters decls st))
  = (Ok "?", snd (blacklistTypeParameters decls st)).
Proof.
  intros Hk Hs Hflag Hname Hlast Hin He.
  destruct (blacklistTypeParameters_sound decls st) as (Hseen & Halias).
  rewrite translate_S, translateWith_typeParameter; [|done|].
  2:{ unfold exitsEarly in *. by rewrite Hseen. }
  rewrite Hs. unfold bind, symbolToString.
  apply Z.eqb_neq in Hflag. rewrite Hflag, andb_false_r. simpl.
  rewrite Hname. simpl. unfold bind, getAliases. simpl.
  rewrite (writeEntityWithSymbols_alias _ _ _ _ _ "?");
    [done| |done].
  rewrite Hlast. by apply Halias.
Qed.

Lemma translate_blacklisted_type_parameter_witness :
  translate MoreExamples.genericWorld false None 1 O
    (snd (blacklistTypeParameters MoreExamples.typeParameterT
            Examples.freshState))
  = (Ok "?",
     snd (blacklistTypeParameters MoreExamples.typeParameterT
            Examples.freshState)).
Proof.
  apply (translate_blacklisted_type_parameter MoreExamples.genericWorld false
           None O O O (Examples.named O "T") MoreExamples.typeParameterT
           Examples.freshState); try reflexivity.
  - vm_compute. discriminate.
  - vm_compute. by left.
Defined.

(** ** Unions whose members read alike *)

Lemma firstOccurrences_constant (s : string) (parts : list string) :
  parts ≠ [] → (∀ p, p ∈ parts → p = s) → firstOccurrences parts = [s].
Proof.
  intros Hne Hall. destruct parts as [|p rest]; [done|]. simpl.
  rewrite (Hall p) by left. f_equal.
  assert (∀ x, x ∈ firstOccurrences rest → x = s) as H.
  { intros x Hx. apply Hall. right. by apply firstOccurrences_elem. }
  induction (firstOccurrences rest) as [|x l IH]; [done|].
  rewrite filter_cons_False.
  - apply IH. intros y Hy. apply H. by right.
  - intros Hx. apply Hx, H. by left.
Qed.

(** A union whose members all translate to the same text is translated to
    that text, without parentheses. *)
Theorem translate_union_of_equal_texts (W : World) (isForExterns : bool)
  (B : option (gset string)) (fuel : nat) (t : tid) (st st' : State)
  (parts : list string) (s : string) :
  hasFlag (flags (typeOf W t)) TypeFlags.Union = true →
  exitsEarly W isForExterns t st = false →
  mapM (translate W isForExterns B fuel) (types (typeOf W t)) st
    = (Ok parts, st') →
  parts ≠ [] →
  (∀ p, p ∈ parts → p = s) →
  translate W isForExterns B (S fuel) t st = (Ok s, st').
Proof.
  intros Hu He Hparts Hne Hall.
  rewrite translate_S, translateWith_union, translateUnion_eq by done.
  unfold bind. rewrite Hparts.
  by rewrite (firstOccurrences_constant s).
Qed.

Lemma translate_union_of_equal_texts_witness :
  translate MoreExamples.stringUnionWorld false None 2 O Examples.freshState
  = (Ok "string", Examples.freshState).
Proof.
  apply (translate_union_of_equal_texts MoreExamples.stringUnionWorld false
           None 1 O Examples.freshState Examples.freshState
           ["string"; "string"] "string"); try reflexivity.
  - discriminate.
  - intros p Hp.
    repeat (apply elem_of_cons in Hp as [->|Hp]; [done|]).
    by apply elem_of_nil in Hp.
Defined.

(** ** Object types *)

(** A type literal without members and without construct signature is
    translated to [*]; the type is then in the Recursion Set, and nothing
    else has changed. *)
Theorem translate_empty_type_literal (W : World) (isForExterns : bool)
  (B : option (gset string)) (fuel : nat) (t : tid) (s : sid) (st : State) :
  handledAsAnonymous W t = true →
  exitsEarly W isForExterns t st = false →
  symbol (typeOf W t) = Some s →
  isBlackListed W B s = false →
  members (symbolOf W s) = Some [] →
  constructSignatures (typeOf W t) = [] →
  translate W isForExterns B (S fuel) t st = (Ok "*", withSeen t st).
Proof.
  intros Ha He Hs Hb Hm Hc.
  rewrite translate_anonymous; [|done..|by rewrite Hs].
  unfold translateAnonymousType, bind, addSeenAnonymousType. simpl.
  rewrite Hs. simpl. by rewrite Hm, Hc.
Qed.

Lemma translate_empty_type_literal_witness :
  translate MoreExamples.objectsWorld false None 1 O Examples.freshState
  = (Ok "*", withSeen O Examples.freshState).
Proof.
  by apply (translate_empty_type_literal MoreExamples.objectsWorld false None
              O O O Examples.freshState).
Defined.

(** A class or interface type whose symbol the checker gives no entity
    name: the branch for classes answers [?], the branch for interfaces
    concatenates the missing name as it is and answers [!undefined].
    Neither leaves a warning. *)
Theorem translate_unnamed_interface (W : World) (isForExterns : bool)
  (B : option (gset string)) (fuel : nat) (t : tid) (s : sid) (st : State) :
  maskedKind W t = TypeFlags.Object →
  exitsEarly W isForExterns t st = false →
  symbol (typeOf W t) = Some s →
  isBlackListed W B s = false →
  symbolToEntityName W s = None →
  (hasFlag (objectFlags (typeOf W t)) ObjectFlags.Class = true →
   fst (translate W isForExterns B (S fuel) t st) = Ok "?" ∧
   warnings (snd (translate W isForExterns B (S fuel) t st)) = warnings st) ∧
  (hasFlag (objectFlags (typeOf W t)) ObjectFlags.Class = false →
   hasFlag (objectFlags (typeOf W t)) ObjectFlags.Interface = true →
   hasFlag (symFlags (symbolOf W s)) SymbolFlags.Value &&
     negb (isClosureProvidedType (symbolOf W s)) = false →
   fst (translate W isForExterns B (S fuel) t st) = Ok "!undefined" ∧
   warnings (snd (translate W isForExterns B (S fuel) t st)) = warnings st).
Proof.
  intros Hk He Hs Hb Hn.
  rewrite translate_S, translateWith_object by done.
  unfold translateObject. cbv zeta. rewrite Hs. simpl. rewrite Hb.
  split.
  - intros Hc. rewrite Hc. unfold bind, symbolToString, bind.
    destruct (negb isForExterns && _); simpl; by rewrite Hn.
  - intros Hc Hi Hv. rewrite Hc, Hi, Hv. unfold bind, symbolToString, bind.
    destruct (negb isForExterns && _); simpl; by rewrite Hn.
Qed.

Lemma translate_unnamed_interface_witness :
  fst (translate MoreExamples.unnamedWorld false None 1 O Examples.freshState)
    = Ok "?" ∧
  fst (translate MoreExamples.unnamedWorld false None 1 1%nat
         Examples.freshState) = Ok "!undefined".
Proof.
  split.
  - by apply (translate_unnamed_interface MoreExamples.unnamedWorld false None
                O O 1%nat Examples.freshState).
  - by apply (translate_unnamed_interface MoreExamples.unnamedWorld false None
                O 1%nat 1%nat Examples.freshState).
Defined.

(** A reference to a tuple target is translated to [!Array<?>], whatever
    its type arguments are, without any call of translate and without a
    change of state; the test comes before the test for a reference
    loop. *)
Theorem translate_tuple (W : World) (isForExterns : bool)
  (B : option (gset string)) (fuel : nat) (t : tid) (st : State) :
  maskedKind W t = TypeFlags.Object →
  exitsEarly W isForExterns t st = false →
  from_option (isBlackListed W B) false (symbol (typeOf W t)) = false →
  hasFlag (objectFlags (typeOf W t)) ObjectFlags.Class = false →
  hasFlag (objectFlags (typeOf W t)) ObjectFlags.Interface = false →
  hasFlag (objectFlags (typeOf W t)) ObjectFlags.Reference = true →
  hasFlag (objectFlags (typeOf W (target (typeOf W t)))) ObjectFlags.Tuple
    = true →
  translate W isForExterns B (S fuel) t st = (Ok "!Array<?>", st).
Proof.
  intros Hk He Hb Hc Hi Hr Ht.
  rewrite translate_S, translateWith_object by done.
  unfold translateObject. cbv zeta. by rewrite Hb, Hc, Hi, Hr, Ht.
Qed.

Lemma translate_tuple_witness :
  translate MoreExamples.objectsWorld false None 1 2%nat Examples.freshState
    = (Ok "!Array<?>", Examples.freshState) ∧
  translate MoreExamples.objectsWorld false None 1 3%nat Examples.freshState
    = (Ok "!Array<?>", Examples.freshState).
Proof.
  split.
  - by apply (translate_tuple MoreExamples.objectsWorld false None O 2%nat
                Examples.freshState).
  - by apply (translate_tuple MoreExamples.objectsWorld false None O 3%nat
                Examples.freshState).
Defined.

(** ** The members of a type literal *)

(** The loop over the members of a type literal: the object is callable
    or indexable exactly when it was before or a key [__call] or [__index]
    occurs, and one field is added, in order and behind those gathered
    before, for every other key that is a valid property name; the field
    starts with the key and a colon. *)
Theorem gatherFields_result (W : World) (rec : tid → M string)
  (entries : list (string * sid)) (callable indexable : bool)
  (fields : list string) (st : State)
  (callable' indexable' : bool) (fields' : list string) (st' : State) :
  gatherFields W rec entries callable indexable fields st
    = (Ok (callable', indexable', fields'), st') →
  callable' =
    callable || existsb (fun e => String.eqb (fst e) "__call") entries ∧
  indexable' =
    indexable || existsb (fun e => String.eqb (fst e) "__index") entries ∧
  ∃ more,
    fields' = (fields ++ more)%list ∧
    Forall2 (fun e text => ∃ memberType, text = fst e +:+ ": " +:+ memberType)
      (List.filter (fun e => isFieldKey (fst e)) entries) more.
Proof.
  revert callable indexable fields st.
  induction entries as [|[field member] rest IH];
    intros callable indexable fields st H; simpl in H.
  - injection H as <- <- <- <-. rewrite !orb_false_r. split_and!; [done..|].
    exists []. by rewrite app_nil_r.
  - simpl. unfold isFieldKey at 1. simpl.
    destruct (String.eqb field "__call") eqn:Hcall; simpl.
    { apply IH in H as (Hc & Hi & more & Hf & Hmore).
      apply String.eqb_eq in Hcall as ->.
      rewrite Hc, Hi, orb_true_r. by split_and!; [..|exists more]. }
    destruct (String.eqb field "__index") eqn:Hindex; simpl.
    { apply IH in H as (Hc & Hi & more & Hf & Hmore).
      rewrite Hc, Hi, orb_true_r. by split_and!; [..|exists more]. }
    destruct (isValidClosurePropertyName field) eqn:Hvalid; simpl in *.
    + unfold bind in H at 1.
      destruct (rec (getTypeOfSymbolAtLocation W member) st)
        as [[memberType| |] st1]; [|done..].
      apply IH in H as (Hc & Hi & more & Hf & Hmore).
      split_and!; [done..|].
      exists ((field +:+ ": " +:+ memberType) :: more).
      split; [by rewrite Hf, <- app_assoc|].
      constructor; [by exists memberType|done].
    + unfold bind in H at 1. unfold warn in H at 1.
      apply IH in H as (Hc & Hi & more & Hf & Hmore).
      by split_and!; [..|exists more].
Qed.

Lemma gatherFields_result_witness :
  ∃ more,
    ["self: ?"] = ([] ++ more)%list ∧
    Forall2 (fun e text => ∃ memberType, text = fst e +:+ ": " +:+ memberType)
      (List.filter (fun e : string * sid => isFieldKey (fst e))
         [("__call", 2%nat); ("self", 1%nat); ("a-b", 1%nat)])
      more.
Proof.
  apply (gatherFields_result Examples.recursiveWorld
           (translate Examples.recursiveWorld false None 1)
           [("__call", 2%nat); ("self", 1%nat); ("a-b", 1%nat)]
           false false [] Examples.seenRecursive
           true false ["self: ?"]
           (mkState {[ O ]} ∅ [WInexpressiblePropertyName "a-b"])).
  reflexivity.
Defined.

(** ** Rest parameters *)

(** A rest parameter whose type is no object type, or no type reference,
    is written as [!Array<?>], without the three dots and, if it is
    optional, without the equals sign; translate is not called, and the
    call leaves one warning. *)
Theorem convertParam_rest_not_array (W : World) (rec : tid → M string)
  (param : sid) (paramDecl : ParameterDeclaration) (st : State) :
  dotDotDotToken paramDecl = true →
  Z.land (flags (typeOf W (getTypeOfSymbolAtLocation W param)))
    TypeFlags.Object = 0 ∨
  Z.land (objectFlags (typeOf W (getTypeOfSymbolAtLocation W param)))
    ObjectFlags.Reference = 0 →
  ∃ w,
    convertParam W rec param paramDecl st =
    (Ok (Some "!Array<?>"),
     mkState (seenAnonymousTypes st) (symbolsToAliasedNames st)
       (warnings st ++ [w])).
Proof.
  intros Hrest H. unfold convertParam. rewrite Hrest.
  destruct (Z.eqb_spec
              (Z.land (flags (typeOf W (getTypeOfSymbolAtLocation W param)))
                 TypeFlags.Object) 0) as [_|Hobj].
  - by exists WVarArgsNotAnObjectType.
  - destruct H as [H|H]; [done|]. rewrite H. simpl.
    by exists WVarArgsNotAnArrayReference.
Qed.

Lemma convertParam_rest_not_array_witness :
  ∃ w,
    convertParam MoreExamples.objectsWorld
      (translate MoreExamples.objectsWorld false None 1) O
      MoreExamples.restParameter Examples.freshState =
    (Ok (Some "!Array<?>"), mkState ∅ ∅ ([] ++ [w])).
Proof.
  apply (convertParam_rest_not_array MoreExamples.objectsWorld
           (translate MoreExamples.objectsWorld false None 1) O
           MoreExamples.restParameter Examples.freshState).
  - reflexivity.
  - left. reflexivity.
Defined.

(** ** Aliases *)

(** An alias for the symbol of an inner segment of a qualified name
    replaces what is written to the left of it, and the walk goes on: the
    segment to the right is appended behind a dot. *)
Theorem symbolToString_alias_on_qualifier (W : World) (isForExterns : bool)
  (sym : sid) (st : State) (qualifier : EntityName)
  (right : IdentifierWithSymbol) (A : string) :
  symbolToEntityName W sym = Some (QualifiedName qualifier right) →
  aliasesAtLookup W isForExterns sym st
    !! identifierSymbol W (lastIdentifier qualifier) = Some A →
  A ≠ "" →
  aliasesAtLookup W isForExterns sym st !! identifierSymbol W right = None →
  fst (symbolToString W isForExterns sym st) =
  Ok (Some (stripClutzNamespace (A +:+ "." +:+ getIdentifierText W right))).
Proof.
  intros Hname HA Hne Hright.
  rewrite symbolToString_eq, Hname. simpl.
  rewrite (writeEntityWithSymbols_alias _ _ _ _ _ A) by done.
  rewrite writeIdentifier_after_dot. unfold writeUnprefixed.
  rewrite Hright. simpl. by rewrite append_assoc.
Qed.

Lemma symbolToString_alias_on_qualifier_witness :
  fst (symbolToString Examples.qualifiedWorld false O
         MoreExamples.innerAliased) = Ok (Some "ns.Foo").
Proof.
  apply (symbolToString_alias_on_qualifier Examples.qualifiedWorld false O
           MoreExamples.innerAliased
           (QualifiedName (Examples.named 2%nat "a")
              {| idText := "b"; idSymbol := 1%nat |})
           {| idText := "Foo"; idSymbol := O |} "ns").
  - reflexivity.
  - vm_compute. reflexivity.
  - discriminate.
  - vm_compute. reflexivity.
Defined.

(** symbolToString always returns, touches neither the Recursion Set nor
    the warnings, and leaves the Alias Scope as ensureSymbolDeclared made
    it: in externs mode, and for the symbol of a type parameter, the Alias
    Scope is as it was.  It returns undefined exactly when the checker
    gives the symbol no entity name. *)
Theorem symbolToString_frame (W : World) (isForExterns : bool) (sym : sid)
  (st : State) :
  (∃ name, fst (symbolToString W isForExterns sym st) = Ok name) ∧
  seenAnonymousTypes (snd (symbolToString W isForExterns sym st))
    = seenAnonymousTypes st ∧
  warnings (snd (symbolToString W isForExterns sym st)) = warnings st ∧
  symbolsToAliasedNames (snd (symbolToString W isForExterns sym st))
    = aliasesAtLookup W isForExterns sym st ∧
  (isForExterns = true ∨
   Z.land (symFlags (symbolOf W sym)) SymbolFlags.TypeParameter ≠ 0 →
   symbolsToAliasedNames (snd (symbolToString W isForExterns sym st))
     = symbolsToAliasedNames st) ∧
  (fst (symbolToString W isForExterns sym st) = Ok None ↔
   symbolToEntityName W sym = None).
Proof.
  assert (isForExterns = true ∨
          Z.land (symFlags (symbolOf W sym)) SymbolFlags.TypeParameter ≠ 0 →
          negb isForExterns &&
          (Z.land (symFlags (symbolOf W sym)) SymbolFlags.TypeParameter =? 0)
          = false) as Hcond.
  { intros [->|H]; [done|]. apply Z.eqb_neq in H. rewrite H.
    apply andb_false_r. }
  split; [rewrite symbolToString_eq; by eexists|].
  unfold symbolToString, aliasesAtLookup, bind.
  destruct (negb isForExterns && _) eqn:E; simpl;
    destruct (symbolToEntityName W sym); simpl; split_and!; try done;
    intros H; apply Hcond in H; done.
Qed.

(** ** Enum literals *)

(** translateEnumLiteral always returns, and what it returns is [?] or an
    exclamation mark and a non-empty name. *)
Theorem translateEnumLiteral_shape (W : World) (isForExterns : bool)
  (t : tid) (st : State) :
  ∃ s, fst (translateEnumLiteral W isForExterns t st) = Ok s ∧
       (s = "?" ∨ ∃ name, name ≠ "" ∧ s = "!" +:+ name).
Proof.
  assert (∀ sym,
    ∃ s, fst ((let! name := symbolToString W isForExterns sym in
               match truthy name with
               | None => ret "?"
               | Some name => ret ("!" +:+ name)
               end) st) = Ok s ∧
         (s = "?" ∨ ∃ name, name ≠ "" ∧ s = "!" +:+ name)) as Hcont.
  { intros sym. unfold bind.
    pose proof (symbolToString_eq W isForExterns sym st) as Heq.
    destruct (symbolToString W isForExterns sym st) as [r st1].
    simpl in Heq. rewrite Heq.
    destruct (_ <$> symbolToEntityName W sym) as [name|]; simpl.
    - unfold isEmptyString. destruct (String.eqb_spec name "").
      + exists "?". by split; [|left].
      + exists ("!" +:+ name). split; [done|]. right. by exists name.
    - exists "?". by split; [|left]. }
  unfold translateEnumLiteral. cbv zeta.
  destruct (symbol (typeOf W (getBaseTypeOfLiteralType W t))) as [s|].
  - destruct (bool_decide _); [|apply Hcont].
    destruct (symParent (symbolOf W s)); [apply Hcont|].
    exists "?". by split; [|left].
  - exists "?". by split; [|left].
Qed.

(** ** What a translation leaves of the state

    A relation between states that holds along every step that changes
    the state holds from the start to the end of every run of translate. *)

Section Keeps.
Context (W : World) (ext : bool) (B : option (gset string)).
Context (R : State → State → Prop).

Hypothesis R_refl : ∀ st, R st st.
Hypothesis R_trans : ∀ st1 st2 st3, R st1 st2 → R st2 st3 → R st1 st3.
Hypothesis R_warn : ∀ w st, R st (snd (warn w st)).
Hypothesis R_seen : ∀ t st, R st (snd (addSeenAnonymousType t st)).
Hypothesis R_blacklist : ∀ s st, R st (snd (setAlias s "?" st)).
Hypothesis R_declare :
  ext = false →
  ∀ sym st, R st (snd (updateAliases (ensureSymbolDeclared W sym) st)).

Lemma keeps_ret {A} (a : A) : keeps R (ret a).
Proof. intros st. apply R_refl. Qed.

Lemma keeps_throw {A} e : keeps R (@throw A e).
Proof. intros st. apply R_refl. Qed.

Lemma keeps_bind {A C} (m : M A) (k : A → M C) :
  keeps R m → (∀ a, keeps R (k a)) → keeps R (bind m k).
Proof.
  intros Hm Hk st. unfold bind. specialize (Hm st).
  destruct (m st) as [[a|e|] st']; [|done..].
  apply (R_trans _ st'); [done|apply Hk].
Qed.

Lemma keeps_warn w : keeps R (warn w).
Proof. intros st. apply R_warn. Qed.

Lemma keeps_mapM {A C} (f : A → M C) (xs : list A) :
  (∀ x, keeps R (f x)) → keeps R (mapM f xs).
Proof.
  intros H. induction xs as [|x xs IH]; simpl; [apply keeps_ret|].
  apply keeps_bind; [apply H|]. intros y.
  apply keeps_bind; [apply IH|intros ys; apply keeps_ret].
Qed.

Lemma symbolToString_keeps s : keeps R (symbolToString W ext s).
Proof.
  unfold symbolToString. apply keeps_bind.
  - destruct (negb ext && _) eqn:E; [|apply keeps_ret].
    intros st. apply R_declare. by destruct ext.
  - intros _. destruct (symbolToEntityName W s); [|apply keeps_ret].
    apply keeps_bind; [intros st; apply R_refl|intros a; apply keeps_ret].
Qed.

Lemma blacklistTypeParameters_keeps decls :
  keeps R (blacklistTypeParameters decls).
Proof.
  destruct decls as [ds|]; [|apply keeps_ret]. simpl.
  induction ds as [|tpd ds IH]; simpl; [apply keeps_ret|].
  apply keeps_bind; [|by intros _].
  destruct (tpSymbol tpd); [intros st; apply R_blacklist|apply keeps_warn].
Qed.

Ltac keeps_step :=
  lazymatch goal with
  | |- keeps _ (ret _) => apply keeps_ret
  | |- keeps _ (throw _) => apply keeps_throw
  | |- keeps _ (warn _) => apply keeps_warn
  | |- keeps _ (symbolToString _ _ _) => apply symbolToString_keeps
  | |- keeps _ (blacklistTypeParameters _) =>
      apply blacklistTypeParameters_keeps
  | |- keeps _ (bind _ _) => apply keeps_bind; [|intros ?]
  | |- keeps _ (match ?x with _ => _ end) => destruct x eqn:?
  end.

Lemma translateEnumLiteral_keeps t : keeps R (translateEnumLiteral W ext t).
Proof. unfold translateEnumLiteral. cbv zeta. repeat keeps_step. Qed.

Section Calls.
Context (rec : tid → M string).
Hypothesis rec_keeps : ∀ u, keeps R (rec u).

Lemma translateUnion_keeps t : keeps R (translateUnion W rec t).
Proof.
  unfold translateUnion. apply keeps_bind; [by apply keeps_mapM|].
  intros parts. repeat keeps_step.
Qed.

Lemma convertParam_keeps param paramDecl :
  keeps R (convertParam W rec param paramDecl).
Proof. unfold convertParam. cbv zeta. repeat keeps_step; apply rec_keeps. Qed.

Lemma convertParams_keeps sig paramDecls :
  keeps R (convertParams W rec sig paramDecls).
Proof.
  unfold convertParams. generalize (@nil string) O.
  induction (parameters sig) as [|param rest IH]; intros paramTypes i; simpl.
  - apply keeps_ret.
  - destruct (paramDecls !! i); [|apply keeps_throw].
    apply keeps_bind; [apply convertParam_keeps|]. intros pushed. apply IH.
Qed.

Lemma signatureToClosure_keeps sig : keeps R (signatureToClosure W rec sig).
Proof.
  unfold signatureToClosure. cbv zeta.
  repeat first [apply convertParams_keeps | apply rec_keeps | keeps_step].
Qed.

Lemma gatherFields_keeps entries callable indexable fields :
  keeps R (gatherFields W rec entries callable indexable fields).
Proof.
  revert callable indexable fields.
  induction entries as [|[field member] rest IH]; intros; simpl;
    [apply keeps_ret|].
  repeat first [apply IH | apply rec_keeps | keeps_step].
Qed.

Lemma translateAnonymousType_keeps t :
  keeps R (translateAnonymousType W rec t).
Proof.
  unfold translateAnonymousType. cbv zeta.
  apply keeps_bind; [intros st; apply R_seen|]. intros _.
  repeat first [apply convertParams_keeps | apply signatureToClosure_keeps
               | apply gatherFields_keeps | apply rec_keeps | keeps_step].
Qed.

Lemma translateObject_keeps t : keeps R (translateObject W ext B rec t).
Proof.
  unfold translateObject. cbv zeta.
  repeat first [apply signatureToClosure_keeps
               | apply translateAnonymousType_keeps
               | apply keeps_mapM; apply rec_keeps
               | apply rec_keeps | keeps_step].
Qed.

Lemma translateWith_keeps t : keeps R (translateWith W ext B rec t).
Proof.
  unfold translateWith. cbv zeta.
  destruct (flags (typeOf W t) =? TypeFlags.NonPrimitive); [apply keeps_ret|].
  apply keeps_bind; [intros st; apply R_refl|]. intros seen.
  repeat first [apply translateObject_keeps | apply translateUnion_keeps
               | apply translateEnumLiteral_keeps | keeps_step].
Qed.
End Calls.

Lemma translate_keeps fuel t : keeps R (translate W ext B fuel t).
Proof.
  revert t. induction fuel as [|fuel IH]; intros t.
  - intros st. apply R_refl.
  - rewrite translate_S. by apply translateWith_keeps.
Qed.
End Keeps.

(** In externs mode the only change that translate makes to the Alias
    Scope is to blacklist symbols: at the end of a call every symbol has
    the alias it had at the start, or [?]. *)
Theorem translate_externs_aliases (W : World) (B : option (gset string))
  (fuel : nat) (t : tid) (st : State) :
  aliasesOnlyBlacklisted st (snd (translate W true B fuel t st)).
Proof.
  apply translate_keeps.
  - intros s x. by left.
  - intros st1 st2 st3 H1 H2 x.
    destruct (H2 x) as [-> | ->]; [apply H1|by right].
  - intros w s x. by left.
  - intros u s x. by left.
  - intros s s0 x. simpl. destruct (decide (x = s)) as [->|Hne].
    + right. apply lookup_insert_eq.
    + left. by apply lookup_insert_ne.
  - done.
Qed.

(** ** Concrete runs of the lemmas on errors and on the blacklist *)

Lemma translate_reference_loop_witness :
  translate Examples.referenceLoopWorld false None 1 O Examples.freshState
  = (Throw (ReferenceLoop O), Examples.freshState).
Proof.
  by apply (translate_reference_loop Examples.referenceLoopWorld false None
              O O Examples.freshState).
Defined.

Lemma translate_unmatched_flags_witness :
  translate MoreExamples.unflaggedWorld false None 1 O Examples.freshState
  = (Throw (UnknownTypeFlags O), Examples.freshState).
Proof.
  apply (translate_unmatched_flags MoreExamples.unflaggedWorld false None
           O O Examples.freshState); [|done..].
  split_and!; [|done..].
  intros H. vm_compute in H.
  repeat (apply elem_of_cons in H as [H|H]; [discriminate|]).
  by apply elem_of_nil in H.
Defined.

Lemma translate_blacklisted_object_witness :
  translate MoreExamples.classWorld false Examples.moduleFileBlackList 1 O
    Examples.freshState = (Ok "?", Examples.freshState).
Proof.
  apply (translate_blacklisted_object MoreExamples.classWorld false
           Examples.moduleFileBlackList O O O Examples.freshState);
    [reflexivity..|].
  vm_compute. reflexivity.
Defined.

(** ** translate never returns the empty string *)

Lemma append_nonEmpty_l (a b : string) : nonEmpty a → nonEmpty (a +:+ b).
Proof. unfold nonEmpty. by destruct a. Qed.

Lemma append_nonEmpty_r (a b : string) : nonEmpty b → nonEmpty (a +:+ b).
Proof. unfold nonEmpty. destruct a; [by destruct b|done]. Qed.

Lemma truthy_nonEmpty (name : option string) (s : string) :
  truthy name = Some s → nonEmpty s.
Proof.
  destruct name as [x|]; [|done]. simpl. unfold isEmptyString.
  destruct (String.eqb_spec x ""); [done|]. by intros [= <-].
Qed.

Lemma returns_ret {A} (Q : A → Prop) (a : A) : Q a → returns Q (ret a).
Proof. by intros H st a' st' [= <- _]. Qed.

Lemma returns_throw {A} (Q : A → Prop) e : returns Q (@throw A e).
Proof. by intros st a st'. Qed.

Lemma returns_bind_post {A C} (P : A → Prop) (Q : C → Prop) (m : M A)
  (k : A → M C) :
  returns P m → (∀ a, P a → returns Q (k a)) → returns Q (bind m k).
Proof.
  intros Hm Hk st c st'. unfold bind. specialize (Hm st).
  destruct (m st) as [[a|e|] st1]; [|done..].
  apply Hk. by apply (Hm a st1).
Qed.

Lemma returns_bind {A C} (Q : C → Prop) (m : M A) (k : A → M C) :
  (∀ a, returns Q (k a)) → returns Q (bind m k).
Proof.
  intros Hk. apply (returns_bind_post (fun _ => True)); [done|].
  intros a _. apply Hk.
Qed.

Lemma returns_mapM {A C} (P : C → Prop) (f : A → M C) (xs : list A) :
  (∀ x, returns P (f x)) → returns (Forall P) (mapM f xs).
Proof.
  intros H. induction xs as [|x xs IH]; simpl.
  - by apply returns_ret.
  - apply (returns_bind_post P); [apply H|]. intros y Hy.
    apply (returns_bind_post (Forall P)); [apply IH|]. intros ys Hys.
    apply returns_ret. by constructor.
Qed.

Ltac nonEmpty_leaf :=
  solve [ discriminate
        | eapply truthy_nonEmpty; eassumption
        | apply append_nonEmpty_l; nonEmpty_leaf
        | apply append_nonEmpty_r; nonEmpty_leaf
        | assumption
        | match goal with
          | |- nonEmpty (match ?c with _ => _ end) =>
              destruct c eqn:?; nonEmpty_leaf
          end ].

Ltac returns_step :=
  lazymatch goal with
  | |- returns _ (ret _) => apply returns_ret; try nonEmpty_leaf
  | |- returns _ (throw _) => apply returns_throw
  | |- returns _ (bind _ _) => apply returns_bind; intros ?
  | |- returns _ (match ?x with _ => _ end) => destruct x eqn:?
  end.

Lemma translateEnumLiteral_nonEmpty W ext t :
  returns nonEmpty (translateEnumLiteral W ext t).
Proof. unfold translateEnumLiteral. cbv zeta. repeat returns_step. Qed.

Lemma signatureToClosure_nonEmpty W rec sig :
  returns nonEmpty (signatureToClosure W rec sig).
Proof. unfold signatureToClosure. cbv zeta. repeat returns_step. Qed.

Lemma translateAnonymousType_nonEmpty W rec t :
  returns nonEmpty (translateAnonymousType W rec t).
Proof.
  unfold translateAnonymousType. cbv zeta.
  repeat first [apply signatureToClosure_nonEmpty | returns_step].
Qed.

Lemma translateUnion_nonEmpty W rec t :
  (∀ u, returns nonEmpty (rec u)) → returns nonEmpty (translateUnion W rec t).
Proof.
  intros Hrec st s st'. rewrite translateUnion_eq. revert st s st'.
  apply (returns_bind_post (Forall nonEmpty)); [by apply returns_mapM|].
  intros parts Hparts. apply returns_ret. unfold unionText.
  destruct (firstOccurrences parts) as [|part [|? ?]] eqn:E; [done| |done].
  rewrite Forall_forall in Hparts. apply Hparts, firstOccurrences_elem.
  rewrite E. by left.
Qed.

Lemma translateObject_nonEmpty W ext B rec t :
  (∀ u, returns nonEmpty (rec u)) →
  returns nonEmpty (translateObject W ext B rec t).
Proof.
  intros Hrec. unfold translateObject. cbv zeta.
  repeat first
    [ apply signatureToClosure_nonEmpty
    | apply translateAnonymousType_nonEmpty
    | apply (returns_bind_post nonEmpty); [apply Hrec|intros ? ?]
    | returns_step ].
Qed.

Lemma translateWith_nonEmpty W ext B rec t :
  (∀ u, returns nonEmpty (rec u)) →
  returns nonEmpty (translateWith W ext B rec t).
Proof.
  intros Hrec. unfold translateWith. cbv zeta.
  destruct (flags (typeOf W t) =? TypeFlags.NonPrimitive);
    [by apply returns_ret|].
  apply returns_bind. intros seen.
  repeat first
    [ apply translateObject_nonEmpty; exact Hrec
    | apply translateUnion_nonEmpty; exact Hrec
    | apply translateEnumLiteral_nonEmpty
    | returns_step ].
  destruct (truthy a) eqn:E; simpl; [by apply (truthy_nonEmpty a)|done].
Qed.

Lemma translate_nonEmpty W ext B fuel t :
  returns nonEmpty (translate W ext B fuel t).
Proof.
  revert t. induction fuel as [|fuel IH]; intros t; [by intros st s st'|].
  rewrite translate_S. by apply translateWith_nonEmpty.
Qed.

(** translate never returns the empty string. *)
Theorem translate_never_empty (W : World) (isForExterns : bool)
  (B : option (gset string)) (fuel : nat) (t : tid) (st : State) :
  fst (translate W isForExterns B fuel t st) ≠ Ok "".
Proof.
  intros H.
  destruct (translate W isForExterns B fuel t st) as [r st'] eqn:E.
  simpl in H. subst r.
  by apply (translate_nonEmpty W isForExterns B fuel t st "" st').
Qed.

(** ** Interfaces of the library *)

Lemma symbolToString_warnings W ext s st :
  warnings (snd (symbolToString W ext s st)) = warnings st.
Proof.
  unfold symbolToString, bind.
  destruct (negb ext && _); simpl; by destruct (symbolToEntityName W s).
Qed.

(** An interface whose symbol is a value as well is still translated to
    its name when one of its declarations is in a library file of
    TypeScript, [lib.d.ts] or [lib.*.d.ts] in any directory; no warning is
    left. *)
Theorem translate_library_interface (W : World) (isForExterns : bool)
  (B : option (gset string)) (fuel : nat) (t : tid) (s : sid) (st : State)
  (d : Node) (dir infix : string) :
  maskedKind W t = TypeFlags.Object →
  exitsEarly W isForExterns t st = false →
  symbol (typeOf W t) = Some s →
  isBlackListed W B s = false →
  hasFlag (objectFlags (typeOf W t)) ObjectFlags.Class = false →
  hasFlag (objectFlags (typeOf W t)) ObjectFlags.Interface = true →
  d ∈ declarationsOf W s →
  fileName (sourceFile d) = dir +:+ "/lib." +:+ infix +:+ "d.ts" →
  isLibInfix infix →
  fst (translate W isForExterns B (S fuel) t st) =
    Ok ("!" +:+
        default "undefined"
          ((fun name =>
              stripClutzNamespace
                (writeEntityWithSymbols W isForExterns
                   (aliasesAtLookup W isForExterns s st) name ""))
           <$> symbolToEntityName W s)) ∧
  warnings (snd (translate W isForExterns B (S fuel) t st)) = warnings st.
Proof.
  intros Hk He Hs Hb Hc Hi Hd Hfile Hinfix.
  assert (isClosureProvidedType (symbolOf W s) = true) as Hlib.
  { unfold isClosureProvidedType. unfold declarationsOf in Hd.
    destruct (declarations (symbolOf W s)) as [ds|];
      [|by apply elem_of_nil in Hd].
    apply (existsb_true _ _ d); [done|]. rewrite Hfile.
    by apply scanLib_after_slash, libTail_infix. }
  rewrite translate_S, translateWith_object by done.
  unfold translateObject. cbv zeta. rewrite Hs. simpl.
  rewrite Hb, Hc, Hi, Hlib, andb_false_r. unfold bind.
  pose proof (symbolToString_eq W isForExterns s st) as Heq.
  pose proof (symbolToString_warnings W isForExterns s st) as Hw.
  destruct (symbolToString W isForExterns s st) as [r st1].
  simpl in Heq, Hw. by rewrite Heq.
Qed.

Lemma translate_library_interface_witness :
  fst (translate MoreExamples.libraryWorld false None 1 O Examples.freshState)
    = Ok "!Date" ∧
  warnings (snd (translate MoreExamples.libraryWorld false None 1 O
                   Examples.freshState)) = [].
Proof.
  apply (translate_library_interface MoreExamples.libraryWorld false None O O
           O Examples.freshState
           (Examples.declaredIn MoreExamples.libFile) "/ts" "es5.");
    try reflexivity.
  - vm_compute. by left.
  - right. exists "es5". by split_and!.
Defined.
